(** * findbad_catastrophic: a shallow embedding of [findbad_catastrophic.js]

    The program walks an ext2/3/4 filesystem through an interactive
    [debugfs] session and reports every file whose blocks, or whose inode
    record, overlap a fixed list of damaged byte ranges.

    Conventions of the embedding.
    - A JavaScript number holding an integer is a [Z].  Every number the
      program computes from 32-bit fields stays far below 2^53, where the
      arithmetic of doubles on integers is exact.  A number the program
      reads from the inspector's text with unary plus is followed up to
      2^53; from a larger numeral on the program computes with a rounded
      double or with [Infinity], and the run of the model ends in
      [Inexact] there.
    - A [Buffer] is a [list Z] of bytes; a read outside the buffer throws
      (a [RangeError] in Node), an indexed write outside it is dropped.
      The size of a buffer is a [nat]: [Buffer.alloc] accepts nothing
      else.
    - A JavaScript string is a list of UTF-16 code units ([list Z]).
    - A thrown exception is the [Throw] outcome of a [result].
    - Each regular expression of the program is a matcher written for
      that pattern, with the search and the [lastIndex] bookkeeping of
      [exec] on top of it.
    - Loops that JavaScript runs until a search fails are bounded by the
      length of the text they consume; recursion over the filesystem
      (extent trees, directories) is bounded by a [fuel] argument, and a
      run that is cut short ends in [OutOfFuel].
    - The inode and walker code sees the inspector as a function from the
      command sent to the raw reply that [debugfs.next()] resolves with;
      the commands written and the texts passed to [console.log] are
      logged in a [World].  The file system is seen through [statSync], a
      function from a path to the outcome of [fs.statSync] on it.
      The session multiplexer [expect] is modelled on its own, as a state
      machine over stream events and calls, on the text the
      [StringDecoder] produces. *)

From Stdlib Require Import ZArith List Lia Bool String Ascii.
From stdpp Require Import base option list gmap.
Import ListNotations.
Local Open Scope Z_scope.

(** ** Outcomes of fallible code *)

Inductive exn : Type :=
| ERR_OUT_OF_RANGE                 (* Buffer read outside the buffer *)
| GroupMissing (group : Z)         (* "Group N was calculated but doesn't exist!!!" *)
| WeirdResponse                    (* "Got weird response for ..." *)
| UnexpectedResponse               (* "Unexpected response from debugfs: ..." *)
| StreamEnded                      (* "Stream ended before next prompt was found" *)
| StreamFailed                     (* an error event of the stream *)
| ExpectDisposed                   (* "Expect disposed" *)
| NoDeviceArgument                 (* "You must provide the target device as the only argument" *)
| ENOENT.                          (* [fs.statSync] on a path that does not exist *)

(** [OutOfFuel] is not a JavaScript outcome: it marks a run of a
    fuel-bounded model that was cut before the program finished.
    [Inexact] is none either: it marks a run that met a numeral above
    2^53 in the inspector's text, where the program goes on with a
    rounded number and the model stops. *)
Inductive result (A : Type) : Type :=
| Ok (a : A)
| Throw (e : exn)
| OutOfFuel
| Inexact.
Arguments Ok {A} a.
Arguments Throw {A} e.
Arguments OutOfFuel {A}.
Arguments Inexact {A}.

Definition result_bind {A B} (r : result A) (k : A -> result B) : result B :=
  match r with
  | Ok a => k a
  | Throw e => Throw e
  | OutOfFuel => OutOfFuel
  | Inexact => Inexact
  end.

(** ** Numbers *)

(** [Math.ceil (a / b)] for an integer [a] and a positive integer [b]. *)
Definition ceilDiv (a b : Z) : Z := - ((- a) / b).

(** ** Buffers *)

Abbreviation Buffer := (list Z) (only parsing).

(** [Buffer.alloc(size)] *)
Definition Buffer_alloc (size : nat) : Buffer := repeat 0 size.

Definition byteAt (buf : Buffer) (i : nat) : Z := nth i buf 0.

(** [buf.readUint16LE(off)] and [buf.readUint32LE(off)]: Node checks that
    the whole field lies inside the buffer and throws otherwise. *)
Definition readUint16LE (buf : Buffer) (off : nat) : result Z :=
  if (off + 2 <=? length buf)%nat
  then Ok (byteAt buf off + 256 * byteAt buf (off + 1))
  else Throw ERR_OUT_OF_RANGE.

Definition readUint32LE (buf : Buffer) (off : nat) : result Z :=
  if (off + 4 <=? length buf)%nat
  then Ok (byteAt buf off + 256 * byteAt buf (off + 1)
           + 65536 * byteAt buf (off + 2) + 16777216 * byteAt buf (off + 3))
  else Throw ERR_OUT_OF_RANGE.

(** [buf.slice(a, b)] for [a <= b] *)
Definition Buffer_slice (buf : Buffer) (a b : nat) : Buffer :=
  firstn (b - a) (skipn a buf).

(** Every byte of a buffer is an octet. *)
Definition octets (buf : Buffer) : Prop := Forall (fun b => 0 <= b < 256) buf.

(** ** Bad-Region Index ([badRanges], [rangeIsSafe]) *)

Module Range.
Record t : Type := mk { start : Z; length : Z }.
End Range.

Definition badRanges : list Range.t :=
  [ Range.mk 0x23bad54000 0x294000;
    Range.mk 0x23ef054000 0x294000;
    Range.mk 0x23ef654000 0x294000;
    Range.mk 0x23feadc000 0x294000;
    Range.mk 0x241f9dc000 0x1539973e00;
    Range.mk 0x398da03000 0x0a00 ].

(** The loop of [rangeIsSafe] over an arbitrary list of ranges. *)
Fixpoint rangeIsSafeIn (ranges : list Range.t) (start end_ : Z) : bool :=
  match ranges with
  | [] => true
  | range :: rest =>
      if (end_ >? Range.start range)
         && (start <? Range.start range + Range.length range)
      then false
      else rangeIsSafeIn rest start end_
  end.

Definition rangeIsSafe (start end_ : Z) : bool :=
  rangeIsSafeIn badRanges start end_.

(** The spec's name for the query: [overlaps] is "not safe". *)
Definition overlaps (start end_ : Z) : bool := negb (rangeIsSafe start end_).

Definition blockIsSafe (blockNum : Z) : bool :=
  rangeIsSafe (blockNum * 4096) ((blockNum + 1) * 4096).

(** ** Inode Table Locator ([getAddressOfInode]) *)

(** [startOfInodeTableByGroup] is a [Map] from group number to byte offset;
    JavaScript's [%] is the truncating remainder. *)
Definition getAddressOfInode (startOfInodeTableByGroup : gmap Z Z) (inode : Z)
  : result Z :=
  let group := (inode - 1) / 8028 in
  let index := Z.rem (inode - 1) 8028 in
  match startOfInodeTableByGroup !! group with
  | None => Throw (GroupMissing group)
  | Some startOfInodeTable => Ok (startOfInodeTable + index * 256)
  end.

Definition inodeIsSafe (table : gmap Z Z) (inode : Z) : result bool :=
  result_bind (getAddressOfInode table inode)
    (fun address => Ok (rangeIsSafe address (address + 256))).

(** ** Strings and the regular expressions of the program *)

Abbreviation jsstring := (list Z) (only parsing).

(** A literal of the source as a list of code units. *)
Definition str (s : string) : jsstring :=
  map (fun a => Z.of_N (N_of_ascii a)) (list_ascii_of_string s).

Definition isLineTerminator (c : Z) : bool :=
  (c =? 10) || (c =? 13) || (c =? 0x2028) || (c =? 0x2029).

(** [\d], [[0-7]] and [\w] (no [i] or [u] flag) *)
Definition isDigit (c : Z) : bool := (48 <=? c) && (c <=? 57).
Definition isOctalDigit (c : Z) : bool := (48 <=? c) && (c <=? 55).
Definition isWordChar (c : Z) : bool :=
  isDigit c || ((65 <=? c) && (c <=? 90)) || ((97 <=? c) && (c <=? 122))
  || (c =? 95).

(** White space skipped by [parseInt] (StrWhiteSpaceChar). *)
Definition isStrWhiteSpace (c : Z) : bool :=
  ((9 <=? c) && (c <=? 13)) || (c =? 32) || (c =? 160) || (c =? 0x1680)
  || ((0x2000 <=? c) && (c <=? 0x200A)) || (c =? 0x2028) || (c =? 0x2029)
  || (c =? 0x202F) || (c =? 0x205F) || (c =? 0x3000) || (c =? 0xFEFF).

(** The value of a digit in radixes up to 36, if it is one. *)
Definition digitValue (c : Z) : option Z :=
  if isDigit c then Some (c - 48)
  else if (97 <=? c) && (c <=? 122) then Some (c - 87)
  else if (65 <=? c) && (c <=? 90) then Some (c - 55)
  else None.

(** The longest prefix of digits below [radix], read as a number;
    [None] when there is no such digit. *)
Fixpoint digitsPrefix (radix : Z) (acc : option Z) (s : jsstring) : option Z :=
  match s with
  | [] => acc
  | c :: s' =>
      match digitValue c with
      | Some d =>
          if d <? radix
          then digitsPrefix radix (Some (default 0 acc * radix + d)) s'
          else acc
      | None => acc
      end
  end.

Fixpoint dropWhile (p : Z -> bool) (s : jsstring) : jsstring :=
  match s with
  | [] => []
  | c :: s' => if p c then dropWhile p s' else s
  end.

(** [parseInt(s, radix)] for radix 8, 10 or 16; [None] is [NaN]. *)
Definition parseInt (s : jsstring) (radix : Z) : option Z :=
  let s1 := dropWhile isStrWhiteSpace s in
  let '(sign, s2) :=
    match s1 with
    | 45 :: r => (-1, r)
    | 43 :: r => (1, r)
    | _ => (1, s1)
    end in
  let s3 :=
    if radix =? 16
    then match s2 with
         | 48 :: 120 :: r => r
         | 48 :: 88 :: r => r
         | _ => s2
         end
    else s2 in
  match digitsPrefix radix None s3 with
  | Some v => Some (sign * v)
  | None => None
  end.

(** The decimal value of a string of digits. *)
Definition decimalValue (digits : jsstring) : Z :=
  default 0 (digitsPrefix 10 None digits).

(** Unary plus on a capture of [\d+].  Every integer up to 2^53 is a
    double, so up to there the result is the decimal value of the digits.
    A larger value is rounded to the nearest double, and is [Infinity]
    from about 309 digits on: [None], the model does not follow the
    program on such a number. *)
Definition toNumber (digits : jsstring) : option Z :=
  let value := decimalValue digits in
  if value <=? 2 ^ 53 then Some value else None.

(** [s.substr(from, len)] *)
Definition substr (s : jsstring) (from len : nat) : jsstring :=
  firstn len (skipn from s).

(** Pieces of a match at the head of a string: [n] characters of a class,
    one or more characters of a class, a literal. *)
Definition takeN (n : nat) (p : Z -> bool) (s : jsstring)
  : option (jsstring * jsstring) :=
  let w := firstn n s in
  if (length w =? n)%nat && forallb p w then Some (w, skipn n s) else None.

Fixpoint takeWhile (p : Z -> bool) (s : jsstring) : jsstring :=
  match s with
  | [] => []
  | c :: s' => if p c then c :: takeWhile p s' else []
  end.

Definition takeSome (p : Z -> bool) (s : jsstring)
  : option (jsstring * jsstring) :=
  match takeWhile p s with
  | [] => None
  | w => Some (w, dropWhile p s)
  end.

Fixpoint literal (l s : jsstring) : option jsstring :=
  match l, s with
  | [], _ => Some s
  | a :: l', b :: s' => if a =? b then literal l' s' else None
  | _ :: _, [] => None
  end.

(** [regex.exec] for a sticky-less regular expression with the [g] and [m]
    flags whose pattern starts with [^]: the leftmost position at or after
    [lastIndex] that starts a line and where the rest of the pattern,
    [pat], matches.  [pat] returns the captures and the length of the
    match; the result carries the new [lastIndex].  A failed search
    returns [null] and resets [lastIndex] to 0. *)
Fixpoint searchLineStart {G : Type} (pat : jsstring -> option (G * nat))
    (s : jsstring) (i : nat) (atLineStart : bool) : option (G * nat) :=
  match (if atLineStart then pat s else None) with
  | Some (g, len) => Some (g, (i + len)%nat)
  | None =>
      match s with
      | [] => None
      | c :: s' => searchLineStart pat s' (S i) (isLineTerminator c)
      end
  end.

Definition startsLine (s : jsstring) (i : nat) : bool :=
  match i with
  | O => true
  | S j => match s !! j with
           | Some c => isLineTerminator c
           | None => false
           end
  end.

Definition execLineStart {G : Type} (pat : jsstring -> option (G * nat))
    (s : jsstring) (lastIndex : nat) : option (G * nat) :=
  if (length s <? lastIndex)%nat then None
  else searchLineStart pat (skipn lastIndex s) lastIndex (startsLine s lastIndex).

(** ** Hex-Dump Decoder ([parseHexRegex], [parseHex]) *)

(** [n] times: one space and four word characters. *)
Fixpoint hexWords (n : nat) (s : jsstring) : option (list jsstring * jsstring) :=
  match n with
  | O => Some ([], s)
  | S n' =>
      match literal (str " ") s with
      | None => None
      | Some s1 =>
          match takeN 4 isWordChar s1 with
          | None => None
          | Some (w, s2) =>
              match hexWords n' s2 with
              | None => None
              | Some (ws, s3) => Some (w :: ws, s3)
              end
          end
      end
  end.

(** The pattern after [^]: four octal digits, two spaces, and eight words
    of four word characters separated by single spaces.  The captures are
    the offset and the eight words; the match is 45 characters long. *)
Definition parseHexPattern (s : jsstring)
  : option ((jsstring * list jsstring) * nat) :=
  match takeN 4 isOctalDigit s with
  | None => None
  | Some (offset, s1) =>
      match literal (str " ") s1 with
      | None => None
      | Some s2 =>
          match hexWords 8 s2 with
          | None => None
          | Some (ws, _) => Some ((offset, ws), 45%nat)
          end
      end
  end.

Definition parseHexRegex_exec := execLineStart parseHexPattern.

(** A store into a [Uint8Array] element: [NaN] is stored as 0, an
    integer modulo 256. *)
Definition toUint8 (v : option Z) : Z :=
  match v with
  | None => 0
  | Some n => n mod 256
  end.

(** The inner [for] loop: [buffer[start + i] = parseInt(...)] for the
    [count] bytes from [i] on.  A store outside the buffer does nothing. *)
Fixpoint storeBytes (start : Z) (ws : list jsstring) (count : nat) (i : nat)
    (buffer : Buffer) : Buffer :=
  match count with
  | O => buffer
  | S count' =>
      let word := nth (i / 2)%nat ws [] in
      let v := parseInt (substr word ((i mod 2) * 2)%nat 2) 16 in
      let at_ := start + Z.of_nat i in
      let buffer' :=
        if 0 <=? at_ then <[Z.to_nat at_ := toUint8 v]> buffer else buffer in
      storeBytes start ws count' (S i) buffer'
  end.

(** The [while] loop of [parseHex]; the search position grows by 45 with
    every match, so [S (length hex)] rounds are never used up. *)
Fixpoint parseHex_loop (fuel : nat) (hex : jsstring) (lastIndex : nat)
    (buffer : Buffer) : Buffer :=
  match fuel with
  | O => buffer
  | S fuel' =>
      match parseHexRegex_exec hex lastIndex with
      | None => buffer
      | Some ((offset, ws), lastIndex') =>
          match parseInt offset 8 with
          | None => parseHex_loop fuel' hex lastIndex' buffer
          | Some start =>
              parseHex_loop fuel' hex lastIndex' (storeBytes start ws 16 0 buffer)
          end
      end
  end.

Definition parseHex (size : nat) (hex : jsstring) : Buffer :=
  parseHex_loop (S (length hex)) hex 0 (Buffer_alloc size).

(** ** The inspector session ([debugfsCmd]) *)

(** The commands the program sends: [stats], [id <n>], [bd n] and
    [ls -p <n>]. *)
Inductive Cmd : Type :=
| stats
| id_ (inode : Z)
| bd (blockNum : Z)
| ls_p (inode : Z).

(** What a run can change: the commands written to the inspector, the
    texts passed to [console.log] (one element per call; a text that
    holds a line feed is printed on several lines), and the set
    [inodesVisited]. *)
Record World : Type := mkWorld {
  sent : list Cmd;
  console : list jsstring;
  inodesVisited : gset Z
}.

Definition M (A : Type) : Type := World -> result A * World.

Definition ret {A} (a : A) : M A := fun w => (Ok a, w).

Definition bind {A B} (c : M A) (k : A -> M B) : M B :=
  fun w =>
    match c w with
    | (Ok a, w') => k a w'
    | (Throw e, w') => (Throw e, w')
    | (OutOfFuel, w') => (OutOfFuel, w')
    | (Inexact, w') => (Inexact, w')
    end.

Declare Scope js_scope.
Delimit Scope js_scope with js.
Notation "x <- c ;; k" := (bind c (fun x => k))
  (at level 100, c at next level, right associativity) : js_scope.
Notation "c ;; k" := (bind c (fun _ => k))
  (at level 100, right associativity) : js_scope.
Local Open Scope js_scope.

Definition lift {A} (r : result A) : M A := fun w => (r, w).

Definition outOfFuel {A} : M A := fun w => (OutOfFuel, w).

Definition sendDebugfsCommand (cmd : Cmd) : M unit :=
  fun w => (Ok tt, mkWorld (sent w ++ [cmd]) (console w) (inodesVisited w)).

Definition console_log (line : jsstring) : M unit :=
  fun w => (Ok tt, mkWorld (sent w) (console w ++ [line]) (inodesVisited w)).

(** [s.match(/(?<=\n)(?:.|\s)*/)]: everything after the first line feed,
    [None] ([null]) when there is none. *)
Fixpoint afterFirstLine (s : jsstring) : option jsstring :=
  match s with
  | [] => None
  | c :: s' => if c =? 10 then Some s' else afterFirstLine s'
  end.

Definition S_IFDIR : Z := 0x4000.
Definition S_IFREG : Z := 0x8000.
Definition S_EXTENTS : Z := 0x080000.
Definition blockIdsPerBlock : Z := 4096 / 4.
Definition ROOT_DIR_INODE : Z := 2.

Module blockCounts.
Definition L1 : Z := 1024.
Definition L2 : Z := 1024 ^ 2.
Definition L3 : Z := 1024 ^ 3.
End blockCounts.

(** [Boolean(x)] and [x || y] on numbers *)
Definition Boolean (x : Z) : bool := negb (x =? 0).
Definition orElse (x y : Z) : Z := if x =? 0 then y else x.

(** [x ?? y]: [None] stands for [null] and [undefined]. *)
Definition nullish {A} (x : option A) (y : A) : A :=
  match x with
  | Some v => v
  | None => y
  end.

Record InodeInfo : Type := mkInodeInfo {
  id : Z;
  name : jsstring;
  buf : Buffer
}.

Definition new_InodeInfo (id : Z) (name hex : jsstring) : InodeInfo :=
  mkInodeInfo id name (parseHex 256 hex).

Definition isDir (this : InodeInfo) : result bool :=
  result_bind (readUint16LE (buf this) 0)
    (fun mode => Ok (Boolean (Z.land mode S_IFDIR))).

Definition isFile (this : InodeInfo) : result bool :=
  result_bind (readUint16LE (buf this) 0)
    (fun mode => Ok (Boolean (Z.land mode S_IFREG))).

Definition usesExtents (this : InodeInfo) : result bool :=
  result_bind (readUint32LE (buf this) 0x20)
    (fun flags => Ok (Boolean (Z.land flags S_EXTENTS))).

Definition blocksInUse (this : InodeInfo) : result Z :=
  result_bind (readUint32LE (buf this) 0x04)
    (fun bytes => Ok (ceilDiv bytes 4096)).

Definition get_i_block (this : InodeInfo) : Buffer :=
  Buffer_slice (buf this) 0x28 (0x28 + 60).

(** The loop
    [for (let i = 0; i < n; i++) if (!blockIsSafe(b.readUint32LE(i * 4))) return false;]
    of [blocksAreSafe] and [blocksL1AreSafe], from index [i] on with
    [count] rounds left. *)
Fixpoint pointersAreSafe (b : Buffer) (count i : nat) : result bool :=
  match count with
  | O => Ok true
  | S count' =>
      result_bind (readUint32LE b (i * 4))
        (fun blockNum =>
           if blockIsSafe blockNum then pointersAreSafe b count' (S i)
           else Ok false)
  end.

(** The numbers of blocks [blocksAreSafe] asks of each level. *)
Definition directBlocks (blocksInUse : Z) : Z := Z.min 12 blocksInUse.
Definition level1Blocks (blocksInUse : Z) : Z :=
  Z.min blockCounts.L1 (blocksInUse - directBlocks blocksInUse).
Definition level2Blocks (blocksInUse : Z) : Z :=
  Z.min blockCounts.L2
    (blocksInUse - directBlocks blocksInUse - level1Blocks blocksInUse).
Definition level3Blocks (blocksInUse : Z) : Z :=
  Z.min blockCounts.L3
    (blocksInUse - directBlocks blocksInUse - level1Blocks blocksInUse
     - level2Blocks blocksInUse).

(** The share of the [i]-th pointer of a double-indirect block that
    covers [level2Blocks] blocks, and of a triple-indirect block that
    covers [level3Blocks]. *)
Definition level1BlocksUnder (level2Blocks : Z) (i : nat) : Z :=
  orElse (Z.rem (Z.min level2Blocks ((Z.of_nat i + 1) * blockIdsPerBlock))
                blockIdsPerBlock)
         blockIdsPerBlock.
Definition level2BlocksUnder (level3Blocks : Z) (i : nat) : Z :=
  orElse (Z.rem (Z.min level3Blocks ((Z.of_nat i + 1) * blockIdsPerBlock ^ 2))
                (blockIdsPerBlock ^ 2))
         (blockIdsPerBlock ^ 2).

Section Inspector.

(** The raw reply the session multiplexer hands over for a command: the
    echoed command line and then the inspector's output. *)
Variable inspector : Cmd -> jsstring.

Definition debugfsCmd (cmd : Cmd) : M jsstring :=
  sendDebugfsCommand cmd ;;
  match afterFirstLine (inspector cmd) with
  | None => lift (Throw WeirdResponse)
  | Some rest => ret rest
  end.

(** *** Extent trees *)

(** The [for] loop of [extentsAreSafe] from entry [i] on, with [count]
    rounds left; [self] is the recursive call on a child block. *)
Fixpoint extentEntriesAreSafe (self : Buffer -> M bool) (buf : Buffer)
    (leaf : bool) (count i : nat) : M bool :=
  match count with
  | O => ret true
  | S count' =>
      if leaf then
        firstBlockNum <- lift (readUint32LE buf (12 * (i + 1) + 0x08)) ;;
        blockCount <- lift (readUint16LE buf (12 * (i + 1) + 0x04)) ;;
        if negb (rangeIsSafe (firstBlockNum * 4096)
                             ((firstBlockNum + blockCount) * 4096))
        then ret false
        else extentEntriesAreSafe self buf leaf count' (S i)
      else
        child <- lift (readUint32LE buf (12 * (i + 1) + 0x04)) ;;
        hex <- debugfsCmd (bd child) ;;
        let childBlock := parseHex 4096 hex in
        safe <- self childBlock ;;
        if negb safe then ret false
        else extentEntriesAreSafe self buf leaf count' (S i)
  end.

Fixpoint extentsAreSafe (fuel : nat) (buf : Buffer) : M bool :=
  match fuel with
  | O => outOfFuel
  | S fuel' =>
      entryCount <- lift (readUint16LE buf 0x02) ;;
      depth <- lift (readUint16LE buf 0x06) ;;
      let leaf := depth =? 0 in
      extentEntriesAreSafe (extentsAreSafe fuel') buf leaf
        (Z.to_nat entryCount) 0
  end.

(** *** Classic indirect blocks *)

Definition blocksL1AreSafe (blockNum level1Blocks : Z) : M bool :=
  hex <- debugfsCmd (bd blockNum) ;;
  let buffer := parseHex 4096 hex in
  lift (pointersAreSafe buffer (Z.to_nat level1Blocks) 0).

Fixpoint blocksL2_loop (buffer : Buffer) (level2Blocks : Z)
    (count i : nat) : M bool :=
  match count with
  | O => ret true
  | S count' =>
      pointer <- lift (readUint32LE buffer (i * 4)) ;;
      if negb (blockIsSafe pointer) then ret false
      else
        safe <- blocksL1AreSafe pointer (level1BlocksUnder level2Blocks i) ;;
        if negb safe then ret false
        else blocksL2_loop buffer level2Blocks count' (S i)
  end.

Definition blocksL2AreSafe (blockNum level2Blocks : Z) : M bool :=
  hex <- debugfsCmd (bd blockNum) ;;
  let buffer := parseHex 4096 hex in
  let pointers := ceilDiv level2Blocks blockIdsPerBlock in
  blocksL2_loop buffer level2Blocks (Z.to_nat pointers) 0.

Fixpoint blocksL3_loop (buffer : Buffer) (level3Blocks : Z)
    (count i : nat) : M bool :=
  match count with
  | O => ret true
  | S count' =>
      pointer <- lift (readUint32LE buffer (i * 4)) ;;
      if negb (blockIsSafe pointer) then ret false
      else
        safe <- blocksL2AreSafe pointer (level2BlocksUnder level3Blocks i) ;;
        if negb safe then ret false
        else blocksL3_loop buffer level3Blocks count' (S i)
  end.

Definition blocksL3AreSafe (blockNum level3Blocks : Z) : M bool :=
  hex <- debugfsCmd (bd blockNum) ;;
  let buffer := parseHex 4096 hex in
  let pointers := ceilDiv level3Blocks (blockIdsPerBlock ^ 2) in
  blocksL3_loop buffer level3Blocks (Z.to_nat pointers) 0.

Definition blocksAreSafe (this : InodeInfo) (i_block : Buffer) : M bool :=
  blocksInUse <- lift (blocksInUse this) ;;
  safeDirect <- lift (pointersAreSafe i_block
                        (Z.to_nat (directBlocks blocksInUse)) 0) ;;
  if negb safeDirect then ret false
  else if level1Blocks blocksInUse <=? 0 then ret true
  else
    l1 <- lift (readUint32LE i_block (12 * 4)) ;;
    safeL1 <- blocksL1AreSafe l1 (level1Blocks blocksInUse) ;;
    if negb safeL1 then ret false
    else if level2Blocks blocksInUse <=? 0 then ret true
    else
      l2 <- lift (readUint32LE i_block (13 * 4)) ;;
      safeL2 <- blocksL2AreSafe l2 (level2Blocks blocksInUse) ;;
      if negb safeL2 then ret false
      else if level3Blocks blocksInUse <=? 0 then ret true
      else
        l3 <- lift (readUint32LE i_block (14 * 4)) ;;
        blocksL3AreSafe l3 (level3Blocks blocksInUse).

Definition dataIsSafe (fuel : nat) (this : InodeInfo) : M bool :=
  let i_block := get_i_block this in
  extents <- lift (usesExtents this) ;;
  if extents then extentsAreSafe fuel i_block
  else blocksAreSafe this i_block.

End Inspector.

(** ** Inode Table Locator: the statistics parser *)

(** [s.includes(sub)] *)
Fixpoint includes (s sub : jsstring) : bool :=
  match literal sub s with
  | Some _ => true
  | None => match s with
            | [] => false
            | _ :: s' => includes s' sub
            end
  end.

(** [[^\n\r]* inode table at (\d+)] at the head of [s]: the greedy star
    gives back characters until the rest matches, so the last
    [ inode table at <digits>] of the line wins.  Returns the digits and
    what follows the match. *)
Fixpoint inodeTableAt (s : jsstring) : option (jsstring * jsstring) :=
  let here :=
    match literal (str " inode table at ") s with
    | Some r => takeSome isDigit r
    | None => None
    end in
  match s with
  | [] => here
  | c :: s' =>
      if (c =? 10) || (c =? 13) then here
      else match inodeTableAt s' with
           | Some r => Some r
           | None => here
           end
  end.

(** [Group +(\d+): [^\n\r]* inode table at (\d+)] at the head of [s]. *)
Definition groupPattern (s : jsstring)
  : option ((jsstring * jsstring) * jsstring) :=
  match literal (str "Group") s with
  | None => None
  | Some s1 =>
      match takeSome (Z.eqb 32) s1 with
      | None => None
      | Some (_, s2) =>
          match takeSome isDigit s2 with
          | None => None
          | Some (group, s3) =>
              match literal (str ": ") s3 with
              | None => None
              | Some s4 =>
                  match inodeTableAt s4 with
                  | None => None
                  | Some (block, rest) => Some ((group, block), rest)
                  end
              end
          end
      end
  end.

(** [regex.exec] of the [g] regular expression above on what is left of
    the text after the previous match: the leftmost match and the text
    after it. *)
Fixpoint groupRegex_exec (s : jsstring)
  : option ((jsstring * jsstring) * jsstring) :=
  match groupPattern s with
  | Some m => Some m
  | None => match s with
            | [] => None
            | _ :: s' => groupRegex_exec s'
            end
  end.

Fixpoint groupTable_loop (fuel : nat) (rest : jsstring) (map : gmap Z Z)
  : result (gmap Z Z) :=
  match fuel with
  | O => Ok map
  | S fuel' =>
      match groupRegex_exec rest with
      | None => Ok map
      | Some ((group, block), rest') =>
          match toNumber group, toNumber block with
          | Some group, Some block =>
              groupTable_loop fuel' rest' (<[group := 4096 * block]> map)
          | _, _ => Inexact
          end
      end
  end.

(** ** Filesystem Walker *)

Record DirEntry : Type := mkDirEntry {
  inode : Z;
  entry_name : jsstring
}.

Fixpoint jsstring_eqb (a b : jsstring) : bool :=
  match a, b with
  | [], [] => true
  | x :: a', y :: b' => (x =? y) && jsstring_eqb a' b'
  | _, _ => false
  end.

(** [\/(\d+)\/\d+\/\d+\/\d+\/([^\/]+)] at the head of [s]: the captures
    (inode digits, name) and the length of the match. *)
Definition dirEntryPattern (s : jsstring)
  : option ((jsstring * jsstring) * nat) :=
  let slashDigits (s : jsstring) : option (jsstring * jsstring) :=
    match literal (str "/") s with
    | None => None
    | Some r => takeSome isDigit r
    end in
  match slashDigits s with
  | None => None
  | Some (ino, s1) =>
      match slashDigits s1 with
      | None => None
      | Some (_, s2) =>
          match slashDigits s2 with
          | None => None
          | Some (_, s3) =>
              match slashDigits s3 with
              | None => None
              | Some (_, s4) =>
                  match literal (str "/") s4 with
                  | None => None
                  | Some s5 =>
                      match takeSome (fun c => negb (c =? 47)) s5 with
                      | None => None
                      | Some (nm, rest) =>
                          Some ((ino, nm), (length s - length rest)%nat)
                      end
                  end
              end
          end
      end
  end.

Definition dirEntryRegex_exec := execLineStart dirEntryPattern.

Fixpoint getDirEntries_loop (fuel : nat) (listing : jsstring)
    (lastIndex : nat) (entries : list DirEntry) : result (list DirEntry) :=
  match fuel with
  | O => Ok entries
  | S fuel' =>
      match dirEntryRegex_exec listing lastIndex with
      | None => Ok entries
      | Some ((ino, name), lastIndex') =>
          match toNumber ino with
          | Some inode =>
              if jsstring_eqb name (str ".") || jsstring_eqb name (str "..")
              then getDirEntries_loop fuel' listing lastIndex' entries
              else getDirEntries_loop fuel' listing lastIndex'
                     (entries ++ [mkDirEntry inode name])
          | None => Inexact
          end
      end
  end.

Definition getVisited : M (gset Z) := fun w => (Ok (inodesVisited w), w).

Definition addVisited (inode : Z) : M unit :=
  fun w => (Ok tt, mkWorld (sent w) (console w) ({[inode]} ∪ inodesVisited w)).

(** [entries.filter(cb)] and [entries.map(cb)] with a callback that has
    effects and may throw. *)
Fixpoint filterM {A} (cb : A -> M bool) (l : list A) : M (list A) :=
  match l with
  | [] => ret []
  | x :: l' =>
      keep <- cb x ;;
      rest <- filterM cb l' ;;
      ret (if keep then x :: rest else rest)
  end.

Fixpoint mapM {A B} (cb : A -> M B) (l : list A) : M (list B) :=
  match l with
  | [] => ret []
  | x :: l' =>
      y <- cb x ;;
      rest <- mapM cb l' ;;
      ret (y :: rest)
  end.

Section Walker.

Variable inspector : Cmd -> jsstring.

Definition getStartOfInodeTableByGroup : M (gmap Z Z) :=
  result <- debugfsCmd inspector stats ;;
  if negb (includes result (str "Filesystem features"))
  then lift (Throw UnexpectedResponse)
  else lift (groupTable_loop (S (length result)) result ∅).

Definition getDirEntries (inode : Z) : M (list DirEntry) :=
  listing <- debugfsCmd inspector (ls_p inode) ;;
  lift (getDirEntries_loop (S (length listing)) listing 0 []).

Variable startOfInodeTableByGroup : gmap Z Z.

(** [await Promise.all(safeEntries.map(async entry => new InodeInfo(...,
    await debugfsCmd(`id <${entry.inode}>`))))]: every callback runs up
    to its first [await], so all the commands are written, in order,
    before the first reply is looked at; the replies are then paired
    with the calls in the same order. *)
Definition fetchInodeInfos (safeEntries : list DirEntry)
  : M (list InodeInfo) :=
  mapM (fun entry => sendDebugfsCommand (id_ (inode entry))) safeEntries ;;
  mapM (fun entry =>
          match afterFirstLine (inspector (id_ (inode entry))) with
          | None => lift (Throw WeirdResponse)
          | Some hex => ret (new_InodeInfo (inode entry) (entry_name entry) hex)
          end) safeEntries.

(** The [for (const entryInfo of safeEntryInfos)] loop of [recurse];
    [self] is the recursive call. *)
Fixpoint visitEntries (self : jsstring -> InodeInfo -> M unit) (fuel : nat)
    (path : jsstring) (safeEntryInfos : list InodeInfo) : M unit :=
  match safeEntryInfos with
  | [] => ret tt
  | entryInfo :: rest =>
      visited <- getVisited ;;
      if bool_decide (id entryInfo ∈ visited)
      then visitEntries self fuel path rest
      else
        addVisited (id entryInfo) ;;
        file <- lift (isFile entryInfo) ;;
        reported <-
          (if file then
             safe <- dataIsSafe inspector fuel entryInfo ;;
             if negb safe
             then console_log (str "BAD " ++ path ++ str "/" ++ name entryInfo) ;;
                  ret true
             else ret false
           else ret false) ;;
        if (reported : bool) then visitEntries self fuel path rest
        else
          dir <- lift (isDir entryInfo) ;;
          if dir
          then self (path ++ str "/" ++ name entryInfo) entryInfo ;;
               visitEntries self fuel path rest
          else visitEntries self fuel path rest
  end.

Fixpoint recurse (fuel : nat) (path : jsstring) (inodeInfo : InodeInfo)
  : M unit :=
  match fuel with
  | O => outOfFuel
  | S fuel' =>
      safe <- dataIsSafe inspector fuel inodeInfo ;;
      if negb safe
      then console_log (str "BAD " ++ nullish (Some path) (str "/"))
      else
        entries <- getDirEntries (id inodeInfo) ;;
        safeEntries <-
          filterM (fun entry =>
                     safe <- lift (inodeIsSafe startOfInodeTableByGroup
                                     (inode entry)) ;;
                     (if negb safe
                      then console_log (str "BAD " ++ path ++ str "/"
                                        ++ entry_name entry)
                      else ret tt) ;;
                     ret safe) entries ;;
        safeEntryInfos <- fetchInodeInfos safeEntries ;;
        visitEntries (recurse fuel') fuel path safeEntryInfos
  end.

End Walker.

(** [main].  The device is [process.argv[2]], which is [undefined]
    ([None]) or a string; [!device] holds of [undefined] and of the empty
    string.  [statSync] gives the outcome of [fs.statSync] on a path.
    The inspector stands for the session [openDebugfs] opens on the
    device. *)
Definition main (statSync : jsstring -> result unit)
    (inspector : Cmd -> jsstring) (fuel : nat) (argv2 : option jsstring)
  : M unit :=
  match argv2 with
  | None | Some [] => lift (Throw NoDeviceArgument)
  | Some device =>
      lift (statSync device) ;;
      console_log (str "Reading " ++ device) ;;
      startOfInodeTableByGroup <- getStartOfInodeTableByGroup inspector ;;
      hex <- debugfsCmd inspector (id_ ROOT_DIR_INODE) ;;
      let rootDirInfo := new_InodeInfo ROOT_DIR_INODE (str "") hex in
      recurse inspector startOfInodeTableByGroup fuel (str "") rootDirInfo
  end.

Definition world0 : World := mkWorld [] [] ∅.

(** ** Session Multiplexer ([expect]) *)

(** [s.indexOf(prompt)]; [None] is -1. *)
Fixpoint indexOf (s prompt : jsstring) : option nat :=
  match literal prompt s with
  | Some _ => Some O
  | None => match s with
            | [] => None
            | _ :: s' => option_map S (indexOf s' prompt)
            end
  end.

Module Expect.

(** The closure of [expect]: its four variables, whether its listeners
    are still attached to the stream, and the promises [next] has
    returned.  The [n]-th call of [next] (from 0) returns promise [n];
    [settled] lists the promises that were resolved ([Ok]) or rejected
    ([Throw]), oldest settlement first; [promiseResolvers] holds the
    promises that are still pending, oldest first. *)
Record t : Type := mk {
  found : list jsstring;
  sinceLastMatch : jsstring;
  streamError : option exn;
  promiseResolvers : list nat;
  listening : bool;
  calls : nat;
  settled : list (nat * result jsstring)
}.

(** What can happen to the closure: the three stream events and the two
    methods. *)
Inductive event : Type :=
| data (chunk : jsstring)
| error (err : exn)
| end_
| next
| dispose.

Definition init : t := mk [] [] None [] true 0 [].

(** [promiseResolvers.forEach(({ reject }) => reject(err));
    promiseResolvers.splice(0, promiseResolvers.length)] with
    [streamError = err] set before. *)
Definition rejectAll (err : exn) (st : t) : t :=
  mk (found st) (sinceLastMatch st) (Some err) [] (listening st) (calls st)
     (settled st ++ map (fun p => (p, Throw err)) (promiseResolvers st)).

Section WithPrompt.

Variable prompt : jsstring.

(** The [while] loop of [lookForPrompt].  With a prompt that is not
    empty every round shortens [sinceLastMatch], so
    [S (length sinceLastMatch)] rounds are never used up. *)
Fixpoint lookForPrompt_loop (fuel : nat) (st : t) : t :=
  match fuel with
  | O => st
  | S fuel' =>
      match indexOf (sinceLastMatch st) prompt with
      | None => st
      | Some index =>
          let match_ := firstn index (sinceLastMatch st) in
          let rest := skipn (index + length prompt) (sinceLastMatch st) in
          match promiseResolvers st with
          | p :: resolvers =>
              lookForPrompt_loop fuel'
                (mk (found st) rest (streamError st) resolvers
                    (listening st) (calls st)
                    (settled st ++ [(p, Ok match_)]))
          | [] =>
              lookForPrompt_loop fuel'
                (mk (found st ++ [match_]) rest (streamError st) []
                    (listening st) (calls st) (settled st))
          end
      end
  end.

Definition lookForPrompt (st : t) : t :=
  lookForPrompt_loop (S (length (sinceLastMatch st))) st.

(** The stream is taken after [StringDecoder]: a chunk is the text it
    decodes to. *)
Definition onData (chunk : jsstring) (st : t) : t :=
  lookForPrompt
    (mk (found st) (sinceLastMatch st ++ chunk) (streamError st)
        (promiseResolvers st) (listening st) (calls st) (settled st)).

Definition onError (err : exn) (st : t) : t := rejectAll err st.

Definition onEnd (st : t) : t := rejectAll StreamEnded st.

(** [next()]: the promise it returns is number [calls st]. *)
Definition do_next (st : t) : t :=
  let p := calls st in
  match found st with
  | r :: found' =>
      mk found' (sinceLastMatch st) (streamError st) (promiseResolvers st)
         (listening st) (S p) (settled st ++ [(p, Ok r)])
  | [] =>
      match streamError st with
      | Some err =>
          mk [] (sinceLastMatch st) (streamError st) (promiseResolvers st)
             (listening st) (S p) (settled st ++ [(p, Throw err)])
      | None =>
          mk [] (sinceLastMatch st) None (promiseResolvers st ++ [p])
             (listening st) (S p) (settled st)
      end
  end.

(** [dispose()]: [stream.off] for the three listeners, then the
    rejection of what is pending. *)
Definition do_dispose (st : t) : t :=
  rejectAll ExpectDisposed
    (mk (found st) (sinceLastMatch st) (streamError st)
        (promiseResolvers st) false (calls st) (settled st)).

(** A stream event reaches the closure only while its listener is
    attached. *)
Definition step (st : t) (ev : event) : t :=
  match ev with
  | data chunk => if listening st then onData chunk st else st
  | error err => if listening st then onError err st else st
  | end_ => if listening st then onEnd st else st
  | next => do_next st
  | dispose => do_dispose st
  end.

Definition run (st : t) (evs : list event) : t := fold_left step evs st.

(** The responses a text holds: what precedes each occurrence of the
    prompt, found from the left, and the text after the last one. *)
Fixpoint responses_loop (fuel : nat) (text : jsstring)
  : list jsstring * jsstring :=
  match fuel with
  | O => ([], text)
  | S fuel' =>
      match indexOf text prompt with
      | None => ([], text)
      | Some index =>
          let '(rs, rest) :=
            responses_loop fuel' (skipn (index + length prompt) text) in
          (firstn index text :: rs, rest)
      end
  end.

Definition responses (text : jsstring) : list jsstring :=
  fst (responses_loop (S (length text)) text).

End WithPrompt.

(** The text a run of events delivers, and the number of its calls of
    [next]. *)
Fixpoint received (evs : list event) : jsstring :=
  match evs with
  | [] => []
  | data chunk :: evs' => chunk ++ received evs'
  | _ :: evs' => received evs'
  end.

Fixpoint callCount (evs : list event) : nat :=
  match evs with
  | [] => O
  | next :: evs' => S (callCount evs')
  | _ :: evs' => callCount evs'
  end.

(** Runs without stream failure and without [dispose]. *)
Definition quiet (ev : event) : bool :=
  match ev with
  | data _ | next => true
  | _ => false
  end.

End Expect.

(** ** Concrete inputs and specification-level notions *)

(** A sparse regular file: 8192 bytes long ([i_size_lo], offset 0x04)
    with a single allocated block, that is 8 sectors of 512 bytes
    ([i_blocks_lo], offset 0x1C). *)
Definition sparseInode : InodeInfo :=
  mkInodeInfo 12 (str "sparse")
    (<[0x01%nat := 0x81]> (<[0x05%nat := 0x20]> (<[0x1C%nat := 8]> (Buffer_alloc 256)))).

(** The sentence of the specification on [blockCountInUse]: the ceiling
    of the inode's count of 512-byte sectors over the number of sectors
    in a filesystem block of 4096 bytes. *)
Definition blocksInUse_spec (this : InodeInfo) : result Z :=
  result_bind (readUint32LE (buf this) 0x1C)
    (fun sectors => Ok (ceilDiv sectors (4096 / 512))).

(** The 32-bit little-endian field at offset 0x04 of an inode record: the
    low half of the file size in bytes. *)
Definition i_size_lo (b : Buffer) : Z :=
  byteAt b 4 + 256 * byteAt b 5 + 65536 * byteAt b 6 + 16777216 * byteAt b 7.

Definition twoGroups : gmap Z Z := {[ 0 := 4096 * 1059; 1 := 4096 * 33827 ]}.

(** The reply to [id <2>] for a root directory whose first block lies in
    the first damaged range: the echoed command, two lines of dump and a
    line that is not one. *)
Definition nl : jsstring := [10].

Definition badRootReply : jsstring :=
  str "debugfs: id <2>" ++ nl
  ++ str "0000  ed41 0000 0010 0000 1a2b 3c4d 5e6f 0000" ++ nl
  ++ str "*" ++ nl
  ++ str "0040  0000 0000 0000 0000 54ad 3b02 0000 0000" ++ nl.

(** The world after [cmds] more commands were written to the inspector. *)
Definition withSent (cmds : list Cmd) (w : World) : World :=
  mkWorld (sent w ++ cmds) (console w) (inodesVisited w).

(** The extent resolution as the specification words it.
    [NodeVerdict buf safe cmds]: the node held in [buf] is [safe] (or
    not), and deciding so fetches the child blocks [cmds], in this
    order.  A node is safe when all its entries are; the entries are
    taken in their order and the first unsafe one settles the node.  A
    leaf entry is unsafe when its run of blocks overlaps the Bad-Region
    Index; an entry of an internal node is resolved by fetching the
    child block it names and resolving that node. *)
Section ExtentSpec.

Variable inspector : Cmd -> jsstring.

Inductive NodeVerdict : Buffer -> bool -> list Cmd -> Prop :=
| NV_node buf entryCount depth safe cmds :
    readUint16LE buf 0x02 = Ok entryCount ->
    readUint16LE buf 0x06 = Ok depth ->
    EntriesVerdict buf (depth =? 0) (Z.to_nat entryCount) 0 safe cmds ->
    NodeVerdict buf safe cmds
with EntriesVerdict : Buffer -> bool -> nat -> nat -> bool -> list Cmd -> Prop :=
| EV_done buf leaf i :
    EntriesVerdict buf leaf 0 i true []
| EV_leaf_unsafe buf count i firstBlock blockCount :
    readUint32LE buf (12 * (i + 1) + 0x08) = Ok firstBlock ->
    readUint16LE buf (12 * (i + 1) + 0x04) = Ok blockCount ->
    overlaps (firstBlock * 4096) ((firstBlock + blockCount) * 4096) = true ->
    EntriesVerdict buf true (S count) i false []
| EV_leaf_safe buf count i firstBlock blockCount safe cmds :
    readUint32LE buf (12 * (i + 1) + 0x08) = Ok firstBlock ->
    readUint16LE buf (12 * (i + 1) + 0x04) = Ok blockCount ->
    overlaps (firstBlock * 4096) ((firstBlock + blockCount) * 4096) = false ->
    EntriesVerdict buf true count (S i) safe cmds ->
    EntriesVerdict buf true (S count) i safe cmds
| EV_child_unsafe buf count i child hex cmds :
    readUint32LE buf (12 * (i + 1) + 0x04) = Ok child ->
    afterFirstLine (inspector (bd child)) = Some hex ->
    NodeVerdict (parseHex 4096 hex) false cmds ->
    EntriesVerdict buf false (S count) i false (bd child :: cmds)
| EV_child_safe buf count i child hex cmds safe cmds' :
    readUint32LE buf (12 * (i + 1) + 0x04) = Ok child ->
    afterFirstLine (inspector (bd child)) = Some hex ->
    NodeVerdict (parseHex 4096 hex) true cmds ->
    EntriesVerdict buf false count (S i) safe cmds' ->
    EntriesVerdict buf false (S count) i safe (bd child :: cmds ++ cmds').

End ExtentSpec.

Scheme NodeVerdict_mut := Minimality for NodeVerdict Sort Prop
  with EntriesVerdict_mut := Minimality for EntriesVerdict Sort Prop.

(** An inspector that answers every command with the bare echo line. *)
Definition silentInspector (cmd : Cmd) : jsstring := str "debugfs: " ++ nl.

(** An extent leaf in a 60-byte [i_block]: the header (magic 0xF30A, one
    entry of at most four, depth 0) and the entry "logical block 0,
    2 blocks, from physical block 10". *)
Definition oneExtentLeaf : Buffer :=
  [0x0A; 0xF3; 1; 0; 4; 0; 0; 0; 0; 0; 0; 0;
   0; 0; 0; 0; 2; 0; 0; 0; 10; 0; 0; 0]
  ++ repeat 0 36.

(** The [i]-th 32-bit little-endian pointer of a block. *)
Definition pointerAt (b : Buffer) (i : nat) : Z :=
  byteAt b (i * 4) + 256 * byteAt b (i * 4 + 1)
  + 65536 * byteAt b (i * 4 + 2) + 16777216 * byteAt b (i * 4 + 3).

(** [f 0 + ... + f (n - 1)] *)
Fixpoint sumTo (f : nat -> Z) (n : nat) : Z :=
  match n with
  | O => 0
  | S n' => sumTo f n' + f n'
  end.

(** A regular file of 13 blocks (53248 bytes) without the extents flag;
    all its block pointers are zero. *)
Definition thirteenBlocks : InodeInfo :=
  mkInodeInfo 13 (str "f")
    (<[0x01%nat := 0x81]> (<[0x05%nat := 0xD0]> (Buffer_alloc 256))).

(** The classic resolution as the specification words it.  A walk gives
    a verdict, or throws, and fetches blocks in an order. *)
Definition Walk : Type := result bool * list Cmd.

(** A computation performs a walk: whatever the world it starts in, it
    ends as the walk does, has written the fetches of the walk and has
    changed nothing else. *)
Definition performs (c : M bool) (walk : Walk) : Prop :=
  forall w, c w = (fst walk, withSent (snd walk) w).

(** Entries are consulted in their order.  The first one that is not
    safe (or throws) settles the walk, and no entry after it is
    consulted. *)
Fixpoint inOrder (entries : list Walk) : Walk :=
  match entries with
  | [] => (Ok true, [])
  | (Ok true, cmds) :: rest =>
      let '(verdict, cmds') := inOrder rest in (verdict, cmds ++ cmds')
  | entry :: _ => entry
  end.

Section SpecClassic.

Variable inspector : Cmd -> jsstring.

(** [specIndirect level blockNum need]: the indirect block [blockNum] is
    resolved for the [need] blocks that are still needed; [level] is 0
    for a single-, 1 for a double- and 2 for a triple-indirect block.
    The block is fetched; it has 1024 entries, and an entry covers
    [1024 ^ level] blocks.  Entry [i] is consulted when blocks are still
    needed after the entries before it, that is when
    [1024 ^ level * i < need].  Its block number is tested.  In a
    single-indirect block this is the number of a data block; in a
    higher block it names an indirect block of the level below, which
    is resolved for the blocks needed of this entry: those still needed
    after the entries before it, and no more than the entry covers. *)
Fixpoint specIndirect (level : nat) (blockNum need : Z) : Walk :=
  match afterFirstLine (inspector (bd blockNum)) with
  | None => (Throw WeirdResponse, [bd blockNum])
  | Some hex =>
      let block := parseHex 4096 hex in
      let covers := 1024 ^ Z.of_nat level in
      let entry (i : nat) : Walk :=
        let pointer := pointerAt block i in
        let needed := Z.min covers (need - covers * Z.of_nat i) in
        if negb (blockIsSafe pointer) then (Ok false, [])
        else match level with
             | O => (Ok true, [])
             | S below => specIndirect below pointer needed
             end in
      let consulted :=
        List.filter (fun i => covers * Z.of_nat i <? need) (seq 0 1024) in
      let '(verdict, cmds) := inOrder (map entry consulted) in
      (verdict, bd blockNum :: cmds)
  end.

(** The classic resolution of an inode that has [blocksInUse] blocks.
    The direct pointers [i_block[0..11]] are tested as far as blocks are
    needed.  Then the single-, the double- and the triple-indirect block
    ([i_block[12]], [i_block[13]], [i_block[14]]) are resolved in turn,
    each only when blocks are still needed after what comes before it
    ([before] blocks: those of the direct pointers and of the levels
    before it), and for no more than the blocks still needed and its
    cap of 1024, 1024^2 or 1024^3 blocks. *)
Definition specLevel (i_block : Buffer) (blocksInUse : Z) (level : nat)
    (before : Z) : Walk :=
  let stillNeeded := blocksInUse - before in
  if 0 <? stillNeeded
  then specIndirect level (pointerAt i_block (12 + level))
         (Z.min (1024 ^ Z.of_nat (S level)) stillNeeded)
  else (Ok true, []).

Definition specClassic (i_block : Buffer) (blocksInUse : Z) : Walk :=
  let direct (i : nat) : Walk :=
    (Ok (blockIsSafe (pointerAt i_block i)), []) in
  inOrder
    (map direct
       (List.filter (fun i => Z.of_nat i <? blocksInUse) (seq 0 12))
     ++ [specLevel i_block blocksInUse 0 12;
         specLevel i_block blocksInUse 1 (12 + 1024);
         specLevel i_block blocksInUse 2 (12 + 1024 + 1024 ^ 2)]).

End SpecClassic.

(** The device name used in the scenarios. *)
Definition device : jsstring := str "/dev/sdb1".

(** A file system in which this device exists, and nothing else. *)
Definition deviceExists (path : jsstring) : result unit :=
  if jsstring_eqb path device then Ok tt else Throw ENOENT.

Definition statsReply : jsstring :=
  str "debugfs: stats" ++ nl
  ++ str "Filesystem volume name:   <none>" ++ nl
  ++ str "Filesystem features:      has_journal ext_attr filetype" ++ nl
  ++ str " Group  0: block bitmap at 1025, inode bitmap at 1041, inode table at 1057" ++ nl.

(** A filesystem whose root directory has its only block inside the
    first damaged range. *)
Definition badRootInspector (cmd : Cmd) : jsstring :=
  match cmd with
  | stats => statsReply
  | id_ 2 => badRootReply
  | _ => silentInspector cmd
  end.

(** A filesystem with an undamaged root directory that holds a symbolic
    link (inode 12, mode 0xA1FF) whose only block lies inside the first
    damaged range, and a block device node (inode 13, mode 0x61B0). *)
Definition goodRootReply : jsstring :=
  str "debugfs: id <2>" ++ nl
  ++ str "0000  ed41 0000 0010 0000 1a2b 3c4d 5e6f 0000" ++ nl
  ++ str "0040  0000 0000 0000 0000 0005 0000 0000 0000" ++ nl.

Definition symlinkReply : jsstring :=
  str "debugfs: id <12>" ++ nl
  ++ str "0000  ffa1 0000 6400 0000 1a2b 3c4d 5e6f 0000" ++ nl
  ++ str "0040  0000 0000 0000 0000 54ad 3b02 0000 0000" ++ nl.

Definition blockDeviceReply : jsstring :=
  str "debugfs: id <13>" ++ nl
  ++ str "0000  b061 0000 0000 0000 1a2b 3c4d 5e6f 0000" ++ nl
  ++ str "0040  0000 0000 0000 0000 0108 0000 0000 0000" ++ nl.

Definition rootListing : jsstring :=
  str "debugfs: ls -p <2>" ++ nl
  ++ str "/2/040755/0/0/.//" ++ nl
  ++ str "/2/040755/0/0/..//" ++ nl
  ++ str "/12/120777/0/0/lnk//" ++ nl
  ++ str "/13/060660/0/0/sda//" ++ nl.

Definition specialFilesInspector (cmd : Cmd) : jsstring :=
  match cmd with
  | stats => statsReply
  | id_ 2 => goodRootReply
  | ls_p 2 => rootListing
  | id_ 12 => symlinkReply
  | id_ 13 => blockDeviceReply
  | _ => silentInspector cmd
  end.

(** The file type of an inode mode: [S_IFMT] and the types the walker is
    to ignore in the scenario. *)
Definition S_IFMT : Z := 0xF000.
Definition S_IFLNK : Z := 0xA000.
Definition S_IFBLK : Z := 0x6000.

(** The inode records of the symbolic link and of the block device node
    as the walker decodes them. *)
Definition symlinkInfo : InodeInfo :=
  match afterFirstLine symlinkReply with
  | Some hex => new_InodeInfo 12 (str "lnk") hex
  | None => mkInodeInfo 12 (str "lnk") []
  end.

Definition blockDeviceInfo : InodeInfo :=
  match afterFirstLine blockDeviceReply with
  | Some hex => new_InodeInfo 13 (str "sda") hex
  | None => mkInodeInfo 13 (str "sda") []
  end.

(** The file type bits of a decoded inode. *)
Definition fileType (this : InodeInfo) : result Z :=
  result_bind (readUint16LE (buf this) 0)
    (fun mode => Ok (Z.land mode S_IFMT)).

(** The prompt of the inspector. *)
Definition debugfsPrompt : jsstring := str "debugfs:".

(** What the [j]-th call of [next] after [dispose] gets when [found] was
    buffered at the time of [dispose]. *)
Definition afterDispose (found : list jsstring) (j : nat) : result jsstring :=
  match found !! j with
  | Some r => Ok r
  | None => Throw ExpectDisposed
  end.

(** A closure that was disposed of. *)
Definition disposed (st : Expect.t) : Prop :=
  Expect.listening st = false
  /\ Expect.streamError st = Some ExpectDisposed
  /\ Expect.promiseResolvers st = [].

(** A configured range meets the interval [[start, end_)]. *)
Definition intersects (r : Range.t) (start end_ : Z) : Prop :=
  end_ > Range.start r /\ start < Range.start r + Range.length r.

(** A line of the dump that the decoder reads: position [i] of the text
    starts a line, and the pattern matches there with offset [start]. *)
Definition dumpLineAt (hex : jsstring) (i : nat) (start : Z)
    (ws : list jsstring) : Prop :=
  (i <= length hex)%nat
  /\ startsLine hex i = true
  /\ exists offset, parseHexPattern (skipn i hex) = Some ((offset, ws), 45%nat)
                    /\ parseInt offset 8 = Some start.

(** Byte position [p] lies in the 16 bytes that some line of the dump
    describes. *)
Definition coveredBy (hex : jsstring) (p : nat) : Prop :=
  exists i start ws, dumpLineAt hex i start ws
                     /\ start <= Z.of_nat p < start + 16.

(** A filesystem whose inode table lies inside the first damaged range,
    so that the root directory's own inode record is damaged, while the
    root directory's block is not. *)
Definition badTableStatsReply : jsstring :=
  str "debugfs: stats" ++ nl
  ++ str "Filesystem features:      has_journal ext_attr filetype" ++ nl
  ++ str " Group  0: block bitmap at 1025, inode bitmap at 1041, inode table at 37465428" ++ nl.

Definition badTableInspector (cmd : Cmd) : jsstring :=
  match cmd with
  | stats => badTableStatsReply
  | _ => specialFilesInspector cmd
  end.

(** The verdict on the [i]-th run of an extent leaf, [false] when the
    entry does not lie inside the buffer. *)
Definition leafRunSafe (b : Buffer) (i : nat) : bool :=
  match readUint32LE b (12 * (i + 1) + 0x08),
        readUint16LE b (12 * (i + 1) + 0x04) with
  | Ok firstBlockNum, Ok blockCount =>
      rangeIsSafe (firstBlockNum * 4096) ((firstBlockNum + blockCount) * 4096)
  | _, _ => false
  end.

(** An extent leaf header in a 60-byte [i_block] that announces six
    entries, all zero. *)
Definition sixEntryLeaf : Buffer :=
  [0x0A; 0xF3; 6; 0; 4; 0; 0; 0; 0; 0; 0; 0] ++ repeat 0 48.

(** A directory entry as the walker expects it: a name that is not empty,
    holds no slash and is neither [.] nor [..], and an inode number that
    is not negative. *)
Definition wellFormedEntry (e : DirEntry) : Prop :=
  entry_name e <> []
  /\ ~ In 47 (entry_name e)
  /\ entry_name e <> str "."
  /\ entry_name e <> str ".."
  /\ 0 <= inode e.

(** A listing with a name that holds a line feed, and entries for [.]
    and [..]. *)
Definition oddListing : jsstring :=
  str "debugfs: ls -p <2>" ++ nl
  ++ str "/2/040755/0/0/.//" ++ nl
  ++ str "/2/040755/0/0/..//" ++ nl
  ++ str "/14/100644/0/0/two" ++ nl ++ str "lines/5/" ++ nl.

Definition oddListingInspector (cmd : Cmd) : jsstring :=
  match cmd with
  | ls_p 2 => oddListing
  | _ => silentInspector cmd
  end.

(** An inspector whose statistics lack the features banner. *)
Definition noBannerInspector (cmd : Cmd) : jsstring :=
  match cmd with
  | stats => str "debugfs: stats" ++ nl ++ str "stats: Filesystem not open" ++ nl
  | _ => silentInspector cmd
  end.

(** An inspector that answers without any line feed. *)
Definition noLineInspector (cmd : Cmd) : jsstring := str "debugfs: ".

(** A computation keeps a relation between the world it starts in and
    the world it ends in, whatever its outcome. *)
Definition keeps {A} (R : World -> World -> Prop) (c : M A) : Prop :=
  forall w, R w (snd (c w)).

(** A report for [path] or for something below it: a text passed to
    [console.log] that starts with [BAD ] and the path.  (What follows
    the path may hold a line feed, when a name does.) *)
Definition reports (path text : jsstring) : Prop :=
  exists rest, text = str "BAD " ++ path ++ rest.

(** What a walk below [path] does to the world: commands are added to
    the commands sent, inodes to the visited set, and reports for
    [path] to the texts logged; nothing is taken away. *)
Definition walks (path : jsstring) (w w' : World) : Prop :=
  (exists cmds, sent w' = sent w ++ cmds)
  /\ inodesVisited w ⊆ inodesVisited w'
  /\ exists texts, console w' = console w ++ texts
                   /\ Forall (reports path) texts.

(** Code that only fetches blocks: it sends block-dump commands and
    touches neither the texts logged nor the visited set. *)
Definition onlyFetchesBlocks (w w' : World) : Prop :=
  exists blocks, w' = withSent (map bd blocks) w.

Definition isBlockDump (cmd : Cmd) : Prop :=
  match cmd with
  | bd _ => True
  | _ => False
  end.

(** The inode record the walker builds for an entry from the reply to
    its [id] command. *)
Definition decodeEntry (inspector : Cmd -> jsstring) (entry : DirEntry)
  : InodeInfo :=
  new_InodeInfo (inode entry) (entry_name entry)
    (default [] (afterFirstLine (inspector (id_ (inode entry))))).

(** The reply to the [id] command of an entry has a line feed. *)
Definition hasReply (inspector : Cmd -> jsstring) (entry : DirEntry) : bool :=
  match afterFirstLine (inspector (id_ (inode entry))) with
  | Some _ => true
  | None => false
  end.

(** The storage of the entry's inode record is known and undamaged. *)
Definition recordSafe (table : gmap Z Z) (entry : DirEntry) : bool :=
  match inodeIsSafe table (inode entry) with
  | Ok safe => safe
  | _ => false
  end.

(** The world with more texts logged. *)
Definition withConsole (lines : list jsstring) (w : World) : World :=
  mkWorld (sent w) (console w ++ lines) (inodesVisited w).

(** A character device node (mode 0x21B0), as the walker decodes it. *)
Definition charDeviceInfo : InodeInfo :=
  mkInodeInfo 15 (str "tty")
    (<[0x00%nat := 0xB0]> (<[0x01%nat := 0x21]> (Buffer_alloc 256))).

(** What the [j]-th call of [next] gets after the stream has failed with
    [err], when [found] was buffered at that time and nothing arrives
    any more. *)
Definition afterFailure (err : exn) (found : list jsstring) (j : nat)
  : result jsstring :=
  match found !! j with
  | Some r => Ok r
  | None => Throw err
  end.

(** The text the inspector writes for the replies [rs]: each reply is
    followed by the prompt. *)
Definition joinReplies (prompt : jsstring) (rs : list jsstring) : jsstring :=
  concat (map (fun r => r ++ prompt) rs).

(** A reply in which the prompt occurs neither inside nor across its
    end. *)
Definition promptFree (prompt r : jsstring) : Prop :=
  indexOf (r ++ prompt) prompt = Some (length r).

(** The calls made so far, as the closure accounts for them. *)
Definition accounted (st : Expect.t) : list nat :=
  map fst (Expect.settled st) ++ Expect.promiseResolvers st.

(** Never a buffered response and a pending call at once; never a
    pending call once the stream has failed or the closure was disposed
    of. *)
Definition settlesEagerly (st : Expect.t) : Prop :=
  (Expect.found st <> [] -> Expect.promiseResolvers st = [])
  /\ (Expect.streamError st <> None -> Expect.promiseResolvers st = []).

(** The dump format the decoder reads, written the other way round: a
    line holds the offset as four octal digits, two spaces, and the 16
    bytes as eight words of four lower-case hexadecimal digits separated
    by single spaces; a dump is the lines for successive offsets, each
    ended by a line feed. *)
Definition hexDigit (d : Z) : Z := if d <? 10 then 48 + d else 87 + d.

Definition hexByte (b : Z) : jsstring :=
  [hexDigit (b / 16); hexDigit (b mod 16)].

Definition octal4 (n : Z) : jsstring :=
  [48 + n / 512 mod 8; 48 + n / 64 mod 8; 48 + n / 8 mod 8; 48 + n mod 8].

Fixpoint hexWordsOf (bytes : list Z) : list jsstring :=
  match bytes with
  | b0 :: b1 :: rest => (hexByte b0 ++ hexByte b1) :: hexWordsOf rest
  | _ => []
  end.

Definition dumpLine (offset : Z) (bytes : list Z) : jsstring :=
  octal4 offset ++ [32] ++ concat (map (fun w => 32 :: w) (hexWordsOf bytes)).

Fixpoint dumpFrom (offset : Z) (chunks : list (list Z)) : jsstring :=
  match chunks with
  | [] => []
  | c :: cs => dumpLine offset c ++ [10] ++ dumpFrom (offset + 16) cs
  end.

(** Sixteen octets. *)
Definition isChunk (c : list Z) : Prop := length c = 16%nat /\ octets c.

(** Where the search stands between two lines of a dump: at the very
    start of the text, or behind a line, in front of the line feed that
    ends it. *)
Definition betweenLines (pre sep : jsstring) : Prop :=
  (pre = [] /\ sep = [])
  \/ (exists body ch, pre = body ++ [ch] /\ isLineTerminator ch = false
                      /\ sep = [10]).

(** Two chunks of a dump: the start of a directory's inode record. *)
Definition dumpedChunks : list (list Z) :=
  [ [237; 65; 0; 0; 0; 16; 0; 0; 1; 2; 3; 4; 5; 6; 7; 8];
    [9; 10; 11; 12; 0; 0; 0; 0; 0; 0; 2; 0; 8; 0; 0; 0] ].

(** The classic block map of ext2, read through the inspector's dumps:
    the block an index block is dumped as, the number of the [k]-th data
    block of a file (directly in the inode, under the single-indirect
    block [i_block[12]], or under the double-indirect block
    [i_block[13]]), and the number of the single-indirect block that
    holds it in the last case. *)
Definition dumpOf (inspector : Cmd -> jsstring) (blockNum : Z) : Buffer :=
  match afterFirstLine (inspector (bd blockNum)) with
  | Some hex => parseHex 4096 hex
  | None => Buffer_alloc 4096
  end.

Definition indexBlockOf (inspector : Cmd -> jsstring) (i_block : Buffer)
    (k : nat) : Z :=
  pointerAt (dumpOf inspector (pointerAt i_block 13)) ((k - 1036) / 1024).

Definition blockOfFile (inspector : Cmd -> jsstring) (i_block : Buffer)
    (k : nat) : Z :=
  if (k <? 12)%nat then pointerAt i_block k
  else if (k <? 1036)%nat
       then pointerAt (dumpOf inspector (pointerAt i_block 12)) (k - 12)
       else pointerAt (dumpOf inspector (indexBlockOf inspector i_block k))
              ((k - 1036) mod 1024).

(** A regular file of 1037 blocks (0x40D000 bytes) without the extents
    flag, one block beyond the reach of the single-indirect block; all
    its block pointers are zero. *)
Definition doubleIndirectFile : InodeInfo :=
  mkInodeInfo 14 (str "big")
    (<[0x01%nat := 0x81]>
       (<[0x05%nat := 0xD0]> (<[0x06%nat := 0x40]> (Buffer_alloc 256)))).

(** A group line of the statistics as the code reads it: [Group], one or
    more spaces, the group number, a colon and a space, any text without
    a line break, [ inode table at ], the block number, the end of the
    line, and then [gl_tail], the lines that follow up to the next group
    line. *)
Record GroupLine : Type := mkGroupLine {
  gl_pad : nat;
  gl_group : jsstring;
  gl_fill : jsstring;
  gl_table : jsstring;
  gl_tail : jsstring
}.

Definition groupLineText (l : GroupLine) : jsstring :=
  str "Group" ++ repeat 32 (S (gl_pad l)) ++ gl_group l ++ str ": "
  ++ gl_fill l ++ str " inode table at " ++ gl_table l
  ++ [10] ++ gl_tail l.

(** A numeral: one or more decimal digits. *)
Definition numeral (s : jsstring) : Prop :=
  s <> [] /\ Forall (fun c => isDigit c = true) s.

(** Text without the letter [G]: no group line starts in it. *)
Definition noG (s : jsstring) : Prop := Forall (fun c => c <> 71) s.

(** The numbers of a well-formed line are in the range in which the
    arithmetic on them is exact (up to 2^53). *)
Definition wellFormedGroupLine (l : GroupLine) : Prop :=
  numeral (gl_group l) /\ numeral (gl_table l)
  /\ decimalValue (gl_group l) <= 2 ^ 53
  /\ 4096 * decimalValue (gl_table l) <= 2 ^ 53
  /\ Forall (fun c => c <> 10 /\ c <> 13) (gl_fill l)
  /\ noG (gl_tail l).

(** The statistics of the scenarios, taken apart. *)
Definition statsHeader : jsstring :=
  str "Filesystem volume name:   <none>" ++ nl
  ++ str "Filesystem features:      has_journal ext_attr filetype" ++ nl
  ++ str " ".

Definition statsGroupLine : GroupLine :=
  mkGroupLine 1 (str "0")
    (str "block bitmap at 1025, inode bitmap at 1041,") (str "1057") [].

(** The table the group lines describe: a later line for a group
    replaces an earlier one. *)
Definition tableOfLines (ls : list GroupLine) : gmap Z Z :=
  fold_left (fun m l => <[decimalValue (gl_group l)
                          := 4096 * decimalValue (gl_table l)]> m) ls ∅.

(** A line of a directory listing as [ls -p] prints it:
    [/inode/mode/uid/gid/name/] and the rest of the line. *)
Record ListingLine : Type := mkListingLine {
  ll_inode : jsstring;
  ll_mode : jsstring;
  ll_uid : jsstring;
  ll_gid : jsstring;
  ll_name : jsstring;
  ll_rest : jsstring
}.

Definition listingLineText (l : ListingLine) : jsstring :=
  str "/" ++ ll_inode l ++ str "/" ++ ll_mode l ++ str "/" ++ ll_uid l
  ++ str "/" ++ ll_gid l ++ str "/" ++ ll_name l
  ++ str "/" ++ ll_rest l ++ [10].

(** The four numbers are numerals, the inode number in the range in
    which numbers are exact; the name holds no slash and does not end
    with a line terminator (so it is not empty); the rest of the line
    holds no line terminator. *)
Definition wellFormedListingLine (l : ListingLine) : Prop :=
  numeral (ll_inode l) /\ numeral (ll_mode l)
  /\ numeral (ll_uid l) /\ numeral (ll_gid l)
  /\ decimalValue (ll_inode l) <= 2 ^ 53
  /\ ~ In 47 (ll_name l)
  /\ (exists body ch, ll_name l = body ++ [ch]
                      /\ isLineTerminator ch = false)
  /\ Forall (fun c => isLineTerminator c = false) (ll_rest l).

(** The entries a listing describes: its lines in order, without those
    for [.] and [..]. *)
Definition entriesOfListing (ls : list ListingLine) : list DirEntry :=
  map (fun l => mkDirEntry (decimalValue (ll_inode l)) (ll_name l))
    (List.filter
       (fun l => negb (jsstring_eqb (ll_name l) (str ".")
                       || jsstring_eqb (ll_name l) (str "..")))
       ls).

(** Where the search for the next line stands: at the very start of the
    text, or behind a match that does not end with a line terminator,
    in front of the rest [sep] of its line. *)
Definition behindMatch (pre sep : jsstring) : Prop :=
  (pre = [] /\ sep = [])
  \/ (exists body ch mid,
         pre = body ++ [ch] /\ isLineTerminator ch = false
         /\ sep = mid ++ [10]
         /\ Forall (fun c => isLineTerminator c = false) mid).

(** The directory listing of the scenarios, taken apart. *)
Definition oddListingLines : list ListingLine :=
  [ mkListingLine (str "2") (str "040755") (str "0") (str "0") (str ".")
      (str "/");
    mkListingLine (str "2") (str "040755") (str "0") (str "0") (str "..")
      (str "/");
    mkListingLine (str "14") (str "100644") (str "0") (str "0")
      (str "two" ++ nl ++ str "lines") (str "5/") ].

(** * Properties *)

(** ** Arithmetic *)

Lemma ceilDiv_spec a b :
  0 < b -> b * (ceilDiv a b - 1) < a <= b * ceilDiv a b.
Proof.
  intros Hb. unfold ceilDiv.
  pose proof (Z.div_mod (- a) b ltac:(lia)) as Hdm.
  pose proof (Z.mod_pos_bound (- a) b Hb) as Hm.
  nia.
Qed.

Lemma ceilDiv_unique a b n :
  0 < b -> b * (n - 1) < a <= b * n -> ceilDiv a b = n.
Proof.
  intros Hb Hn. pose proof (ceilDiv_spec a b Hb) as Hc. nia.
Qed.

(** ** Bad-Region Index *)

Lemma rangeIsSafeIn_false ranges start end_ :
  rangeIsSafeIn ranges start end_ = false
  <-> exists r, In r ranges /\ intersects r start end_.
Proof.
  unfold intersects.
  induction ranges as [|r rs IH]; simpl.
  - split; [discriminate | intros (r & [] & _)].
  - destruct (end_ >? Range.start r) eqn:E1;
      destruct (start <? Range.start r + Range.length r) eqn:E2; simpl.
    + split; [intros _ | reflexivity].
      exists r. split; [now left | lia].
    + rewrite IH. split; intros (r' & Hin & Hr').
      * exists r'. split; [now right | exact Hr'].
      * destruct Hin as [-> | Hin]; [lia | eauto].
    + rewrite IH. split; intros (r' & Hin & Hr').
      * exists r'. split; [now right | exact Hr'].
      * destruct Hin as [-> | Hin]; [lia | eauto].
    + rewrite IH. split; intros (r' & Hin & Hr').
      * exists r'. split; [now right | exact Hr'].
      * destruct Hin as [-> | Hin]; [lia | eauto].
Qed.

(** C1.  The query of the Bad-Region Index on the interval
    [[start, end_)] answers "unsafe" exactly when one of the configured
    ranges [r] has [end_ > r.start] and [start < r.start + r.length];
    it answers "safe" exactly when no configured range does.  The query
    is a function of its two arguments and of the constant list only: it
    reads no state and changes none. *)
Theorem rangeIsSafe_overlap_rule :
  forall start end_ : Z,
    (overlaps start end_ = true
     <-> exists r, In r badRanges
                   /\ end_ > Range.start r
                   /\ start < Range.start r + Range.length r)
    /\ (rangeIsSafe start end_ = true
        <-> forall r, In r badRanges
                      -> ~ (end_ > Range.start r
                            /\ start < Range.start r + Range.length r)).
Proof.
  intros start end_.
  pose proof (rangeIsSafeIn_false badRanges start end_) as H.
  unfold intersects in H. unfold overlaps, rangeIsSafe.
  destruct (rangeIsSafeIn badRanges start end_); simpl; split.
  - split; [discriminate |]. intros Hex. apply H in Hex. discriminate.
  - split; [| reflexivity]. intros _ r Hin Hr.
    assert (true = false) as Habs by (apply H; exists r; split; assumption).
    discriminate Habs.
  - split; [| reflexivity]. intros _. now apply H.
  - split; [discriminate |]. intros Hall.
    destruct (proj1 H eq_refl) as (r & Hin & Hr). now destruct (Hall r Hin).
Qed.

Lemma rangeIsSafe_overlap_rule_witness :
  overlaps 0x23bad54000 0x23bad55000 = true /\ rangeIsSafe 0 4096 = true.
Proof.
  split.
  - apply (proj1 (rangeIsSafe_overlap_rule 0x23bad54000 0x23bad55000)).
    exists (Range.mk 0x23bad54000 0x294000).
    split; [left; reflexivity | simpl; lia].
  - apply (proj2 (rangeIsSafe_overlap_rule 0 4096)).
    intros r Hin. simpl in Hin.
    repeat (destruct Hin as [<- | Hin]; [simpl; lia |]).
    destruct Hin.
Defined.

(** ** Inode Table Locator *)



(** ** Hex-Dump Decoder *)

Lemma byteAt_lookup (b : Buffer) (p : nat) : byteAt b p = default 0 (b !! p).
Proof. unfold byteAt. apply nth_lookup. Qed.

Lemma byteAt_alloc size p : byteAt (Buffer_alloc size) p = 0.
Proof.
  unfold byteAt, Buffer_alloc. revert p.
  induction size as [|n IH]; intros [|p]; simpl; auto.
Qed.

Lemma storeBytes_length start ws count i (b : Buffer) :
  length (storeBytes start ws count i b) = length b.
Proof.
  revert i b. induction count as [|c IH]; intros i b; simpl; [reflexivity|].
  rewrite IH. destruct (0 <=? start + Z.of_nat i); [apply length_insert | reflexivity].
Qed.

Lemma storeBytes_other start ws count i (b : Buffer) p :
  ~ (start + Z.of_nat i <= Z.of_nat p < start + Z.of_nat i + Z.of_nat count) ->
  byteAt (storeBytes start ws count i b) p = byteAt b p.
Proof.
  revert i b. induction count as [|c IH]; intros i b Hp; simpl; [reflexivity|].
  rewrite IH by lia.
  destruct (0 <=? start + Z.of_nat i) eqn:E; [|reflexivity].
  rewrite !byteAt_lookup, list_lookup_insert_ne; [reflexivity | lia].
Qed.

Lemma take_insert_any {A} (l : list A) n i x :
  take n (<[i:=x]> l) = <[i:=x]> (take n l).
Proof.
  destruct (decide (i < n)%nat) as [Hlt | Hge].
  - now apply take_insert_lt.
  - rewrite take_insert_ge by lia.
    symmetry. apply list_insert_ge. rewrite length_take. lia.
Qed.

Lemma storeBytes_take start ws count i (b : Buffer) n :
  take n (storeBytes start ws count i b) = storeBytes start ws count i (take n b).
Proof.
  revert i b. induction count as [|c IH]; intros i b; simpl; [reflexivity|].
  rewrite IH. destruct (0 <=? start + Z.of_nat i); [|reflexivity].
  now rewrite take_insert_any.
Qed.

Lemma literal_length l s r : literal l s = Some r -> length s = (length l + length r)%nat.
Proof.
  revert s. induction l as [|a l IH]; intros s; simpl.
  - now intros [= <-].
  - destruct s as [|b s]; [discriminate|].
    destruct (a =? b); [|discriminate]. intros H. apply IH in H. simpl. lia.
Qed.

Lemma takeN_length n p s w r :
  takeN n p s = Some (w, r) -> length s = (n + length r)%nat.
Proof.
  unfold takeN.
  destruct ((length (firstn n s) =? n)%nat && forallb p (firstn n s)) eqn:E;
    [|discriminate].
  intros [= <- <-]. apply andb_true_iff in E as [E _].
  apply Nat.eqb_eq in E. rewrite length_take in E. rewrite length_skipn. lia.
Qed.

Lemma hexWords_length n s ws r :
  hexWords n s = Some (ws, r) -> length s = (5 * n + length r)%nat.
Proof.
  revert s ws. induction n as [|n IH]; intros s ws; cbn [hexWords].
  - intros [= <- <-]. lia.
  - destruct (literal (str " ") s) as [s1|] eqn:E1; [|discriminate].
    destruct (takeN 4 isWordChar s1) as [[w s2]|] eqn:E2; [|discriminate].
    destruct (hexWords n s2) as [[ws' s3]|] eqn:E3; [|discriminate].
    intros [= <- <-].
    apply literal_length in E1. apply takeN_length in E2. apply IH in E3.
    simpl in E1. lia.
Qed.

Lemma parseHexPattern_length s g len :
  parseHexPattern s = Some (g, len) -> len = 45%nat /\ (45 <= length s)%nat.
Proof.
  unfold parseHexPattern.
  destruct (takeN 4 isOctalDigit s) as [[offset s1]|] eqn:E1; [|discriminate].
  destruct (literal (str " ") s1) as [s2|] eqn:E2; [|discriminate].
  destruct (hexWords 8 s2) as [[ws r]|] eqn:E3; [|discriminate].
  intros [= <- <-].
  apply takeN_length in E1. apply literal_length in E2.
  apply hexWords_length in E3. simpl in E2. lia.
Qed.

(** What a successful search of [execLineStart] returns. *)
Lemma searchLineStart_spec {G} (pat : jsstring -> option (G * nat)) hex :
  forall s i g li,
    skipn i hex = s -> (i <= length hex)%nat ->
    searchLineStart pat s i (startsLine hex i) = Some (g, li) ->
    exists j len,
      (i <= j <= length hex)%nat /\ startsLine hex j = true
      /\ pat (skipn j hex) = Some (g, len) /\ li = (j + len)%nat.
Proof.
  induction s as [|c s IH]; intros i g li Hs Hi; simpl.
  - destruct (startsLine hex i) eqn:Eb.
    + destruct (pat []) as [[g' len]|] eqn:Ep; [|discriminate].
      intros [= <- <-]. exists i, len. rewrite Hs. auto with lia.
    + discriminate.
  - assert (Hc : hex !! i = Some c).
    { rewrite <- (take_drop i hex) at 1. rewrite Hs.
      rewrite lookup_app_r by (rewrite length_take; lia).
      rewrite length_take. replace (i - i `min` length hex)%nat with O by lia.
      reflexivity. }
    assert (Hnext : skipn (S i) hex = s).
    { replace (S i) with (i + 1)%nat by lia.
      rewrite <- drop_drop. now rewrite Hs. }
    assert (Hlen : (S i <= length hex)%nat) by (apply lookup_lt_Some in Hc; lia).
    assert (Hsl : startsLine hex (S i) = isLineTerminator c).
    { simpl. now rewrite Hc. }
    destruct (if startsLine hex i then pat (c :: s) else None)
      as [[g' len]|] eqn:Ep.
    + intros [= <- <-]. destruct (startsLine hex i) eqn:Eb; [|discriminate].
      exists i, len. rewrite Hs. auto with lia.
    + rewrite <- Hsl. intros Hsearch.
      destruct (IH (S i) g li Hnext Hlen Hsearch) as (j & len & Hj & ? & ? & ?).
      exists j, len. auto with lia.
Qed.

Lemma execLineStart_spec {G} (pat : jsstring -> option (G * nat)) hex i g li :
  execLineStart pat hex i = Some (g, li) ->
  exists j len,
    (i <= j <= length hex)%nat /\ startsLine hex j = true
    /\ pat (skipn j hex) = Some (g, len) /\ li = (j + len)%nat.
Proof.
  unfold execLineStart.
  destruct (length hex <? i)%nat eqn:E; [discriminate|].
  apply Nat.ltb_ge in E. now apply searchLineStart_spec.
Qed.

Lemma execLineStart_past {G} (pat : jsstring -> option (G * nat)) hex i :
  (length hex < i)%nat -> execLineStart pat hex i = None.
Proof.
  intros H. unfold execLineStart.
  apply Nat.ltb_lt in H. now rewrite H.
Qed.

Lemma parseHexRegex_exec_spec hex i offset ws li :
  parseHexRegex_exec hex i = Some ((offset, ws), li) ->
  exists j, (i <= j)%nat /\ (j <= length hex)%nat /\ startsLine hex j = true
            /\ parseHexPattern (skipn j hex) = Some ((offset, ws), 45%nat)
            /\ li = (j + 45)%nat /\ (li <= length hex)%nat.
Proof.
  intros H. apply execLineStart_spec in H as (j & len & Hj & Hsl & Hp & ->).
  pose proof (parseHexPattern_length _ _ _ Hp) as [-> H45].
  rewrite length_skipn in H45.
  exists j. repeat split; auto with lia.
Qed.

Lemma parseHex_loop_length fuel hex li (b : Buffer) :
  length (parseHex_loop fuel hex li b) = length b.
Proof.
  revert li b. induction fuel as [|f IH]; intros li b; cbn [parseHex_loop];
    [reflexivity|].
  destruct (parseHexRegex_exec hex li) as [[[offset ws] li']|]; [|reflexivity].
  destruct (parseInt offset 8); rewrite IH; [apply storeBytes_length | reflexivity].
Qed.

Lemma parseHex_loop_take fuel hex li (b : Buffer) n :
  take n (parseHex_loop fuel hex li b) = parseHex_loop fuel hex li (take n b).
Proof.
  revert li b. induction fuel as [|f IH]; intros li b; cbn [parseHex_loop];
    [reflexivity|].
  destruct (parseHexRegex_exec hex li) as [[[offset ws] li']|]; [|reflexivity].
  destruct (parseInt offset 8); rewrite IH; [|reflexivity].
  now rewrite storeBytes_take.
Qed.

Lemma parseHex_loop_covered fuel hex li (b : Buffer) :
  (forall p, byteAt b p <> 0 -> coveredBy hex p) ->
  forall p, byteAt (parseHex_loop fuel hex li b) p <> 0 -> coveredBy hex p.
Proof.
  revert li b. induction fuel as [|f IH]; intros li b Hb; cbn [parseHex_loop];
    [exact Hb|].
  destruct (parseHexRegex_exec hex li) as [[[offset ws] li']|] eqn:He;
    [|exact Hb].
  destruct (parseInt offset 8) as [start|] eqn:Hs; apply IH; [|exact Hb].
  intros p Hp.
  destruct (decide (start <= Z.of_nat p < start + 16)) as [Hin | Hout].
  - apply parseHexRegex_exec_spec in He as (j & _ & Hj & Hsl & Hpat & _ & _).
    exists j, start, ws. split; [|exact Hin].
    repeat split; [exact Hj | exact Hsl |]. now exists offset.
  - rewrite storeBytes_other in Hp by lia. now apply Hb.
Qed.

Lemma parseHex_loop_fuel hex f1 : forall f2 li (b : Buffer),
  (length hex < f1 + li)%nat -> (length hex < f2 + li)%nat ->
  parseHex_loop f1 hex li b = parseHex_loop f2 hex li b.
Proof.
  induction f1 as [|f1 IH]; intros [|f2] li b H1 H2; cbn [parseHex_loop];
    try reflexivity.
  - unfold parseHexRegex_exec. now rewrite execLineStart_past by lia.
  - unfold parseHexRegex_exec. now rewrite execLineStart_past by lia.
  - destruct (parseHexRegex_exec hex li) as [[[offset ws] li']|] eqn:He;
      [|reflexivity].
    apply parseHexRegex_exec_spec in He as (j & Hj & _ & _ & _ & -> & _).
    destruct (parseInt offset 8); apply IH; lia.
Qed.

Lemma parseHex_loop_no_line fuel hex li (b : Buffer) :
  (forall i start ws, ~ dumpLineAt hex i start ws) ->
  parseHex_loop fuel hex li b = b.
Proof.
  intros Hno. revert li. induction fuel as [|f IH]; intros li;
    cbn [parseHex_loop]; [reflexivity|].
  destruct (parseHexRegex_exec hex li) as [[[offset ws] li']|] eqn:He;
    [|reflexivity].
  destruct (parseInt offset 8) as [start|] eqn:Hs; [|apply IH].
  apply parseHexRegex_exec_spec in He as (j & _ & Hj & Hsl & Hpat & _ & _).
  destruct (Hno j start ws). repeat split; [exact Hj | exact Hsl |].
  now exists offset.
Qed.

Lemma take_alloc size k : take size (Buffer_alloc (size + k)) = Buffer_alloc size.
Proof.
  unfold Buffer_alloc. induction size as [|n IH]; simpl; [reflexivity|].
  now rewrite IH.
Qed.

Lemma parseHex_length size hex : length (parseHex size hex) = size.
Proof.
  unfold parseHex. rewrite parseHex_loop_length. apply repeat_length.
Qed.

(** C10.  [parseHex] is a total function of the requested size and the
    text.  Its result has exactly the requested size; a byte position
    that no line of the dump covers (a line start where the octal offset
    and the eight words match) is zero, or, read the other way, a byte
    that is not zero lies in a line of the dump; a text without any such line
    gives the all-zero buffer; the bytes a line places at or beyond the
    requested size are dropped, so that the result is the result for any
    larger size, cut to the requested size; and the loop ends by itself:
    more rounds than [parseHex] allows for change nothing. *)
Theorem parseHex_total :
  forall (size : nat) (hex : jsstring),
    length (parseHex size hex) = size
    /\ (forall p, (p < size)%nat ->
                  ~ coveredBy hex p -> byteAt (parseHex size hex) p = 0)
    /\ (forall p, byteAt (parseHex size hex) p <> 0 -> coveredBy hex p)
    /\ ((forall i start ws, ~ dumpLineAt hex i start ws) ->
        parseHex size hex = Buffer_alloc size)
    /\ (forall k, parseHex size hex = firstn size (parseHex (size + k) hex))
    /\ (forall fuel, (length hex < fuel)%nat ->
                     parseHex_loop fuel hex 0 (Buffer_alloc size)
                     = parseHex size hex).
Proof.
  intros size hex. split; [apply parseHex_length|]. repeat split.
  - intros p _ Hnot.
    destruct (decide (byteAt (parseHex size hex) p = 0)) as [Hz | Hnz];
      [exact Hz|].
    destruct Hnot. revert p Hnz. apply parseHex_loop_covered.
    intros p Hp. now rewrite byteAt_alloc in Hp.
  - apply parseHex_loop_covered.
    intros p Hp. now rewrite byteAt_alloc in Hp.
  - intros Hno. now apply parseHex_loop_no_line.
  - intros k. unfold parseHex.
    change (firstn size) with (take (A:=Z) size).
    now rewrite parseHex_loop_take, take_alloc.
  - intros fuel Hf. apply parseHex_loop_fuel; lia.
Qed.

Lemma parseHex_total_witness :
  coveredBy badRootReply 0x29
  /\ parseHex 256 (str "debugfs: bd 7") = Buffer_alloc 256.
Proof.
  split.
  - destruct (parseHex_total 256 badRootReply) as (_ & _ & Hc & _).
    apply Hc. vm_compute. discriminate.
  - destruct (parseHex_total 256 (str "debugfs: bd 7")) as (_ & _ & _ & Hz & _).
    apply Hz.
    intros i start ws (Hi & _ & offset & Hp & _).
    apply parseHexPattern_length in Hp as [_ Hp].
    rewrite length_skipn in Hp.
    change (length (str "debugfs: bd 7")) with 13%nat in Hp. lia.
Defined.

(** ** Inode Record: [blocksInUse] *)

(** C2, as the specification words it, fails: on a sparse file of 8192
    bytes with one allocated block (8 sectors) the program counts 2
    blocks, the sector count gives 1. *)
Lemma blocksInUse_not_from_sectors :
  blocksInUse sparseInode = Ok 2
  /\ blocksInUse_spec sparseInode = Ok 1
  /\ blocksInUse sparseInode <> blocksInUse_spec sparseInode.
Proof.
  assert (H1 : blocksInUse sparseInode = Ok 2) by reflexivity.
  assert (H2 : blocksInUse_spec sparseInode = Ok 1) by reflexivity.
  split; [exact H1 | split; [exact H2 |]].
  rewrite H1, H2. discriminate.
Qed.

(** C2, amended.  For every decoded inode record, [blocksInUse] is
    computed from the 32-bit little-endian field at byte offset 0x04 of
    the record, the file size in bytes: it is the ceiling of that size
    over 4096, the least [n] with [size <= 4096 * n]. *)
Theorem blocksInUse_from_size :
  forall (id : Z) (name hex : jsstring),
    let this := new_InodeInfo id name hex in
    exists n, blocksInUse this = Ok n
              /\ 4096 * (n - 1) < i_size_lo (buf this) <= 4096 * n.
Proof.
  intros id0 name0 hex this. unfold blocksInUse, readUint32LE.
  subst this. cbn [buf new_InodeInfo]. rewrite parseHex_length.
  cbn [Nat.leb Nat.add result_bind].
  eexists. split; [reflexivity|].
  apply (ceilDiv_spec (i_size_lo (parseHex 256 hex)) 4096). lia.
Qed.

(** ** Runs in the monad *)

Lemma bind_Ok {A B} (c : M A) (k : A -> M B) w a w1 :
  c w = (Ok a, w1) -> bind c k w = k a w1.
Proof. intros H. unfold bind. now rewrite H. Qed.

Lemma bind_Ok_inv {A B} (c : M A) (k : A -> M B) w b w' :
  bind c k w = (Ok b, w') ->
  exists a w1, c w = (Ok a, w1) /\ k a w1 = (Ok b, w').
Proof.
  unfold bind. destruct (c w) as [[a | e | |] w1]; try discriminate.
  intros H. now exists a, w1.
Qed.

Lemma lift_Ok_inv {A} (r : result A) w a w1 :
  lift r w = (Ok a, w1) -> r = Ok a /\ w1 = w.
Proof. unfold lift. now intros [= -> ->]. Qed.

Lemma withSent_nil w : withSent [] w = w.
Proof. destruct w. unfold withSent. simpl. now rewrite app_nil_r. Qed.

Lemma withSent_app c1 c2 w : withSent c2 (withSent c1 w) = withSent (c1 ++ c2) w.
Proof. unfold withSent. simpl. now rewrite app_assoc. Qed.

Lemma debugfsCmd_run inspector cmd w :
  debugfsCmd inspector cmd w
  = (match afterFirstLine (inspector cmd) with
     | Some rest => Ok rest
     | None => Throw WeirdResponse
     end, withSent [cmd] w).
Proof.
  unfold debugfsCmd, bind, sendDebugfsCommand, withSent.
  now destruct (afterFirstLine (inspector cmd)).
Qed.

(** ** Extent trees *)

Section ExtentProofs.

Variable inspector : Cmd -> jsstring.

Lemma extentEntries_sound (self : Buffer -> M bool) :
  (forall buf w safe w',
      self buf w = (Ok safe, w') ->
      exists cmds, NodeVerdict inspector buf safe cmds /\ w' = withSent cmds w) ->
  forall buf leaf count i w safe w',
    extentEntriesAreSafe inspector self buf leaf count i w = (Ok safe, w') ->
    exists cmds, EntriesVerdict inspector buf leaf count i safe cmds
                 /\ w' = withSent cmds w.
Proof.
  intros Hself buf leaf count.
  induction count as [|count IH]; intros i w safe w' Hrun;
    cbn [extentEntriesAreSafe] in Hrun.
  - injection Hrun as <- <-. exists []. split; [constructor|].
    now rewrite withSent_nil.
  - destruct leaf.
    + apply bind_Ok_inv in Hrun as (firstBlock & w1 & H1 & Hrun).
      apply lift_Ok_inv in H1 as [H1 ->].
      apply bind_Ok_inv in Hrun as (blockCount & w1 & H2 & Hrun).
      apply lift_Ok_inv in H2 as [H2 ->].
      destruct (rangeIsSafe (firstBlock * 4096)
                  ((firstBlock + blockCount) * 4096)) eqn:Hsafe;
        cbn [negb] in Hrun.
      * apply IH in Hrun as (cmds & Hv & ->). exists cmds. split; [|reflexivity].
        eapply EV_leaf_safe; eauto. unfold overlaps. now rewrite Hsafe.
      * injection Hrun as <- <-. exists []. split; [|now rewrite withSent_nil].
        eapply EV_leaf_unsafe; eauto. unfold overlaps. now rewrite Hsafe.
    + apply bind_Ok_inv in Hrun as (child & w1 & H1 & Hrun).
      apply lift_Ok_inv in H1 as [H1 ->].
      apply bind_Ok_inv in Hrun as (hex & w1 & H2 & Hrun).
      rewrite debugfsCmd_run in H2.
      destruct (afterFirstLine (inspector (bd child))) as [rest|] eqn:Hline;
        [|discriminate].
      injection H2 as <- <-.
      apply bind_Ok_inv in Hrun as (safe1 & w2 & H3 & Hrun).
      apply Hself in H3 as (cmds & Hv & ->).
      destruct safe1; cbn [negb] in Hrun.
      * apply IH in Hrun as (cmds' & Hv' & ->).
        exists (bd child :: cmds ++ cmds'). split.
        -- eapply EV_child_safe; eauto.
        -- now rewrite !withSent_app.
      * injection Hrun as <- <-. exists (bd child :: cmds). split.
        -- eapply EV_child_unsafe; eauto.
        -- now rewrite withSent_app.
Qed.

Lemma extentsAreSafe_sound fuel :
  forall buf w safe w',
    extentsAreSafe inspector fuel buf w = (Ok safe, w') ->
    exists cmds, NodeVerdict inspector buf safe cmds /\ w' = withSent cmds w.
Proof.
  induction fuel as [|fuel IH]; intros buf w safe w' Hrun;
    cbn [extentsAreSafe] in Hrun; [discriminate|].
  apply bind_Ok_inv in Hrun as (entryCount & w1 & H1 & Hrun).
  apply lift_Ok_inv in H1 as [H1 ->].
  apply bind_Ok_inv in Hrun as (depth & w1 & H2 & Hrun).
  apply lift_Ok_inv in H2 as [H2 ->].
  apply (extentEntries_sound _ IH) in Hrun as (cmds & Hv & ->).
  exists cmds. split; [|reflexivity]. econstructor; eauto.
Qed.

Lemma extentsAreSafe_complete :
  forall buf safe cmds,
    NodeVerdict inspector buf safe cmds ->
    exists fuel0, forall fuel w,
        (fuel0 <= fuel)%nat ->
        extentsAreSafe inspector fuel buf w = (Ok safe, withSent cmds w).
Proof.
  apply (NodeVerdict_mut inspector
    (fun buf safe cmds =>
       exists fuel0, forall fuel w,
           (fuel0 <= fuel)%nat ->
           extentsAreSafe inspector fuel buf w = (Ok safe, withSent cmds w))
    (fun buf leaf count i safe cmds =>
       exists fuel0, forall fuel w,
           (fuel0 <= fuel)%nat ->
           extentEntriesAreSafe inspector (extentsAreSafe inspector fuel)
             buf leaf count i w
           = (Ok safe, withSent cmds w))).
  - intros buf entryCount depth safe cmds H1 H2 _ (f0 & IH).
    exists (S f0). intros [|fuel] w Hf; [lia|].
    cbn [extentsAreSafe]. unfold bind at 1, lift at 1. rewrite H1.
    unfold bind at 1, lift at 1. rewrite H2. apply IH. lia.
  - intros buf leaf i. exists O. intros fuel w _.
    cbn [extentEntriesAreSafe]. unfold ret. now rewrite withSent_nil.
  - intros buf count i firstBlock blockCount H1 H2 Hov.
    exists O. intros fuel w _. cbn [extentEntriesAreSafe].
    unfold bind at 1, lift at 1. rewrite H1.
    unfold bind at 1, lift at 1. rewrite H2.
    unfold overlaps in Hov. apply negb_true_iff in Hov. rewrite Hov.
    cbn [negb]. unfold ret. now rewrite withSent_nil.
  - intros buf count i firstBlock blockCount safe cmds H1 H2 Hov _ (f0 & IH).
    exists f0. intros fuel w Hf. cbn [extentEntriesAreSafe].
    unfold bind at 1, lift at 1. rewrite H1.
    unfold bind at 1, lift at 1. rewrite H2.
    unfold overlaps in Hov. apply negb_false_iff in Hov. rewrite Hov.
    cbn [negb]. now apply IH.
  - intros buf count i child hex cmds H1 Hline _ (f0 & IH).
    exists f0. intros fuel w Hf. cbn [extentEntriesAreSafe].
    unfold bind at 1, lift at 1. rewrite H1.
    unfold bind at 1. rewrite debugfsCmd_run, Hline.
    unfold bind at 1. rewrite (IH fuel _ Hf). cbn [negb].
    unfold ret. now rewrite withSent_app.
  - intros buf count i child hex cmds safe cmds' H1 Hline _ (f1 & IH1)
      _ (f2 & IH2).
    exists (Nat.max f1 f2). intros fuel w Hf. cbn [extentEntriesAreSafe].
    unfold bind at 1, lift at 1. rewrite H1.
    unfold bind at 1. rewrite debugfsCmd_run, Hline.
    unfold bind at 1. rewrite (IH1 fuel _ ltac:(lia)). cbn [negb].
    rewrite (IH2 fuel _ ltac:(lia)). now rewrite !withSent_app.
Qed.

End ExtentProofs.

(** C5.  Extent resolution agrees with the specification's reading of
    the tree.  Whenever [extentsAreSafe] returns, its verdict and the
    child blocks it fetched are those of [NodeVerdict]: a leaf entry
    [{firstBlock, blockCount}] is unsafe exactly when
    [[firstBlock * 4096, (firstBlock + blockCount) * 4096)] overlaps the
    Bad-Region Index, a node is the conjunction of its entries in entry
    order, nothing after the first unsafe entry is looked at, and an
    entry of an internal node is resolved by fetching the child block
    and recursing.  Conversely every verdict of [NodeVerdict] is
    returned by [extentsAreSafe] once the recursion bound is large
    enough.  In particular a leaf whose only entry is
    [{firstBlock, blockCount}] is safe exactly when that interval does
    not overlap, and for [{10, 2}] the interval is [[40960, 49152)]. *)
Theorem extentsAreSafe_resolution :
  forall (inspector : Cmd -> jsstring) (buf : Buffer),
    (forall fuel w safe w',
        extentsAreSafe inspector fuel buf w = (Ok safe, w') ->
        exists cmds, NodeVerdict inspector buf safe cmds
                     /\ w' = withSent cmds w)
    /\ (forall safe cmds,
           NodeVerdict inspector buf safe cmds ->
           exists fuel0, forall fuel w,
               (fuel0 <= fuel)%nat ->
               extentsAreSafe inspector fuel buf w
               = (Ok safe, withSent cmds w))
    /\ (forall firstBlock blockCount,
           readUint16LE buf 0x02 = Ok 1 ->
           readUint16LE buf 0x06 = Ok 0 ->
           readUint32LE buf 20 = Ok firstBlock ->
           readUint16LE buf 16 = Ok blockCount ->
           forall fuel w,
             extentsAreSafe inspector (S fuel) buf w
             = (Ok (negb (overlaps (firstBlock * 4096)
                            ((firstBlock + blockCount) * 4096))), w))
    /\ (readUint16LE buf 0x02 = Ok 1 ->
        readUint16LE buf 0x06 = Ok 0 ->
        readUint32LE buf 20 = Ok 10 ->
        readUint16LE buf 16 = Ok 2 ->
        forall fuel w,
          extentsAreSafe inspector (S fuel) buf w
          = (Ok (negb (overlaps 40960 49152)), w)).
Proof.
  intros inspector buf.
  assert (Hleaf : forall firstBlock blockCount,
             readUint16LE buf 0x02 = Ok 1 ->
             readUint16LE buf 0x06 = Ok 0 ->
             readUint32LE buf 20 = Ok firstBlock ->
             readUint16LE buf 16 = Ok blockCount ->
             forall fuel w,
               extentsAreSafe inspector (S fuel) buf w
               = (Ok (negb (overlaps (firstBlock * 4096)
                              ((firstBlock + blockCount) * 4096))), w)).
  { intros firstBlock blockCount H1 H2 H3 H4 fuel w.
    cbn [extentsAreSafe]. unfold bind at 1, lift at 1. rewrite H1.
    unfold bind at 1, lift at 1. rewrite H2.
    change (Z.to_nat 1) with 1%nat. change (0 =? 0) with true.
    cbn [extentEntriesAreSafe].
    change (12 * (0 + 1) + 8)%nat with 20%nat.
    change (12 * (0 + 1) + 4)%nat with 16%nat.
    unfold bind at 1, lift at 1. rewrite H3.
    unfold bind at 1, lift at 1. rewrite H4.
    unfold overlaps.
    now destruct (rangeIsSafe (firstBlock * 4096)
                    ((firstBlock + blockCount) * 4096)). }
  split; [|split; [|split]].
  - intros fuel. apply extentsAreSafe_sound.
  - apply extentsAreSafe_complete.
  - exact Hleaf.
  - intros H1 H2 H3 H4. exact (Hleaf 10 2 H1 H2 H3 H4).
Qed.

Lemma extentsAreSafe_resolution_witness :
  extentsAreSafe silentInspector 1 oneExtentLeaf world0
  = (Ok (negb (overlaps 40960 49152)), world0)
  /\ exists cmds, NodeVerdict silentInspector oneExtentLeaf true cmds
                  /\ world0 = withSent cmds world0.
Proof.
  destruct (extentsAreSafe_resolution silentInspector oneExtentLeaf)
    as (Hsound & _ & _ & Hex).
  split.
  - apply Hex; reflexivity.
  - apply (Hsound 1%nat world0 true world0). reflexivity.
Defined.

(** ** Classic indirect blocks *)

Lemma pointersAreSafe_forallb (b : Buffer) count : forall i,
  (4 * (i + count) <= length b)%nat ->
  pointersAreSafe b count i
  = Ok (forallb blockIsSafe (map (pointerAt b) (seq i count))).
Proof.
  induction count as [|count IH]; intros i Hlen; cbn [pointersAreSafe];
    [reflexivity|].
  unfold readUint32LE.
  replace (i * 4 + 4 <=? length b)%nat with true
    by (symmetry; apply Nat.leb_le; lia).
  cbn [result_bind seq map forallb]. fold (pointerAt b i).
  destruct (blockIsSafe (pointerAt b i)); [|reflexivity].
  apply IH. lia.
Qed.

Lemma blocksL1AreSafe_run inspector blockNum n w :
  0 <= n <= 1024 ->
  blocksL1AreSafe inspector blockNum n w
  = (match afterFirstLine (inspector (bd blockNum)) with
     | Some hex =>
         Ok (forallb blockIsSafe
               (map (pointerAt (parseHex 4096 hex)) (seq 0 (Z.to_nat n))))
     | None => Throw WeirdResponse
     end, withSent [bd blockNum] w).
Proof.
  intros Hn. unfold blocksL1AreSafe, bind. rewrite debugfsCmd_run.
  destruct (afterFirstLine (inspector (bd blockNum))) as [hex|];
    [|reflexivity].
  unfold lift. rewrite pointersAreSafe_forallb; [reflexivity|].
  rewrite parseHex_length. lia.
Qed.

Lemma level_counts (B : Z) :
  0 <= B ->
  directBlocks B + level1Blocks B + level2Blocks B + level3Blocks B
  = Z.min B (12 + 1024 + 1024 ^ 2 + 1024 ^ 3)
  /\ 0 <= directBlocks B <= 12
  /\ 0 <= level1Blocks B <= 1024
  /\ 0 <= level2Blocks B <= 1024 ^ 2
  /\ 0 <= level3Blocks B <= 1024 ^ 3.
Proof.
  intros HB.
  unfold level3Blocks, level2Blocks, level1Blocks, directBlocks,
    blockCounts.L1, blockCounts.L2, blockCounts.L3.
  change (1024 ^ 2) with 1048576. change (1024 ^ 3) with 1073741824.
  lia.
Qed.

Lemma sumTo_const (f : nat -> Z) c n :
  (forall i, (i < n)%nat -> f i = c) -> sumTo f n = c * Z.of_nat n.
Proof.
  induction n as [|n IH]; intros Hf; cbn [sumTo]; [lia|].
  rewrite IH by (intros i Hi; apply Hf; lia).
  rewrite (Hf n) by lia. lia.
Qed.

(** The shares of the pointers of an indirect block whose pointers each
    cover [unit] blocks, when [total] blocks are asked of it: all the
    pointers but the last cover [unit] blocks, the last the rest. *)
Lemma share_split (unit total : Z) (i : nat) :
  0 < unit -> 1 <= total ->
  (Z.of_nat i < ceilDiv total unit) ->
  let share := orElse (Z.rem (Z.min total ((Z.of_nat i + 1) * unit)) unit) unit in
  (Z.of_nat i + 1 < ceilDiv total unit -> share = unit)
  /\ (Z.of_nat i + 1 = ceilDiv total unit ->
      share = total - unit * (ceilDiv total unit - 1)).
Proof.
  intros Hu Ht Hi share. subst share.
  pose proof (ceilDiv_spec total unit Hu) as Hc.
  split; intros Hlast.
  - rewrite Z.min_r by nia.
    rewrite Z.rem_mod_nonneg by nia.
    rewrite Z.mod_mul by lia. reflexivity.
  - rewrite Z.min_l by nia.
    rewrite Z.rem_mod_nonneg by lia.
    unfold orElse.
    pose proof (Z.div_mod total unit ltac:(lia)) as Hdm.
    pose proof (Z.mod_pos_bound total unit Hu) as Hm.
    destruct (total mod unit =? 0) eqn:E.
    + apply Z.eqb_eq in E.
      rewrite (ceilDiv_unique total unit (total / unit)) by nia. nia.
    + apply Z.eqb_neq in E.
      rewrite (ceilDiv_unique total unit (total / unit + 1)) by nia. nia.
Qed.

Lemma shares_sum (unit total : Z) :
  0 < unit -> 1 <= total ->
  let share i := orElse (Z.rem (Z.min total ((Z.of_nat i + 1) * unit)) unit) unit in
  sumTo share (Z.to_nat (ceilDiv total unit)) = total
  /\ forall i, (i < Z.to_nat (ceilDiv total unit))%nat -> 1 <= share i <= unit.
Proof.
  intros Hu Ht share.
  pose proof (ceilDiv_spec total unit Hu) as Hc.
  assert (Hp : 1 <= ceilDiv total unit) by nia.
  destruct (Z.to_nat (ceilDiv total unit)) as [|n] eqn:En; [lia|].
  assert (Hn : Z.of_nat n + 1 = ceilDiv total unit) by lia.
  split.
  - cbn [sumTo].
    rewrite (sumTo_const share unit n).
    + destruct (share_split unit total n Hu Ht ltac:(lia)) as [_ Hl].
      fold (share n) in Hl. rewrite (Hl Hn). nia.
    + intros i Hi.
      destruct (share_split unit total i Hu Ht ltac:(lia)) as [Hf _].
      apply Hf. lia.
  - intros i Hi.
    destruct (share_split unit total i Hu Ht ltac:(lia)) as [Hf Hl].
    fold (share i) in Hf, Hl.
    destruct (decide (Z.of_nat i + 1 = ceilDiv total unit)) as [Heq | Hne].
    + rewrite (Hl Heq). nia.
    + rewrite Hf by lia. lia.
Qed.

Lemma blocksAreSafe_13 inspector this (i_block : Buffer) w :
  blocksInUse this = Ok 13 ->
  length i_block = 60%nat ->
  blocksAreSafe inspector this i_block w
  = if forallb blockIsSafe (map (pointerAt i_block) (seq 0 12))
    then (match afterFirstLine (inspector (bd (pointerAt i_block 12))) with
          | Some hex => Ok (blockIsSafe (pointerAt (parseHex 4096 hex) 0))
          | None => Throw WeirdResponse
          end, withSent [bd (pointerAt i_block 12)] w)
    else (Ok false, w).
Proof.
  intros HB Hlen. unfold blocksAreSafe.
  unfold bind at 1, lift at 1. rewrite HB.
  change (Z.to_nat (directBlocks 13)) with 12%nat.
  change (level1Blocks 13) with 1. change (level2Blocks 13) with 0.
  rewrite pointersAreSafe_forallb by lia.
  unfold bind at 1, lift at 1.
  destruct (forallb blockIsSafe (map (pointerAt i_block) (seq 0 12)));
    [|reflexivity].
  cbn [negb]. change (1 <=? 0) with false. cbv iota.
  unfold readUint32LE. rewrite Hlen.
  change (12 * 4 + 4 <=? 60)%nat with true. cbv iota.
  unfold bind at 1, lift at 1. fold (pointerAt i_block 12).
  unfold bind at 1. rewrite blocksL1AreSafe_run by lia.
  destruct (afterFirstLine (inspector (bd (pointerAt i_block 12)))) as [hex|];
    [|reflexivity].
  change (Z.to_nat 1) with 1%nat. cbn [seq map forallb].
  rewrite andb_true_r.
  destruct (blockIsSafe (pointerAt (parseHex 4096 hex) 0)); reflexivity.
Qed.

(** *** The walk against the resolution the specification words *)

Lemma inOrder_single (walk : Walk) : inOrder [walk] = walk.
Proof.
  destruct walk as [[[] | e | |] cmds]; cbn [inOrder]; try reflexivity.
  now rewrite app_nil_r.
Qed.

Lemma inOrder_tests (tests : list bool) (rest : list Walk) :
  inOrder (map (fun t : bool => (Ok t, [])) tests ++ rest)
  = if forallb (fun t => t) tests then inOrder rest else (Ok false, []).
Proof.
  induction tests as [|[] tests IH]; cbn [map app inOrder forallb andb];
    [reflexivity | | reflexivity].
  rewrite IH. now destruct (forallb (fun t => t) tests), (inOrder rest).
Qed.

Lemma filter_seq_below (p : nat -> bool) (c : nat) :
  (forall i, p i = true <-> (i < c)%nat) ->
  forall n a, List.filter p (seq a n) = seq a (Nat.min n (c - a)).
Proof.
  intros Hp. induction n as [|n IH]; intros a; cbn [seq List.filter];
    [reflexivity|].
  rewrite IH. destruct (p a) eqn:Ea.
  - apply Hp in Ea. replace (c - a)%nat with (S (c - S a)) by lia.
    reflexivity.
  - assert (Hge : (c <= a)%nat).
    { destruct (Nat.le_gt_cases c a) as [H | H]; [exact H|].
      apply Hp in H. congruence. }
    replace (c - a)%nat with 0%nat by lia.
    replace (c - S a)%nat with 0%nat by lia.
    now rewrite !Nat.min_0_r.
Qed.

(** The entries consulted in a block are its first ones, as many as the
    blocks still needed take. *)
Lemma consulted_entries (covers need : Z) :
  0 < covers -> need <= covers * 1024 ->
  List.filter (fun i => covers * Z.of_nat i <? need) (seq 0 1024)
  = seq 0 (Z.to_nat (ceilDiv need covers)).
Proof.
  intros Hc Hneed.
  pose proof (ceilDiv_spec need covers Hc) as Hspec.
  rewrite (filter_seq_below _ (Z.to_nat (ceilDiv need covers))).
  - f_equal. rewrite Nat.sub_0_r. apply Nat.min_r. nia.
  - intros i. rewrite Z.ltb_lt. split; intros H; nia.
Qed.

(** The share of an entry as the code computes it is what is still
    needed of that entry. *)
Lemma share_needed (covers need : Z) (i : nat) :
  0 < covers -> 1 <= need ->
  (i < Z.to_nat (ceilDiv need covers))%nat ->
  orElse (Z.rem (Z.min need ((Z.of_nat i + 1) * covers)) covers) covers
  = Z.min covers (need - covers * Z.of_nat i)
  /\ 1 <= Z.min covers (need - covers * Z.of_nat i) <= covers.
Proof.
  intros Hc Hneed Hi.
  pose proof (ceilDiv_spec need covers Hc) as Hspec.
  destruct (share_split covers need i Hc Hneed ltac:(lia)) as [Hfull Hlast].
  cbv zeta in Hfull, Hlast.
  destruct (decide (Z.of_nat i + 1 < ceilDiv need covers)) as [Hlt | Hge].
  - rewrite (Hfull Hlt). split; [|nia]. rewrite Z.min_l; [reflexivity | nia].
  - rewrite (Hlast ltac:(lia)).
    replace (ceilDiv need covers - 1) with (Z.of_nat i) by lia.
    split; [|nia]. rewrite Z.min_r; [reflexivity | nia].
Qed.

Lemma performs_ret_false (rest : list Walk) :
  performs (ret false) (inOrder ((Ok false, []) :: rest)).
Proof. intros w. cbn [inOrder fst snd]. now rewrite withSent_nil. Qed.

Lemma performs_ret_true : performs (ret true) (Ok true, []).
Proof. intros w. cbn [fst snd]. now rewrite withSent_nil. Qed.

(** One round of a loop over entries: the entry is resolved, and the
    loop goes on when it is safe. *)
Lemma performs_inOrder (c rest : M bool) (walk : Walk) (walks : list Walk) :
  performs c walk -> performs rest (inOrder walks) ->
  performs (bind c (fun safe => if negb safe then ret false else rest))
    (inOrder (walk :: walks)).
Proof.
  intros Hc Hrest w. unfold bind. rewrite (Hc w).
  destruct walk as [[[] | e | |] cmds]; cbn [fst snd negb inOrder];
    try reflexivity.
  rewrite (Hrest (withSent cmds w)), withSent_app.
  now destruct (inOrder walks).
Qed.

Section ClassicRefinement.

Variable inspector : Cmd -> jsstring.

Lemma performs_fetch (blockNum : Z) (k : jsstring -> M bool)
    (walk : Buffer -> Walk) :
  (forall hex, performs (k hex) (walk (parseHex 4096 hex))) ->
  performs (bind (debugfsCmd inspector (bd blockNum)) k)
    (match afterFirstLine (inspector (bd blockNum)) with
     | None => (Throw WeirdResponse, [bd blockNum])
     | Some hex => let '(verdict, cmds) := walk (parseHex 4096 hex) in
                   (verdict, bd blockNum :: cmds)
     end).
Proof.
  intros Hk w. unfold bind. rewrite debugfsCmd_run.
  destruct (afterFirstLine (inspector (bd blockNum))) as [hex|];
    [|reflexivity].
  rewrite (Hk hex). destruct (walk (parseHex 4096 hex)) as [verdict cmds].
  cbn [fst snd]. now rewrite withSent_app.
Qed.

Lemma blocksL1AreSafe_performs (blockNum need : Z) :
  0 <= need <= 1024 ->
  performs (blocksL1AreSafe inspector blockNum need)
    (specIndirect inspector 0 blockNum need).
Proof.
  intros Hneed w. rewrite blocksL1AreSafe_run by exact Hneed.
  cbn [specIndirect].
  destruct (afterFirstLine (inspector (bd blockNum))) as [hex|];
    [|reflexivity].
  change (1024 ^ Z.of_nat 0) with 1.
  rewrite (consulted_entries 1 need ltac:(lia) ltac:(lia)).
  replace (ceilDiv need 1) with need
    by (symmetry; apply ceilDiv_unique; lia).
  set (block := parseHex 4096 hex).
  assert (Hin : forall l,
             inOrder (map (fun i => if negb (blockIsSafe (pointerAt block i))
                                    then (Ok false, [])
                                    else (Ok true, [])) l)
             = (Ok (forallb blockIsSafe (map (pointerAt block) l)),
                @nil Cmd)).
  { induction l as [|i l IH]; [reflexivity|].
    cbn [map inOrder forallb].
    destruct (blockIsSafe (pointerAt block i)); cbn [negb andb];
      [|reflexivity].
    now rewrite IH. }
  rewrite Hin. reflexivity.
Qed.

(** The entry of a block of a level above the first, as [specIndirect]
    consults it. *)
Lemma specIndirect_S (below : nat) (blockNum need : Z) :
  specIndirect inspector (S below) blockNum need
  = match afterFirstLine (inspector (bd blockNum)) with
    | None => (Throw WeirdResponse, [bd blockNum])
    | Some hex =>
        let '(verdict, cmds) :=
          inOrder
            (map (fun i =>
                    if negb (blockIsSafe (pointerAt (parseHex 4096 hex) i))
                    then (Ok false, [])
                    else specIndirect inspector below
                           (pointerAt (parseHex 4096 hex) i)
                           (Z.min (1024 ^ Z.of_nat (S below))
                              (need - 1024 ^ Z.of_nat (S below)
                                      * Z.of_nat i)))
               (List.filter
                  (fun i => 1024 ^ Z.of_nat (S below) * Z.of_nat i <? need)
                  (seq 0 1024))) in
        (verdict, bd blockNum :: cmds)
    end.
Proof. reflexivity. Qed.

Lemma blocksL2_loop_performs (buffer : Buffer) (need : Z) count : forall i,
  length buffer = 4096%nat ->
  1 <= need <= 1024 * 1024 ->
  (i + count = Z.to_nat (ceilDiv need 1024))%nat ->
  performs (blocksL2_loop inspector buffer need count i)
    (inOrder
       (map (fun i =>
               if negb (blockIsSafe (pointerAt buffer i))
               then (Ok false, [])
               else specIndirect inspector 0 (pointerAt buffer i)
                      (Z.min 1024 (need - 1024 * Z.of_nat i)))
          (seq i count))).
Proof.
  pose proof (ceilDiv_spec need 1024 ltac:(lia)) as Hc.
  induction count as [|count IH]; intros i Hlen Hneed Hi;
    cbn [blocksL2_loop seq map].
  - apply performs_ret_true.
  - assert (Hread : readUint32LE buffer (i * 4) = Ok (pointerAt buffer i)).
    { unfold readUint32LE.
      replace (i * 4 + 4 <=? length buffer)%nat with true
        by (symmetry; apply Nat.leb_le; lia).
      reflexivity. }
    destruct (share_needed 1024 need i ltac:(lia) ltac:(lia) ltac:(lia))
      as [Hshare Hrange].
    change (orElse _ 1024) with (level1BlocksUnder need i) in Hshare.
    intros w. unfold bind at 1, lift at 1. rewrite Hread. revert w.
    change (performs
              (if negb (blockIsSafe (pointerAt buffer i)) then ret false
               else bind (blocksL1AreSafe inspector (pointerAt buffer i)
                            (level1BlocksUnder need i))
                      (fun safe => if negb safe then ret false
                                   else blocksL2_loop inspector buffer need
                                          count (S i)))
              (inOrder
                 ((if negb (blockIsSafe (pointerAt buffer i))
                   then (Ok false, [])
                   else specIndirect inspector 0 (pointerAt buffer i)
                          (Z.min 1024 (need - 1024 * Z.of_nat i)))
                  :: map (fun i =>
                            if negb (blockIsSafe (pointerAt buffer i))
                            then (Ok false, [])
                            else specIndirect inspector 0 (pointerAt buffer i)
                                   (Z.min 1024 (need - 1024 * Z.of_nat i)))
                       (seq (S i) count)))).
    destruct (blockIsSafe (pointerAt buffer i)); cbn [negb].
    + apply performs_inOrder.
      * rewrite Hshare. apply blocksL1AreSafe_performs. lia.
      * apply IH; [exact Hlen | exact Hneed | lia].
    + apply performs_ret_false.
Qed.

Lemma blocksL2AreSafe_performs (blockNum need : Z) :
  1 <= need <= 1024 ^ 2 ->
  performs (blocksL2AreSafe inspector blockNum need)
    (specIndirect inspector 1 blockNum need).
Proof.
  intros Hneed. change (1024 ^ 2) with (1024 * 1024) in Hneed.
  rewrite specIndirect_S. change (1024 ^ Z.of_nat 1) with 1024.
  rewrite (consulted_entries 1024 need ltac:(lia) ltac:(lia)).
  unfold blocksL2AreSafe.
  apply (performs_fetch blockNum
           (fun hex => blocksL2_loop inspector (parseHex 4096 hex) need
                         (Z.to_nat (ceilDiv need blockIdsPerBlock)) 0)
           (fun block =>
              inOrder
                (map (fun i =>
                        if negb (blockIsSafe (pointerAt block i))
                        then (Ok false, [])
                        else specIndirect inspector 0 (pointerAt block i)
                               (Z.min 1024 (need - 1024 * Z.of_nat i)))
                   (seq 0 (Z.to_nat (ceilDiv need 1024)))))).
  intros hex. apply blocksL2_loop_performs;
    [apply parseHex_length | exact Hneed | reflexivity].
Qed.

Lemma blocksL3_loop_performs (buffer : Buffer) (need : Z) count : forall i,
  length buffer = 4096%nat ->
  1 <= need <= 1048576 * 1024 ->
  (i + count = Z.to_nat (ceilDiv need 1048576))%nat ->
  performs (blocksL3_loop inspector buffer need count i)
    (inOrder
       (map (fun i =>
               if negb (blockIsSafe (pointerAt buffer i))
               then (Ok false, [])
               else specIndirect inspector 1 (pointerAt buffer i)
                      (Z.min 1048576 (need - 1048576 * Z.of_nat i)))
          (seq i count))).
Proof.
  pose proof (ceilDiv_spec need 1048576 ltac:(lia)) as Hc.
  induction count as [|count IH]; intros i Hlen Hneed Hi;
    cbn [blocksL3_loop seq map].
  - apply performs_ret_true.
  - assert (Hread : readUint32LE buffer (i * 4) = Ok (pointerAt buffer i)).
    { unfold readUint32LE.
      replace (i * 4 + 4 <=? length buffer)%nat with true
        by (symmetry; apply Nat.leb_le; lia).
      reflexivity. }
    destruct (share_needed 1048576 need i ltac:(lia) ltac:(lia) ltac:(lia))
      as [Hshare Hrange].
    change (orElse _ 1048576) with (level2BlocksUnder need i) in Hshare.
    intros w. unfold bind at 1, lift at 1. rewrite Hread. revert w.
    change (performs
              (if negb (blockIsSafe (pointerAt buffer i)) then ret false
               else bind (blocksL2AreSafe inspector (pointerAt buffer i)
                            (level2BlocksUnder need i))
                      (fun safe => if negb safe then ret false
                                   else blocksL3_loop inspector buffer need
                                          count (S i)))
              (inOrder
                 ((if negb (blockIsSafe (pointerAt buffer i))
                   then (Ok false, [])
                   else specIndirect inspector 1 (pointerAt buffer i)
                          (Z.min 1048576 (need - 1048576 * Z.of_nat i)))
                  :: map (fun i =>
                            if negb (blockIsSafe (pointerAt buffer i))
                            then (Ok false, [])
                            else specIndirect inspector 1 (pointerAt buffer i)
                                   (Z.min 1048576
                                      (need - 1048576 * Z.of_nat i)))
                       (seq (S i) count)))).
    destruct (blockIsSafe (pointerAt buffer i)); cbn [negb].
    + apply performs_inOrder.
      * rewrite Hshare. apply blocksL2AreSafe_performs.
        change (1024 ^ 2) with 1048576. lia.
      * apply IH; [exact Hlen | exact Hneed | lia].
    + apply performs_ret_false.
Qed.

Lemma blocksL3AreSafe_performs (blockNum need : Z) :
  1 <= need <= 1024 ^ 3 ->
  performs (blocksL3AreSafe inspector blockNum need)
    (specIndirect inspector 2 blockNum need).
Proof.
  intros Hneed. change (1024 ^ 3) with (1048576 * 1024) in Hneed.
  rewrite specIndirect_S. change (1024 ^ Z.of_nat 2) with 1048576.
  rewrite (consulted_entries 1048576 need ltac:(lia) ltac:(lia)).
  unfold blocksL3AreSafe.
  apply (performs_fetch blockNum
           (fun hex => blocksL3_loop inspector (parseHex 4096 hex) need
                         (Z.to_nat (ceilDiv need (blockIdsPerBlock ^ 2))) 0)
           (fun block =>
              inOrder
                (map (fun i =>
                        if negb (blockIsSafe (pointerAt block i))
                        then (Ok false, [])
                        else specIndirect inspector 1 (pointerAt block i)
                               (Z.min 1048576 (need - 1048576 * Z.of_nat i)))
                   (seq 0 (Z.to_nat (ceilDiv need 1048576)))))).
  intros hex. apply blocksL3_loop_performs;
    [apply parseHex_length | exact Hneed | reflexivity].
Qed.


Lemma performs_read (b : Buffer) (k : nat) (c : Z -> M bool) (walk : Walk) :
  (k * 4 + 4 <= length b)%nat ->
  performs (c (pointerAt b k)) walk ->
  performs (bind (lift (readUint32LE b (k * 4))) c) walk.
Proof.
  intros Hk Hc w. unfold bind, lift, readUint32LE.
  replace (k * 4 + 4 <=? length b)%nat with true
    by (symmetry; apply Nat.leb_le; exact Hk).
  apply Hc.
Qed.

Lemma level3_performs (i_block : Buffer) (B : Z) :
  length i_block = 60%nat -> 0 <= B ->
  performs
    (if level3Blocks B <=? 0 then ret true
     else bind (lift (readUint32LE i_block (14 * 4)))
            (fun l3 => blocksL3AreSafe inspector l3 (level3Blocks B)))
    (inOrder [specLevel inspector i_block B 2 (12 + 1024 + 1024 ^ 2)]).
Proof.
  intros Hlen HB. rewrite inOrder_single. unfold specLevel.
  assert (H3 : level3Blocks B
               = Z.min (1024 ^ 3) (B - (12 + 1024 + 1024 ^ 2))
                 \/ (level3Blocks B <= 0 /\ B - (12 + 1024 + 1024 ^ 2) <= 0)).
  { unfold level3Blocks, level2Blocks, level1Blocks, directBlocks,
      blockCounts.L1, blockCounts.L2, blockCounts.L3. lia. }
  destruct (Z.leb_spec (level3Blocks B) 0) as [Hle | Hgt].
  - replace (0 <? B - (12 + 1024 + 1024 ^ 2)) with false
      by (symmetry; apply Z.ltb_ge; lia).
    apply performs_ret_true.
  - replace (0 <? B - (12 + 1024 + 1024 ^ 2)) with true
      by (symmetry; apply Z.ltb_lt; lia).
    apply performs_read; [rewrite Hlen; simpl; lia|].
    destruct H3 as [H3 | ?]; [|lia]. rewrite H3 in *.
    change (Z.of_nat 3) with 3.
    apply blocksL3AreSafe_performs. lia.
Qed.

Lemma level2_performs (i_block : Buffer) (B : Z) :
  length i_block = 60%nat -> 0 <= B ->
  performs
    (if level2Blocks B <=? 0 then ret true
     else bind (lift (readUint32LE i_block (13 * 4)))
            (fun l2 =>
               bind (blocksL2AreSafe inspector l2 (level2Blocks B))
                 (fun safeL2 =>
                    if negb safeL2 then ret false
                    else if level3Blocks B <=? 0 then ret true
                         else bind (lift (readUint32LE i_block (14 * 4)))
                                (fun l3 => blocksL3AreSafe inspector l3
                                             (level3Blocks B)))))
    (inOrder [specLevel inspector i_block B 1 (12 + 1024);
              specLevel inspector i_block B 2 (12 + 1024 + 1024 ^ 2)]).
Proof.
  intros Hlen HB.
  assert (H2 : level2Blocks B = Z.min (1024 ^ 2) (B - (12 + 1024))
               \/ (level2Blocks B <= 0 /\ B - (12 + 1024) <= 0)).
  { unfold level2Blocks, level1Blocks, directBlocks,
      blockCounts.L1, blockCounts.L2. lia. }
  destruct (Z.leb_spec (level2Blocks B) 0) as [Hle | Hgt].
  - unfold specLevel.
    replace (0 <? B - (12 + 1024)) with false
      by (symmetry; apply Z.ltb_ge; lia).
    replace (0 <? B - (12 + 1024 + 1024 ^ 2)) with false
      by (symmetry; apply Z.ltb_ge; lia).
    apply performs_ret_true.
  - apply performs_read; [rewrite Hlen; simpl; lia|].
    apply performs_inOrder; [|now apply level3_performs].
    unfold specLevel.
    replace (0 <? B - (12 + 1024)) with true
      by (symmetry; apply Z.ltb_lt; lia).
    destruct H2 as [H2 | ?]; [|lia]. rewrite H2 in *.
    change (Z.of_nat 2) with 2.
    apply blocksL2AreSafe_performs. lia.
Qed.

Lemma level1_performs (i_block : Buffer) (B : Z) :
  length i_block = 60%nat -> 0 <= B ->
  performs
    (if level1Blocks B <=? 0 then ret true
     else bind (lift (readUint32LE i_block (12 * 4)))
            (fun l1 =>
               bind (blocksL1AreSafe inspector l1 (level1Blocks B))
                 (fun safeL1 =>
                    if negb safeL1 then ret false
                    else if level2Blocks B <=? 0 then ret true
                    else bind (lift (readUint32LE i_block (13 * 4)))
                      (fun l2 =>
                         bind (blocksL2AreSafe inspector l2 (level2Blocks B))
                           (fun safeL2 =>
                              if negb safeL2 then ret false
                              else if level3Blocks B <=? 0 then ret true
                              else bind (lift (readUint32LE i_block (14 * 4)))
                                     (fun l3 => blocksL3AreSafe inspector l3
                                                  (level3Blocks B)))))))
    (inOrder [specLevel inspector i_block B 0 12;
              specLevel inspector i_block B 1 (12 + 1024);
              specLevel inspector i_block B 2 (12 + 1024 + 1024 ^ 2)]).
Proof.
  intros Hlen HB.
  assert (H1 : level1Blocks B = Z.min (1024 ^ 1) (B - 12)
               \/ (level1Blocks B <= 0 /\ B - 12 <= 0)).
  { unfold level1Blocks, directBlocks, blockCounts.L1. lia. }
  destruct (Z.leb_spec (level1Blocks B) 0) as [Hle | Hgt].
  - unfold specLevel.
    replace (0 <? B - 12) with false by (symmetry; apply Z.ltb_ge; lia).
    replace (0 <? B - (12 + 1024)) with false
      by (symmetry; apply Z.ltb_ge; lia).
    replace (0 <? B - (12 + 1024 + 1024 ^ 2)) with false
      by (symmetry; apply Z.ltb_ge; lia).
    apply performs_ret_true.
  - apply performs_read; [rewrite Hlen; simpl; lia|].
    apply performs_inOrder; [|now apply level2_performs].
    unfold specLevel.
    replace (0 <? B - 12) with true by (symmetry; apply Z.ltb_lt; lia).
    destruct H1 as [H1 | ?]; [|lia]. rewrite H1 in *.
    change (Z.of_nat 1) with 1.
    apply blocksL1AreSafe_performs. lia.
Qed.

Lemma blocksAreSafe_performs (this : InodeInfo) (i_block : Buffer) (B : Z) :
  blocksInUse this = Ok B -> length i_block = 60%nat -> 0 <= B ->
  performs (blocksAreSafe inspector this i_block)
    (specClassic inspector i_block B).
Proof.
  intros HB Hlen HB0 w.
  change (specClassic inspector i_block B)
    with (inOrder
            (map (fun i => (Ok (blockIsSafe (pointerAt i_block i)), @nil Cmd))
               (List.filter (fun i => Z.of_nat i <? B) (seq 0 12))
             ++ [specLevel inspector i_block B 0 12;
                 specLevel inspector i_block B 1 (12 + 1024);
                 specLevel inspector i_block B 2 (12 + 1024 + 1024 ^ 2)])).
  rewrite (filter_seq_below _ (Z.to_nat B))
    by (intros i; rewrite Z.ltb_lt; lia).
  replace (Nat.min 12 (Z.to_nat B - 0)) with (Z.to_nat (directBlocks B))
    by (unfold directBlocks; lia).
  rewrite <- (map_map (fun i => blockIsSafe (pointerAt i_block i))
                (fun t : bool => (Ok t, @nil Cmd))).
  rewrite inOrder_tests.
  unfold blocksAreSafe. unfold bind at 1, lift at 1. rewrite HB.
  rewrite pointersAreSafe_forallb by (unfold directBlocks; lia).
  unfold bind at 1, lift at 1.
  replace (forallb (fun t : bool => t)
             (map (fun i => blockIsSafe (pointerAt i_block i))
                (seq 0 (Z.to_nat (directBlocks B)))))
    with (forallb blockIsSafe
            (map (pointerAt i_block) (seq 0 (Z.to_nat (directBlocks B)))))
    by (induction (seq 0 (Z.to_nat (directBlocks B))) as [|i l IH];
        [reflexivity | cbn [map forallb]; now rewrite IH]).
  destruct (forallb blockIsSafe
              (map (pointerAt i_block) (seq 0 (Z.to_nat (directBlocks B)))));
    cbn [negb].
  - apply (level1_performs i_block B Hlen HB0).
  - cbn [fst snd]. now rewrite withSent_nil.
Qed.

End ClassicRefinement.

(** C6.  With [blocksInUse = 13] the verdict is the conjunction of
    [blockIsSafe] over the 12 direct pointers and the first pointer of
    the single-indirect block, and the only block fetched is the
    single-indirect one (none at all when a direct pointer is unsafe).
    In general: the single-indirect walk consults the first
    [level1Blocks] pointers of its block and no other; the numbers of
    blocks asked of the direct, single-, double- and triple-indirect
    levels are capped at 12, 1024, 1024^2 and 1024^3 and add up to the
    blocks in use (or to the sum of the caps); and the pointers consulted
    in a double-indirect (triple-indirect) block are at most 1024, each
    asked for between 1 and 1024 (1024^2) blocks, as many in total as
    were asked of the level.  And the code does what the resolution the
    specification words does ([specIndirect], [specClassic]: in every
    block the entries consulted are those before which blocks are still
    needed, each for the blocks still needed of it): the single-, the
    double- and the triple-indirect walk, asked for a number of blocks
    within their cap, and the walk of a whole inode, whatever its number
    of blocks, return the same verdict or throw the same error, and
    fetch the same blocks in the same order. *)
Theorem blocksAreSafe_consults_needed :
  forall inspector : Cmd -> jsstring,
    (forall this (i_block : Buffer) w,
        blocksInUse this = Ok 13 ->
        length i_block = 60%nat ->
        blocksAreSafe inspector this i_block w
        = if forallb blockIsSafe (map (pointerAt i_block) (seq 0 12))
          then (match afterFirstLine (inspector (bd (pointerAt i_block 12))) with
                | Some hex => Ok (blockIsSafe (pointerAt (parseHex 4096 hex) 0))
                | None => Throw WeirdResponse
                end, withSent [bd (pointerAt i_block 12)] w)
          else (Ok false, w))
    /\ (forall blockNum n w,
           0 <= n <= 1024 ->
           blocksL1AreSafe inspector blockNum n w
           = (match afterFirstLine (inspector (bd blockNum)) with
              | Some hex =>
                  Ok (forallb blockIsSafe
                        (map (pointerAt (parseHex 4096 hex))
                           (seq 0 (Z.to_nat n))))
              | None => Throw WeirdResponse
              end, withSent [bd blockNum] w))
    /\ (forall B,
           0 <= B ->
           directBlocks B + level1Blocks B + level2Blocks B + level3Blocks B
           = Z.min B (12 + 1024 + 1024 ^ 2 + 1024 ^ 3)
           /\ 0 <= directBlocks B <= 12
           /\ 0 <= level1Blocks B <= 1024
           /\ 0 <= level2Blocks B <= 1024 ^ 2
           /\ 0 <= level3Blocks B <= 1024 ^ 3)
    /\ (forall L2,
           1 <= L2 <= 1024 ^ 2 ->
           let pointers := Z.to_nat (ceilDiv L2 blockIdsPerBlock) in
           (pointers <= 1024)%nat
           /\ sumTo (level1BlocksUnder L2) pointers = L2
           /\ forall i, (i < pointers)%nat ->
                        1 <= level1BlocksUnder L2 i <= 1024)
    /\ (forall L3,
           1 <= L3 <= 1024 ^ 3 ->
           let pointers := Z.to_nat (ceilDiv L3 (blockIdsPerBlock ^ 2)) in
           (pointers <= 1024)%nat
           /\ sumTo (level2BlocksUnder L3) pointers = L3
           /\ forall i, (i < pointers)%nat ->
                        1 <= level2BlocksUnder L3 i <= 1024 ^ 2)
    /\ (forall blockNum need,
           0 <= need <= 1024 ->
           performs (blocksL1AreSafe inspector blockNum need)
             (specIndirect inspector 0 blockNum need))
    /\ (forall blockNum need,
           1 <= need <= 1024 ^ 2 ->
           performs (blocksL2AreSafe inspector blockNum need)
             (specIndirect inspector 1 blockNum need))
    /\ (forall blockNum need,
           1 <= need <= 1024 ^ 3 ->
           performs (blocksL3AreSafe inspector blockNum need)
             (specIndirect inspector 2 blockNum need))
    /\ (forall this (i_block : Buffer) B,
           blocksInUse this = Ok B ->
           length i_block = 60%nat ->
           0 <= B ->
           performs (blocksAreSafe inspector this i_block)
             (specClassic inspector i_block B)).
Proof.
  intros inspector.
  split; [|split; [|split; [|split; [|split; [|split; [|split; [|split]]]]]]];
    [| | | | | apply blocksL1AreSafe_performs
     | apply blocksL2AreSafe_performs | apply blocksL3AreSafe_performs
     | apply blocksAreSafe_performs].
  - intros this i_block w. apply blocksAreSafe_13.
  - intros blockNum n w. apply blocksL1AreSafe_run.
  - apply level_counts.
  - intros L2 HL pointers. subst pointers.
    change blockIdsPerBlock with 1024.
    destruct (shares_sum 1024 L2 ltac:(lia) ltac:(lia)) as [Hsum Hshare].
    pose proof (ceilDiv_spec L2 1024 ltac:(lia)) as Hc.
    change (1024 ^ 2) with (1024 * 1024) in HL.
    split; [lia|]. split; [exact Hsum | exact Hshare].
  - intros L3 HL pointers. subst pointers.
    change (blockIdsPerBlock ^ 2) with 1048576.
    destruct (shares_sum 1048576 L3 ltac:(lia) ltac:(lia)) as [Hsum Hshare].
    pose proof (ceilDiv_spec L3 1048576 ltac:(lia)) as Hc.
    change (1024 ^ 3) with (1048576 * 1024) in HL.
    change (1024 ^ 2) with 1048576.
    split; [lia|]. split; [exact Hsum | exact Hshare].
Qed.

Lemma blocksAreSafe_consults_needed_witness :
  blocksAreSafe silentInspector thirteenBlocks (get_i_block thirteenBlocks) world0
  = (Ok true, withSent [bd 0] world0)
  /\ sumTo (level1BlocksUnder 1500) 2 = 1500
  /\ sumTo (level2BlocksUnder 1048577) 2 = 1048577
  /\ directBlocks 13 + level1Blocks 13 + level2Blocks 13 + level3Blocks 13 = 13
  /\ performs (blocksL2AreSafe silentInspector 7 1500)
       (specIndirect silentInspector 1 7 1500)
  /\ performs (blocksL3AreSafe silentInspector 7 1048577)
       (specIndirect silentInspector 2 7 1048577)
  /\ performs
       (blocksAreSafe silentInspector doubleIndirectFile
          (get_i_block doubleIndirectFile))
       (specClassic silentInspector (get_i_block doubleIndirectFile) 1037).
Proof.
  destruct (blocksAreSafe_consults_needed silentInspector)
    as (H13 & _ & Hcounts & HL2 & HL3 & _ & Hdouble & Htriple & Hwhole).
  split; [|split; [|split; [|split; [|split; [|split]]]]].
  - apply (H13 thirteenBlocks (get_i_block thirteenBlocks) world0);
      reflexivity.
  - apply (HL2 1500). lia.
  - apply (HL3 1048577). lia.
  - destruct (Hcounts 13 ltac:(lia)) as [Hsum _]. exact Hsum.
  - apply (Hdouble 7 1500). lia.
  - apply (Htriple 7 1048577). lia.
  - apply (Hwhole doubleIndirectFile (get_i_block doubleIndirectFile) 1037);
      [reflexivity | reflexivity | lia].
Defined.

(** ** Filesystem Walker *)

(** C3, at a failing input.  The root directory is undamaged and lists a
    symbolic link and a block device node.  The link's mode has the bit
    of [S_IFREG] set and the device's mode the bit of [S_IFDIR], so the
    walker runs the data-safety test on the link and reports it, and
    lists the device node as if it were a directory. *)
Theorem walker_does_not_ignore_special_files :
  fileType symlinkInfo = Ok S_IFLNK
  /\ isFile symlinkInfo = Ok true
  /\ fileType blockDeviceInfo = Ok S_IFBLK
  /\ isDir blockDeviceInfo = Ok true
  /\ let run := main deviceExists specialFilesInspector 2 (Some device) world0 in
     fst run = Ok tt
     /\ sent (snd run) = [stats; id_ 2; ls_p 2; id_ 12; id_ 13; ls_p 13]
     /\ console (snd run) = [str "Reading /dev/sdb1"; str "BAD /lnk"].
Proof. vm_compute. repeat split; reflexivity. Qed.

(** C4, at a failing input.  The root directory's only block lies in a
    damaged range.  The walker reports it and lists nothing, but the line
    it prints is [BAD ] followed by the empty path, not [BAD /]: the path
    of the root is the empty string, which [??] does not replace. *)
Theorem main_bad_root_report :
  let run := main deviceExists badRootInspector 1 (Some device) world0 in
  fst run = Ok tt
  /\ sent (snd run) = [stats; id_ ROOT_DIR_INODE]
  /\ console (snd run) = [str "Reading /dev/sdb1"; str "BAD "]
  /\ ~ In (str "BAD /") (console (snd run)).
Proof.
  vm_compute. repeat split; try reflexivity.
  intros [H | [H | []]]; discriminate H.
Qed.

(** The report of an unsafe directory is [BAD ] and its path, whatever
    the filesystem; for the root the path is empty. *)
Lemma recurse_unsafe inspector table fuel path inodeInfo w w1 :
  dataIsSafe inspector (S fuel) inodeInfo w = (Ok false, w1) ->
  recurse inspector table (S fuel) path inodeInfo w
  = (Ok tt, mkWorld (sent w1) (console w1 ++ [str "BAD " ++ path])
              (inodesVisited w1)).
Proof.
  intros H. cbn [recurse]. unfold bind at 1. rewrite H. reflexivity.
Qed.

(** When it is the storage of the root's inode record that is damaged
    (the inode table of group 0 starts inside a damaged range) and the
    root's block is not, the walker never tests the record of the root:
    it lists the root and reports the entries. *)
Lemma main_bad_root_record :
  inodeIsSafe {[ 0 := 4096 * 37465428 ]} ROOT_DIR_INODE = Ok false
  /\ let run := main deviceExists badTableInspector 1 (Some device) world0 in
     fst run = Ok tt
     /\ sent (snd run) = [stats; id_ ROOT_DIR_INODE; ls_p ROOT_DIR_INODE]
     /\ console (snd run)
        = [str "Reading /dev/sdb1"; str "BAD /lnk"; str "BAD /sda"].
Proof. vm_compute. repeat split; reflexivity. Qed.

(** ** Session Multiplexer *)

Section ExpectProofs.

Variable prompt : jsstring.

Local Abbreviation run := (Expect.run prompt).
Local Abbreviation step := (Expect.step prompt).

Lemma run_snoc st evs ev : run st (evs ++ [ev]) = step (run st evs) ev.
Proof. unfold Expect.run. now rewrite fold_left_app. Qed.

Lemma callCount_snoc evs ev :
  Expect.callCount (evs ++ [ev])
  = (Expect.callCount evs
     + match ev with Expect.next => 1 | _ => 0 end)%nat.
Proof.
  induction evs as [|e evs IH]; simpl.
  - destruct ev; reflexivity.
  - destruct e; rewrite IH; reflexivity.
Qed.

Lemma do_dispose_disposed st : disposed (Expect.do_dispose st).
Proof. repeat split. Qed.

(** Every state a disposed closure goes through. *)
Lemma run_after_dispose st evs :
  disposed st ->
  let m := Expect.callCount evs in
  run st evs
  = Expect.mk (skipn m (Expect.found st)) (Expect.sinceLastMatch st)
      (Some ExpectDisposed) [] false (Expect.calls st + m)
      (Expect.settled st
       ++ map (fun j => ((Expect.calls st + j)%nat,
                         afterDispose (Expect.found st) j)) (seq 0 m)).
Proof.
  intros (Hl & He & Hr).
  induction evs as [|ev evs IH] using rev_ind.
  - simpl. destruct st; simpl in *. subst.
    now rewrite Nat.add_0_r, app_nil_r.
  - rewrite run_snoc, callCount_snoc. cbv zeta in IH. rewrite IH.
    destruct ev; cbn [Expect.step Expect.listening];
      rewrite ?Nat.add_0_r; try reflexivity.
    + (* next *)
      unfold Expect.do_next; cbn [Expect.found Expect.streamError
        Expect.calls Expect.settled Expect.promiseResolvers
        Expect.sinceLastMatch Expect.listening].
      rewrite seq_app, map_app. cbn [seq map]. rewrite Nat.add_0_l.
      destruct (skipn (Expect.callCount evs) (Expect.found st))
        as [|r rest] eqn:Hd.
      * assert (Hnone : Expect.found st !! Expect.callCount evs = None).
        { apply lookup_ge_None. apply drop_nil_inv in Hd. exact Hd. }
        assert (Ha : afterDispose (Expect.found st) (Expect.callCount evs)
                     = Throw ExpectDisposed)
          by (unfold afterDispose; now rewrite Hnone).
        rewrite Ha.
        assert (Hd' : skipn (Expect.callCount evs + 1) (Expect.found st) = []).
        { apply drop_ge. apply lookup_ge_None in Hnone. lia. }
        rewrite Hd'. f_equal; [lia|]. now rewrite app_assoc.
      * assert (Hsome : Expect.found st !! Expect.callCount evs = Some r).
        { rewrite <- (Nat.add_0_r (Expect.callCount evs)).
          rewrite <- lookup_drop. now rewrite Hd. }
        assert (Ha : afterDispose (Expect.found st) (Expect.callCount evs)
                     = Ok r)
          by (unfold afterDispose; now rewrite Hsome).
        rewrite Ha.
        assert (Hd' : skipn (Expect.callCount evs + 1) (Expect.found st) = rest).
        { rewrite <- drop_drop. now rewrite Hd. }
        rewrite Hd'. f_equal; [lia|]. now rewrite app_assoc.
    + (* dispose *)
      unfold Expect.do_dispose, Expect.rejectAll;
        cbn [Expect.found Expect.streamError Expect.calls Expect.settled
             Expect.promiseResolvers Expect.sinceLastMatch Expect.listening
             map].
      now rewrite app_nil_r.
Qed.

(** *** The prompt search *)

Lemma literal_spec l s r : literal l s = Some r <-> s = l ++ r.
Proof.
  revert s. induction l as [|a l IH]; intros s; cbn [literal app].
  - split; [now intros [= ->] | now intros ->].
  - destruct s as [|b s]; [split; discriminate|].
    destruct (Z.eqb_spec a b) as [-> | Hne].
    + rewrite IH. split; [now intros -> | now intros [= ->]].
    + split; [discriminate | intros [= <- _]; now destruct Hne].
Qed.

Lemma literal_app l s r c :
  literal l s = Some r -> literal l (s ++ c) = Some (r ++ c).
Proof.
  rewrite !literal_spec. intros ->. now rewrite app_assoc.
Qed.

Lemma literal_app_inv l : forall s c r',
  literal l (s ++ c) = Some r' -> (length l <= length s)%nat ->
  exists r, literal l s = Some r.
Proof.
  induction l as [|a l IH]; intros s c r' H Hlen; cbn [literal].
  - now exists s.
  - destruct s as [|b s]; [simpl in Hlen; lia|].
    cbn [app literal] in H. destruct (a =? b); [|discriminate].
    apply (IH s c r' H). simpl in Hlen. lia.
Qed.

Lemma indexOf_bound p : forall s i,
  indexOf s p = Some i -> (i + length p <= length s)%nat.
Proof.
  induction s as [|x s IH]; intros i; cbn [indexOf].
  - destruct (literal p []) as [r|] eqn:E; [|discriminate].
    intros [= <-]. apply literal_length in E. lia.
  - destruct (literal p (x :: s)) as [r|] eqn:E.
    + intros [= <-]. apply literal_length in E. lia.
    + destruct (indexOf s p) as [i'|] eqn:Ei; [|discriminate].
      intros [= <-]. specialize (IH i' eq_refl). simpl. lia.
Qed.

Lemma indexOf_app p c : forall s i,
  indexOf s p = Some i -> indexOf (s ++ c) p = Some i.
Proof.
  induction s as [|x s IH]; intros i; cbn [indexOf].
  - destruct (literal p []) as [r|] eqn:E; [|discriminate].
    intros [= <-]. apply (literal_app _ _ _ c) in E.
    destruct ([] ++ c) as [|y t] eqn:Hc; cbn [indexOf]; now rewrite E.
  - destruct (literal p (x :: s)) as [r|] eqn:E.
    + intros [= <-]. apply (literal_app _ _ _ c) in E.
      cbn [app] in *. cbn [indexOf]. now rewrite E.
    + destruct (indexOf s p) as [i'|] eqn:Ei; [|discriminate].
      intros [= <-]. cbn [app indexOf].
      destruct (literal p (x :: s ++ c)) as [r'|] eqn:E'.
      * apply indexOf_bound in Ei.
        destruct (literal_app_inv p (x :: s) c r' E') as [r Hr];
          [simpl; lia | congruence].
      * now rewrite (IH i' eq_refl).
Qed.

Hypothesis prompt_nonempty : prompt <> [].

Lemma prompt_length : (1 <= length prompt)%nat.
Proof. destruct prompt; [congruence | simpl; lia]. Qed.

Lemma responses_loop_fuel f1 : forall f2 text,
  (length text < f1)%nat -> (length text < f2)%nat ->
  Expect.responses_loop prompt f1 text = Expect.responses_loop prompt f2 text.
Proof.
  pose proof prompt_length as Hp.
  induction f1 as [|f1 IH]; intros [|f2] text H1 H2; try lia.
  cbn [Expect.responses_loop].
  destruct (indexOf text prompt) as [index|] eqn:Ei; [|reflexivity].
  apply indexOf_bound in Ei.
  rewrite (IH f2); [reflexivity | |]; rewrite length_skipn; lia.
Qed.

(** Text that arrives in two pieces holds the responses of the first
    piece and then those of what the first piece left with the second. *)
Lemma responses_loop_app f : forall text chunk f' f'' rs rest rs2 rest2,
  (length text < f)%nat ->
  (length (text ++ chunk) < f')%nat ->
  (length (rest ++ chunk) < f'')%nat ->
  Expect.responses_loop prompt f text = (rs, rest) ->
  Expect.responses_loop prompt f'' (rest ++ chunk) = (rs2, rest2) ->
  Expect.responses_loop prompt f' (text ++ chunk) = (rs ++ rs2, rest2).
Proof.
  pose proof prompt_length as Hp.
  induction f as [|f IH];
    intros text chunk f' f'' rs rest rs2 rest2 Hf Hf' Hf'' H1 H2; [lia|].
  cbn [Expect.responses_loop] in H1.
  destruct (indexOf text prompt) as [index|] eqn:Ei.
  - destruct (Expect.responses_loop prompt f
                (skipn (index + length prompt) text)) as [rs1 rest1] eqn:E1.
    injection H1 as <- <-.
    pose proof (indexOf_bound _ _ _ Ei) as Hb.
    destruct f' as [|f']; [lia|]. cbn [Expect.responses_loop].
    rewrite (indexOf_app _ chunk _ _ Ei).
    rewrite drop_app_le by lia. rewrite take_app_le by lia.
    rewrite length_app in Hf'.
    rewrite (IH (skipn (index + length prompt) text) chunk f' f''
               rs1 rest1 rs2 rest2); try assumption.
    + reflexivity.
    + rewrite length_skipn. lia.
    + rewrite length_app, length_skipn. lia.
  - injection H1 as <- <-. cbn [app]. rewrite <- H2.
    apply responses_loop_fuel; assumption.
Qed.

Lemma indexOf_split p : forall s i,
  indexOf s p = Some i ->
  s = take i s ++ p ++ drop (i + length p) s
  /\ indexOf (take i s ++ p) p = Some (length (take i s)).
Proof.
  induction s as [|x s IH]; intros i; cbn [indexOf].
  - destruct (literal p []) as [r|] eqn:E; [|discriminate].
    intros [= <-]. pose proof E as E'. apply literal_spec in E as Hs.
    destruct p; [|discriminate Hs]. split; reflexivity.
  - destruct (literal p (x :: s)) as [r|] eqn:E.
    + intros [= <-]. pose proof E as Hs. apply literal_spec in Hs.
      split.
      * rewrite Hs at 1. cbn [take app Nat.add]. now rewrite Hs, drop_app_length.
      * cbn [take app length].
        assert (Hpp : literal p p = Some []) by (apply literal_spec; now rewrite app_nil_r).
        destruct p as [|a p']; cbn [indexOf]; now rewrite Hpp.
    + destruct (indexOf s p) as [i'|] eqn:Ei; [|discriminate].
      intros [= <-]. destruct (IH i' eq_refl) as [Hs Hfirst].
      split.
      * cbn [take app Nat.add drop]. now rewrite <- Hs.
      * cbn [take app length indexOf].
        destruct (literal p (x :: take i' s ++ p)) as [r'|] eqn:E'.
        -- apply (literal_app _ _ _ (drop (i' + length p) s)) in E'.
           cbn [app] in E'. rewrite <- app_assoc, <- Hs in E'. congruence.
        -- now rewrite Hfirst.
Qed.

(** The responses of a text, joined with the prompt, give back the text;
    the prompt ends each response joined with it and occurs nowhere
    before; and it does not occur in what is left. *)
Lemma responses_loop_join f : forall text rs rest,
  (length text < f)%nat ->
  Expect.responses_loop prompt f text = (rs, rest) ->
  text = concat (map (fun r => r ++ prompt) rs) ++ rest
  /\ Forall (fun r => indexOf (r ++ prompt) prompt = Some (length r)) rs
  /\ indexOf rest prompt = None.
Proof.
  pose proof prompt_length as Hp.
  induction f as [|f IH]; intros text rs rest Hf H; [lia|].
  cbn [Expect.responses_loop] in H.
  destruct (indexOf text prompt) as [index|] eqn:Ei.
  - destruct (Expect.responses_loop prompt f
                (skipn (index + length prompt) text)) as [rs1 rest1] eqn:E1.
    injection H as <- <-.
    pose proof (indexOf_bound _ _ _ Ei) as Hb.
    destruct (indexOf_split _ _ _ Ei) as [Hs Hfirst].
    assert (Hlen : (length (skipn (index + length prompt) text) < f)%nat)
      by (rewrite length_skipn; lia).
    destruct (IH _ _ _ Hlen E1) as (Hjoin & Hall & Hrest).
    split; [|split; [|exact Hrest]].
    + cbn [map concat]. rewrite <- !app_assoc, <- Hjoin. exact Hs.
    + constructor; assumption.
  - injection H as <- <-. split; [reflexivity|]. split; [constructor | exact Ei].
Qed.

Lemma lookForPrompt_loop_spec fuel : forall st,
  Expect.lookForPrompt_loop prompt fuel st
  = let '(rs, rest) :=
      Expect.responses_loop prompt fuel (Expect.sinceLastMatch st) in
    Expect.mk
      (Expect.found st ++ skipn (length (Expect.promiseResolvers st)) rs)
      rest (Expect.streamError st)
      (skipn (length rs) (Expect.promiseResolvers st))
      (Expect.listening st) (Expect.calls st)
      (Expect.settled st
       ++ zip_with (fun p r => (p, Ok r)) (Expect.promiseResolvers st) rs).
Proof.
  assert (Hstay : forall st,
             st = Expect.mk
                    (Expect.found st
                     ++ skipn (length (Expect.promiseResolvers st)) [])
                    (Expect.sinceLastMatch st) (Expect.streamError st)
                    (skipn (length (@nil jsstring)) (Expect.promiseResolvers st))
                    (Expect.listening st) (Expect.calls st)
                    (Expect.settled st
                     ++ zip_with (fun p r => (p, Ok r))
                          (Expect.promiseResolvers st) [])).
  { intros [fo si er pr li ca se]. cbn.
    rewrite drop_nil, zip_with_nil_r, !app_nil_r. reflexivity. }
  induction fuel as [|fuel IH]; intros st;
    cbn [Expect.lookForPrompt_loop Expect.responses_loop].
  - apply Hstay.
  - destruct (indexOf (Expect.sinceLastMatch st) prompt) as [index|];
      [|apply Hstay].
    destruct (Expect.promiseResolvers st) as [|p resolvers] eqn:Hr;
      rewrite IH;
      cbn [Expect.found Expect.sinceLastMatch Expect.streamError
           Expect.promiseResolvers Expect.listening Expect.calls
           Expect.settled];
      destruct (Expect.responses_loop prompt fuel
                  (skipn (index + length prompt) (Expect.sinceLastMatch st)))
        as [rs rest].
    + cbn [length skipn zip_with]. rewrite drop_nil, <- app_assoc.
      reflexivity.
    + cbn [length skipn zip_with]. rewrite <- app_assoc. reflexivity.
Qed.

Lemma received_snoc evs ev :
  Expect.received (evs ++ [ev])
  = Expect.received evs
    ++ match ev with Expect.data chunk => chunk | _ => [] end.
Proof.
  induction evs as [|e evs IH]; simpl.
  - destruct ev; simpl; now rewrite ?app_nil_r.
  - destruct e; rewrite IH; try reflexivity. now rewrite app_assoc.
Qed.

Lemma zip_seq_imap (rs : list jsstring) : forall a k,
  zip_with (fun (p : nat) r => (p, Ok r)) (seq a k) rs
  = imap (fun j r => ((a + j)%nat, Ok r)) (take k rs).
Proof.
  induction rs as [|r rs IH]; intros a k.
  - now rewrite zip_with_nil_r, take_nil.
  - destruct k as [|k]; [reflexivity|].
    cbn [seq zip_with take]. rewrite imap_cons, IH.
    rewrite Nat.add_0_r. f_equal.
    apply imap_ext. intros j x _. simpl. f_equal. lia.
Qed.

(** The state after a run without stream failure and without [dispose]. *)
Lemma quiet_run_state evs :
  forallb Expect.quiet evs = true ->
  let text := Expect.received evs in
  let n := Expect.callCount evs in
  forall rs rest,
    Expect.responses_loop prompt (S (length text)) text = (rs, rest) ->
    run Expect.init evs
    = Expect.mk (skipn n rs) rest None (seq (length rs) (n - length rs))
        true n (imap (fun k r => (k, Ok r)) (take n rs)).
Proof.
  induction evs as [|ev evs IH] using rev_ind; intros Hq text n rs rest Hrs.
  - subst text n. cbn [Expect.received Expect.responses_loop] in Hrs.
    destruct (indexOf [] prompt) as [index|] eqn:Ei.
    + apply indexOf_bound in Ei. pose proof prompt_length. simpl in Ei. lia.
    + injection Hrs as <- <-. reflexivity.
  - rewrite forallb_app in Hq. apply andb_true_iff in Hq as [Hq Hev].
    simpl in Hev. rewrite andb_true_r in Hev.
    subst text n. cbv zeta in IH. rewrite run_snoc.
    rewrite received_snoc in Hrs. rewrite callCount_snoc.
    destruct ev as [chunk| | | |]; try discriminate Hev.
    + (* data *)
      destruct (Expect.responses_loop prompt
                  (S (length (Expect.received evs))) (Expect.received evs))
        as [rs1 rest1] eqn:E1.
      rewrite (IH Hq rs1 rest1 eq_refl). rewrite Nat.add_0_r.
      cbn [Expect.step Expect.listening]. unfold Expect.onData, Expect.lookForPrompt.
      rewrite lookForPrompt_loop_spec.
      cbn [Expect.found Expect.sinceLastMatch Expect.streamError
           Expect.promiseResolvers Expect.listening Expect.calls
           Expect.settled].
      destruct (Expect.responses_loop prompt (S (length (rest1 ++ chunk)))
                  (rest1 ++ chunk)) as [rs2 rest2] eqn:E2.
      pose proof (responses_loop_app
                    (S (length (Expect.received evs))) (Expect.received evs)
                    chunk
                    (S (length (Expect.received evs ++ chunk)))
                    (S (length (rest1 ++ chunk)))
                    rs1 rest1 rs2 rest2
                    ltac:(lia) ltac:(lia) ltac:(lia) E1 E2) as Happ.
      rewrite Happ in Hrs. injection Hrs as <- <-.
      rewrite length_seq, drop_seq, length_app, drop_app, take_app.
      f_equal.
      * f_equal. lia.
      * rewrite imap_app, zip_seq_imap.
        destruct (decide (Expect.callCount evs <= length rs1)%nat) as [Hle|Hgt].
        -- replace (Expect.callCount evs - length rs1)%nat with O by lia.
           rewrite !take_0. reflexivity.
        -- rewrite (take_ge rs1) by lia. reflexivity.
    + (* next *)
      rewrite (IH Hq rs rest) by (now rewrite app_nil_r in Hrs).
      cbn [Expect.step]. unfold Expect.do_next.
      cbn [Expect.found Expect.sinceLastMatch Expect.streamError
           Expect.promiseResolvers Expect.listening Expect.calls
           Expect.settled].
      replace (Expect.callCount evs + 1)%nat with (S (Expect.callCount evs))
        by lia.
      destruct (skipn (Expect.callCount evs) rs) as [|r found'] eqn:Hd.
      * apply drop_nil_inv in Hd.
        rewrite (drop_ge rs (S _)) by lia.
        rewrite (take_ge rs (S _)), (take_ge rs (Expect.callCount evs)) by lia.
        f_equal.
        replace (S (Expect.callCount evs) - length rs)%nat
          with (S (Expect.callCount evs - length rs)) by lia.
        rewrite seq_S. f_equal. f_equal. lia.
      * assert (Hlook : rs !! Expect.callCount evs = Some r).
        { rewrite <- (Nat.add_0_r (Expect.callCount evs)).
          rewrite <- lookup_drop. now rewrite Hd. }
        pose proof (lookup_lt_Some _ _ _ Hlook) as Hlt.
        rewrite (take_S_r _ _ _ Hlook), imap_app.
        rewrite length_take_le by lia. cbn [imap]. rewrite Nat.add_0_r.
        replace (S (Expect.callCount evs) - length rs)%nat with O by lia.
        replace (Expect.callCount evs - length rs)%nat with O by lia.
        f_equal.
        replace (S (Expect.callCount evs)) with (Expect.callCount evs + 1)%nat
          by lia.
        rewrite <- drop_drop. now rewrite Hd.
Qed.


End ExpectProofs.

(** C8.  In a run of arriving chunks and calls of [next], without stream
    failure and without [dispose]: the [k]-th call of [next] is resolved
    with the [k]-th response of the text received, whatever the order in
    which calls and chunks came and however the text was cut into chunks;
    exactly the calls for which a response has arrived are settled, in
    call order; the responses beyond the calls made are buffered in arrival order, the
    calls beyond the responses received are pending in call order; a
    call made while a response is buffered is resolved with the oldest
    one in the same step.  The responses are the pieces of the received
    text that end at the successive leftmost occurrences of the prompt:
    joined with the prompt and followed by the text kept for later they
    give back the received text, and the prompt occurs neither inside a
    response nor in the text kept. *)
Theorem next_calls_resolved_in_arrival_order :
  forall (prompt : jsstring) (evs : list Expect.event),
    prompt <> [] ->
    forallb Expect.quiet evs = true ->
    let st := Expect.run prompt Expect.init evs in
    let rs := Expect.responses prompt (Expect.received evs) in
    let n := Expect.callCount evs in
    Expect.settled st = imap (fun k r => (k, Ok r)) (take n rs)
    /\ (forall k r, In (k, Ok r) (Expect.settled st)
                    <-> (k < n)%nat /\ rs !! k = Some r)
    /\ Expect.found st = drop n rs
    /\ Expect.promiseResolvers st = seq (length rs) (n - length rs)
    /\ (forall r, rs !! n = Some r ->
                  Expect.settled (Expect.step prompt st Expect.next)
                  = Expect.settled st ++ [(n, Ok r)])
    /\ Expect.received evs
       = concat (map (fun r => r ++ prompt) rs) ++ Expect.sinceLastMatch st
    /\ Forall (fun r => indexOf (r ++ prompt) prompt = Some (length r)) rs
    /\ indexOf (Expect.sinceLastMatch st) prompt = None.
Proof.
  intros prompt evs Hp Hq st rs n.
  destruct (Expect.responses_loop prompt
              (S (length (Expect.received evs))) (Expect.received evs))
    as [rs' rest] eqn:E.
  assert (Hrs : rs = rs') by (subst rs; unfold Expect.responses; now rewrite E).
  pose proof (quiet_run_state prompt Hp evs Hq rs' rest E) as Hst.
  pose proof (responses_loop_join prompt Hp _ _ _ _ (Nat.lt_succ_diag_r _) E)
    as (Hjoin & Hfirst & Hrest).
  fold st in Hst. fold n in Hst. rewrite <- Hrs in Hst, Hjoin, Hfirst.
  clear E Hrs rs'.
  assert (Hsince : Expect.sinceLastMatch st = rest) by now rewrite Hst.
  assert (Hsettled : Expect.settled st
                     = imap (fun k r => (k, Ok r)) (take n rs))
    by now rewrite Hst.
  assert (Hfound : Expect.found st = drop n rs) by now rewrite Hst.
  split; [exact Hsettled|].
  split; [|split; [exact Hfound|split; [|split; [|split; [|split]]]]];
    [| | |now rewrite Hsince|exact Hfirst|now rewrite Hsince].
  - intros k r. rewrite Hsettled, <- list_elem_of_In, elem_of_lookup_imap.
    split.
    + intros (i & y & [= -> ->] & Hl). apply lookup_take_Some in Hl. tauto.
    + intros [Hk Hl]. exists k, r. split; [reflexivity|].
      apply lookup_take_Some. tauto.
  - now rewrite Hst.
  - intros r Hr. cbn [Expect.step]. unfold Expect.do_next.
    assert (Hd : Expect.found st = r :: drop (S n) rs).
    { rewrite Hfound. now apply drop_S. }
    rewrite Hd. cbn [Expect.settled].
    now replace (Expect.calls st) with n by now rewrite Hst.
Qed.

Lemma next_calls_resolved_in_arrival_order_witness :
  let st := Expect.run debugfsPrompt Expect.init
              [Expect.next; Expect.next;
               Expect.data (str "debugfs: bd 7 debugfs:");
               Expect.data (str " id <2> deb"); Expect.data (str "ugfs: stats debugfs:")] in
  In (0%nat, Ok (str "")) (Expect.settled st)
  /\ In (1%nat, Ok (str " bd 7 ")) (Expect.settled st)
  /\ Expect.found st = [str " id <2> "; str " stats "].
Proof.
  intros st.
  destruct (next_calls_resolved_in_arrival_order debugfsPrompt
              [Expect.next; Expect.next;
               Expect.data (str "debugfs: bd 7 debugfs:");
               Expect.data (str " id <2> deb");
               Expect.data (str "ugfs: stats debugfs:")])
    as (_ & Hin & Hfound & _).
  - discriminate.
  - reflexivity.
  - split; [|split].
    + apply Hin. split; [simpl; lia | reflexivity].
    + apply Hin. split; [simpl; lia | reflexivity].
    + subst st. rewrite Hfound. reflexivity.
Defined.

(** C9, as the specification words it, fails: a response that was
    buffered when [dispose] was called is still handed to the next call
    of [next], which does not fail. *)
Lemma dispose_keeps_buffered_response :
  let st := Expect.run debugfsPrompt Expect.init
              [Expect.data (str "banner debugfs:"); Expect.dispose;
               Expect.next] in
  Expect.settled st = [(0%nat, Ok (str "banner "))]
  /\ ~ In (0%nat, Throw ExpectDisposed) (Expect.settled st).
Proof.
  vm_compute. split; [reflexivity|].
  intros [H | []]. discriminate H.
Qed.

(** C9, amended.  After [dispose()], every call of [next] that was
    pending at that moment has failed with the "disposed" error, and
    nothing is pending any more.  A call made afterwards is settled at
    once: it fails with the "disposed" error when no response is
    buffered, and is otherwise resolved with the oldest response that
    was buffered when [dispose] was called; stream events no longer
    reach the closure. *)
Theorem dispose_rejects_pending_and_unbuffered :
  forall (prompt : jsstring) (st : Expect.t) (evs : list Expect.event),
    let st1 := Expect.do_dispose st in
    let st2 := Expect.run prompt st1 evs in
    Expect.settled st1
    = Expect.settled st
      ++ map (fun p => (p, Throw ExpectDisposed)) (Expect.promiseResolvers st)
    /\ (forall p, In p (Expect.promiseResolvers st) ->
                  In (p, Throw ExpectDisposed) (Expect.settled st2))
    /\ Expect.promiseResolvers st2 = []
    /\ Expect.settled st2
       = Expect.settled st1
         ++ map (fun j => ((Expect.calls st + j)%nat,
                           afterDispose (Expect.found st) j))
              (seq 0 (Expect.callCount evs))
    /\ (forall j, (length (Expect.found st) <= j)%nat ->
                  afterDispose (Expect.found st) j = Throw ExpectDisposed)
    /\ (forall j r, Expect.found st !! j = Some r ->
                    afterDispose (Expect.found st) j = Ok r).
Proof.
  intros prompt st evs st1 st2.
  pose proof (run_after_dispose prompt st1 evs (do_dispose_disposed st)) as Hrun.
  cbv zeta in Hrun. fold st2 in Hrun.
  assert (H1 : Expect.settled st1
               = Expect.settled st
                 ++ map (fun p => (p, Throw ExpectDisposed))
                      (Expect.promiseResolvers st)) by reflexivity.
  assert (H2 : Expect.settled st2
               = Expect.settled st1
                 ++ map (fun j => ((Expect.calls st + j)%nat,
                                   afterDispose (Expect.found st) j))
                      (seq 0 (Expect.callCount evs)))
    by now rewrite Hrun.
  split; [exact H1|]. split; [|split; [|split; [exact H2|split]]].
  - intros p Hp. rewrite H2, H1. apply in_or_app. left.
    apply in_or_app. right.
    exact (in_map (fun p => (p, Throw (A:=jsstring) ExpectDisposed)) _ _ Hp).
  - now rewrite Hrun.
  - intros j Hj. unfold afterDispose.
    now rewrite (proj2 (lookup_ge_None _ _) Hj).
  - intros j r Hr. unfold afterDispose. now rewrite Hr.
Qed.

Lemma dispose_rejects_pending_and_unbuffered_witness :
  let st := Expect.run debugfsPrompt Expect.init
              [Expect.next; Expect.next; Expect.data (str "debugfs: st")] in
  let st2 := Expect.run debugfsPrompt (Expect.do_dispose st)
               [Expect.data (str "ats debugfs:"); Expect.next] in
  In (1%nat, Throw ExpectDisposed) (Expect.settled st2)
  /\ In (2%nat, Throw ExpectDisposed) (Expect.settled st2).
Proof.
  intros st st2.
  destruct (dispose_rejects_pending_and_unbuffered debugfsPrompt st
              [Expect.data (str "ats debugfs:"); Expect.next])
    as (_ & Hpending & _ & Hsettled & _).
  fold st2 in Hpending, Hsettled.
  split.
  - apply Hpending. vm_compute. auto.
  - rewrite Hsettled. apply in_or_app. right. vm_compute. auto.
Defined.

(** * Further properties of the code *)

(** ** Bad-Region Index: intervals and blocks *)

Lemma rangeIsSafe_mono start end_ start' end_' :
  start <= start' -> end_' <= end_ ->
  rangeIsSafe start end_ = true ->
  rangeIsSafe start' end_' = true.
Proof.
  intros Hs He Hsafe.
  destruct (rangeIsSafe start' end_') eqn:E; [reflexivity|].
  apply rangeIsSafeIn_false in E as (r & Hin & Hr1 & Hr2).
  assert (Hfalse : rangeIsSafe start end_ = false).
  { apply rangeIsSafeIn_false. exists r. split; [exact Hin|].
    unfold intersects. lia. }
  congruence.
Qed.

(** X1.  The query is monotone in the interval: when [[start, end_)] is
    safe, every interval inside it is safe. *)
Theorem rangeIsSafe_subinterval :
  forall start end_ start' end_' : Z,
    start <= start' -> end_' <= end_ ->
    rangeIsSafe start end_ = true ->
    rangeIsSafe start' end_' = true.
Proof. exact rangeIsSafe_mono. Qed.

Lemma rangeIsSafe_subinterval_witness :
  rangeIsSafe 4096 8192 = true.
Proof.
  apply (rangeIsSafe_subinterval 0 40960 4096 8192); [lia | lia | reflexivity].
Defined.

Lemma badRanges_positive :
  Forall (fun r => 0 < Range.length r) badRanges.
Proof. unfold badRanges. repeat constructor. Qed.

(** X2.  The test of an extent run is the test of its blocks: a run of
    at least one block is safe exactly when [blockIsSafe] holds of every
    block of the run. *)
Theorem extent_run_safe_iff_blocks_safe :
  forall firstBlockNum blockCount : Z,
    1 <= blockCount ->
    (rangeIsSafe (firstBlockNum * 4096) ((firstBlockNum + blockCount) * 4096)
     = true
     <-> forall b, firstBlockNum <= b < firstBlockNum + blockCount ->
                   blockIsSafe b = true).
Proof.
  intros fb cnt Hcnt. split.
  - intros Hsafe b Hb. unfold blockIsSafe.
    apply (rangeIsSafe_mono (fb * 4096) ((fb + cnt) * 4096));
      [lia | lia | exact Hsafe].
  - intros Hall.
    destruct (rangeIsSafe (fb * 4096) ((fb + cnt) * 4096)) eqn:E;
      [reflexivity|].
    apply rangeIsSafeIn_false in E as (r & Hin & Hr1 & Hr2).
    pose proof badRanges_positive as Hpos.
    rewrite List.Forall_forall in Hpos. specialize (Hpos r Hin).
    set (x := Z.max (fb * 4096) (Range.start r)).
    assert (Hx : fb * 4096 <= x < (fb + cnt) * 4096) by lia.
    assert (Hxr : Range.start r <= x < Range.start r + Range.length r) by lia.
    pose proof (Z.div_mod x 4096 ltac:(lia)) as Hdm.
    pose proof (Z.mod_pos_bound x 4096 ltac:(lia)) as Hm.
    assert (Hb : fb <= x / 4096 < fb + cnt) by lia.
    specialize (Hall (x / 4096) Hb).
    assert (Hfalse : blockIsSafe (x / 4096) = false).
    { unfold blockIsSafe. apply rangeIsSafeIn_false.
      exists r. split; [exact Hin|]. unfold intersects. lia. }
    congruence.
Qed.

Lemma extent_run_safe_iff_blocks_safe_witness :
  blockIsSafe 11 = true.
Proof.
  apply (proj1 (extent_run_safe_iff_blocks_safe 10 2 ltac:(lia)));
    [reflexivity | lia].
Defined.

(** ** Inode Table Locator: the records of a group *)



(** ** Decoded buffers and inode records *)

Lemma toUint8_range v : 0 <= toUint8 v < 256.
Proof.
  destruct v as [n|]; simpl; [|lia]. apply Z.mod_pos_bound. lia.
Qed.

Lemma storeBytes_octets start ws count : forall i (b : Buffer),
  octets b -> octets (storeBytes start ws count i b).
Proof.
  induction count as [|count IH]; intros i b Hb; cbn [storeBytes];
    [exact Hb|].
  apply IH. destruct (0 <=? start + Z.of_nat i); [|exact Hb].
  apply Forall_insert; [exact Hb | apply toUint8_range].
Qed.

Lemma parseHex_octets size hex : octets (parseHex size hex).
Proof.
  unfold parseHex.
  assert (H0 : octets (Buffer_alloc size)).
  { unfold octets, Buffer_alloc. induction size; simpl; constructor; auto; lia. }
  generalize (Buffer_alloc size) H0. generalize 0%nat.
  induction (S (length hex)) as [|fuel IH]; intros li b Hb;
    cbn [parseHex_loop]; [exact Hb|].
  destruct (parseHexRegex_exec hex li) as [[[offset ws] li']|]; [|exact Hb].
  destruct (parseInt offset 8); apply IH; [|exact Hb].
  now apply storeBytes_octets.
Qed.

Lemma byteAt_octet (b : Buffer) i : octets b -> 0 <= byteAt b i < 256.
Proof.
  intros Hb. rewrite byteAt_lookup.
  destruct (b !! i) as [x|] eqn:E; simpl; [|lia].
  unfold octets in Hb. rewrite Forall_lookup in Hb. exact (Hb i x E).
Qed.

Lemma readUint32LE_octets (b : Buffer) off :
  octets b -> (off + 4 <= length b)%nat ->
  exists v, readUint32LE b off = Ok v /\ 0 <= v < 2 ^ 32.
Proof.
  intros Hb Hoff. unfold readUint32LE.
  replace (off + 4 <=? length b)%nat with true
    by (symmetry; apply Nat.leb_le; lia).
  eexists. split; [reflexivity|].
  pose proof (byteAt_octet b off Hb). pose proof (byteAt_octet b (off + 1) Hb).
  pose proof (byteAt_octet b (off + 2) Hb).
  pose proof (byteAt_octet b (off + 3) Hb).
  change (2 ^ 32) with 4294967296. lia.
Qed.

Lemma readUint16LE_octets (b : Buffer) off :
  octets b -> (off + 2 <= length b)%nat ->
  exists v, readUint16LE b off = Ok v /\ 0 <= v < 2 ^ 16.
Proof.
  intros Hb Hoff. unfold readUint16LE.
  replace (off + 2 <=? length b)%nat with true
    by (symmetry; apply Nat.leb_le; lia).
  eexists. split; [reflexivity|].
  pose proof (byteAt_octet b off Hb). pose proof (byteAt_octet b (off + 1) Hb).
  change (2 ^ 16) with 65536. lia.
Qed.

(** X4.  Every byte of a decoded buffer is an octet, whatever the text
    holds (words that are not hexadecimal are stored as 0).  A 16-bit or
    32-bit read that lies inside a decoded buffer returns an unsigned
    value of that width; a read that reaches beyond its end throws. *)
Theorem decoded_buffer_reads :
  forall (size : nat) (hex : jsstring) (off : nat),
    octets (parseHex size hex)
    /\ ((off + 4 <= size)%nat ->
        exists v, readUint32LE (parseHex size hex) off = Ok v
                  /\ 0 <= v < 2 ^ 32)
    /\ ((off + 2 <= size)%nat ->
        exists v, readUint16LE (parseHex size hex) off = Ok v
                  /\ 0 <= v < 2 ^ 16)
    /\ ((size < off + 4)%nat ->
        readUint32LE (parseHex size hex) off = Throw ERR_OUT_OF_RANGE)
    /\ ((size < off + 2)%nat ->
        readUint16LE (parseHex size hex) off = Throw ERR_OUT_OF_RANGE).
Proof.
  intros size hex off.
  pose proof (parseHex_octets size hex) as Hoct.
  pose proof (parseHex_length size hex) as Hlen.
  split; [exact Hoct|]. split; [|split; [|split]].
  - intros H. apply readUint32LE_octets; [exact Hoct | lia].
  - intros H. apply readUint16LE_octets; [exact Hoct | lia].
  - intros H. unfold readUint32LE. rewrite Hlen.
    now replace (off + 4 <=? size)%nat with false
      by (symmetry; apply Nat.leb_gt; lia).
  - intros H. unfold readUint16LE. rewrite Hlen.
    now replace (off + 2 <=? size)%nat with false
      by (symmetry; apply Nat.leb_gt; lia).
Qed.

Lemma decoded_buffer_reads_witness :
  (exists v, readUint32LE (parseHex 256 badRootReply) 0x28 = Ok v
             /\ 0 <= v < 2 ^ 32)
  /\ readUint32LE (parseHex 256 badRootReply) 253 = Throw ERR_OUT_OF_RANGE.
Proof.
  destruct (decoded_buffer_reads 256 badRootReply 0x28) as (_ & H32 & _).
  destruct (decoded_buffer_reads 256 badRootReply 253) as (_ & _ & _ & Hout & _).
  split; [apply H32; lia | apply Hout; lia].
Defined.

(** X5.  On a decoded inode record none of the getters throws; the
    block-mapping area has 60 bytes; [blocksInUse] lies between 0 and
    2^20, because it comes from a 32-bit byte count; and therefore the
    classic walk asks no block of the triple-indirect level. *)
Theorem decoded_inode_getters :
  forall (id : Z) (name hex : jsstring),
    let this := new_InodeInfo id name hex in
    (exists dir file extents,
        isDir this = Ok dir /\ isFile this = Ok file
        /\ usesExtents this = Ok extents)
    /\ length (get_i_block this) = 60%nat
    /\ exists B, blocksInUse this = Ok B
                 /\ 0 <= B <= 2 ^ 20
                 /\ level3Blocks B = 0.
Proof.
  intros id0 name0 hex this.
  pose proof (parseHex_octets 256 hex) as Hoct.
  pose proof (parseHex_length 256 hex) as Hlen.
  destruct (readUint16LE_octets _ 0 Hoct ltac:(lia)) as (mode & Hmode & _).
  destruct (readUint32LE_octets _ 0x20 Hoct ltac:(lia)) as (flags & Hflags & _).
  destruct (readUint32LE_octets _ 0x04 Hoct ltac:(lia)) as (bytes & Hbytes & Hb).
  split; [|split].
  - unfold isDir, isFile, usesExtents. subst this. cbn [buf new_InodeInfo].
    rewrite Hmode, Hflags. cbn [result_bind].
    do 3 eexists. repeat split; reflexivity.
  - unfold get_i_block, Buffer_slice. subst this. cbn [buf new_InodeInfo].
    rewrite length_take, length_drop, Hlen. reflexivity.
  - unfold blocksInUse. subst this. cbn [buf new_InodeInfo].
    rewrite Hbytes. cbn [result_bind]. eexists. split; [reflexivity|].
    pose proof (ceilDiv_spec bytes 4096 ltac:(lia)) as Hc.
    change (2 ^ 32) with 4294967296 in Hb. change (2 ^ 20) with 1048576.
    assert (HB : 0 <= ceilDiv bytes 4096 <= 1048576) by lia.
    split; [exact HB|].
    unfold level3Blocks, level2Blocks, level1Blocks, directBlocks,
      blockCounts.L1, blockCounts.L2, blockCounts.L3.
    change (1024 ^ 2) with 1048576. change (1024 ^ 3) with 1073741824.
    lia.
Qed.

(** ** Extent leaves in the inode *)

Lemma leafEntries_in_i_block inspector self (b : Buffer) :
  length b = 60%nat ->
  forall count i w,
    (i <= 4)%nat ->
    extentEntriesAreSafe inspector self b true count i w
    = (if forallb (leafRunSafe b) (seq i (Nat.min count (4 - i)))
       then if (count <=? 4 - i)%nat then Ok true
            else Throw ERR_OUT_OF_RANGE
       else Ok false, w).
Proof.
  intros Hlen. induction count as [|count IH]; intros i w Hi.
  - reflexivity.
  - cbn [extentEntriesAreSafe].
    destruct (decide (i = 4)%nat) as [-> | Hne].
    + unfold bind at 1, lift at 1, readUint32LE. rewrite Hlen. reflexivity.
    + assert (Hi' : (i < 4)%nat) by lia.
      replace (Nat.min (S count) (4 - i)) with (S (Nat.min count (4 - S i)))
        by lia.
      replace (S count <=? 4 - i)%nat with (count <=? 4 - S i)%nat
        by (destruct (Nat.leb_spec count (4 - S i));
            destruct (Nat.leb_spec (S count) (4 - i)); lia).
      cbn [seq forallb]. unfold leafRunSafe at 1.
      unfold bind at 1, lift at 1.
      assert (H32 : (12 * (i + 1) + 8 + 4 <=? length b)%nat = true)
        by (apply Nat.leb_le; lia).
      assert (H16 : (12 * (i + 1) + 4 + 2 <=? length b)%nat = true)
        by (apply Nat.leb_le; lia).
      unfold readUint32LE at 1 2. rewrite H32.
      unfold bind at 1, lift at 1.
      unfold readUint16LE at 1 2. rewrite H16.
      match goal with
      | |- context [rangeIsSafe ?a ?c] => destruct (rangeIsSafe a c)
      end; cbn [negb andb]; [|reflexivity].
      apply IH. lia.
Qed.

(** X6.  An extent leaf held in the inode's 60-byte area has room for
    four entries.  With an entry count of at most four the verdict is
    the conjunction of the runs and nothing throws; with a larger count
    the walk returns unsafe when one of the first four runs is unsafe,
    and otherwise throws a [RangeError] on reading the fifth entry.  No
    command is sent in either case. *)
Theorem extent_leaf_in_inode :
  forall (inspector : Cmd -> jsstring) (b : Buffer) (entryCount : Z)
         (fuel : nat) (w : World),
    length b = 60%nat ->
    readUint16LE b 0x02 = Ok entryCount ->
    readUint16LE b 0x06 = Ok 0 ->
    extentsAreSafe inspector (S fuel) b w
    = (if forallb (leafRunSafe b)
            (seq 0 (Nat.min (Z.to_nat entryCount) 4))
       then if entryCount <=? 4 then Ok true else Throw ERR_OUT_OF_RANGE
       else Ok false, w).
Proof.
  intros inspector b entryCount fuel w Hlen Hcount Hdepth.
  cbn [extentsAreSafe]. unfold bind at 1, lift at 1. rewrite Hcount.
  unfold bind at 1, lift at 1. rewrite Hdepth. change (0 =? 0) with true.
  rewrite (leafEntries_in_i_block inspector _ b Hlen) by lia.
  replace (4 - 0)%nat with 4%nat by lia.
  replace (Z.to_nat entryCount <=? 4)%nat with (entryCount <=? 4);
    [reflexivity|].
  destruct (Z.leb_spec entryCount 4); destruct (Nat.leb_spec (Z.to_nat entryCount) 4);
    try reflexivity; lia.
Qed.

Lemma extent_leaf_in_inode_witness :
  extentsAreSafe silentInspector 1 sixEntryLeaf world0
  = (Throw ERR_OUT_OF_RANGE, world0)
  /\ extentsAreSafe silentInspector 1 oneExtentLeaf world0 = (Ok true, world0).
Proof.
  split.
  - apply (extent_leaf_in_inode silentInspector sixEntryLeaf 6 0 world0);
      reflexivity.
  - apply (extent_leaf_in_inode silentInspector oneExtentLeaf 1 0 world0);
      reflexivity.
Defined.

(** ** The inspector session: replies *)

Lemma afterFirstLine_split echo rest :
  Forall (fun c => c <> 10) echo ->
  afterFirstLine (echo ++ 10 :: rest) = Some rest.
Proof.
  induction 1 as [|c echo Hc _ IH]; cbn [app afterFirstLine].
  - reflexivity.
  - destruct (Z.eqb_spec c 10); [contradiction | exact IH].
Qed.

Lemma afterFirstLine_none s :
  Forall (fun c => c <> 10) s -> afterFirstLine s = None.
Proof.
  induction 1 as [|c s Hc _ IH]; cbn [afterFirstLine]; [reflexivity|].
  destruct (Z.eqb_spec c 10); [contradiction | exact IH].
Qed.

(** X7.  [debugfsCmd] writes its command and returns what follows the
    first line feed of the reply, the echoed command line being dropped.
    A reply that ends with its first line feed gives the empty string
    and is no error; only a reply without any line feed makes it throw,
    and the command has been written all the same. *)
Theorem debugfsCmd_strips_echo :
  forall (inspector : Cmd -> jsstring) (cmd : Cmd) (w : World),
    (forall echo rest,
        inspector cmd = echo ++ 10 :: rest ->
        Forall (fun c => c <> 10) echo ->
        debugfsCmd inspector cmd w = (Ok rest, withSent [cmd] w))
    /\ (Forall (fun c => c <> 10) (inspector cmd) ->
        debugfsCmd inspector cmd w = (Throw WeirdResponse, withSent [cmd] w)).
Proof.
  intros inspector cmd w. split.
  - intros echo rest Hreply Hecho.
    rewrite debugfsCmd_run, Hreply. now rewrite afterFirstLine_split.
  - intros Hnone. rewrite debugfsCmd_run. now rewrite afterFirstLine_none.
Qed.

Lemma debugfsCmd_strips_echo_witness :
  debugfsCmd silentInspector (bd 7) world0 = (Ok [], withSent [bd 7] world0)
  /\ debugfsCmd noLineInspector (bd 7) world0
     = (Throw WeirdResponse, withSent [bd 7] world0).
Proof.
  destruct (debugfsCmd_strips_echo silentInspector (bd 7) world0) as [Hok _].
  destruct (debugfsCmd_strips_echo noLineInspector (bd 7) world0) as [_ Hno].
  split.
  - apply (Hok (str "debugfs: ") []); [reflexivity|].
    repeat constructor; discriminate.
  - apply Hno. repeat constructor; discriminate.
Defined.

(** ** The directory listing *)

Lemma takeWhile_dropWhile p s : s = takeWhile p s ++ dropWhile p s.
Proof.
  induction s as [|c s IH]; cbn [takeWhile dropWhile]; [reflexivity|].
  destruct (p c); [cbn [app]; now rewrite <- IH | reflexivity].
Qed.

Lemma takeWhile_all p s : Forall (fun c => p c = true) (takeWhile p s).
Proof.
  induction s as [|c s IH]; cbn [takeWhile]; [constructor|].
  destruct (p c) eqn:E; constructor; assumption.
Qed.

Lemma takeSome_spec p s w r :
  takeSome p s = Some (w, r) ->
  w <> [] /\ Forall (fun c => p c = true) w /\ s = w ++ r.
Proof.
  unfold takeSome. pose proof (takeWhile_all p s) as Hall.
  pose proof (takeWhile_dropWhile p s) as Hs.
  destruct (takeWhile p s) as [|c t]; [discriminate|].
  intros [= <- <-]. repeat split; [discriminate | exact Hall | exact Hs].
Qed.

Lemma jsstring_eqb_eq a : forall b, jsstring_eqb a b = true <-> a = b.
Proof.
  induction a as [|x a IH]; intros [|y b]; cbn [jsstring_eqb];
    try (split; [discriminate | discriminate]); [tauto|].
  rewrite andb_true_iff, IH, Z.eqb_eq. split.
  - now intros [-> ->].
  - now intros [= -> ->].
Qed.

Lemma digitValue_nonneg c d : digitValue c = Some d -> 0 <= d.
Proof.
  unfold digitValue, isDigit.
  destruct ((48 <=? c) && (c <=? 57)) eqn:E1.
  - intros [= <-]. apply andb_true_iff in E1 as [E _]. lia.
  - destruct ((97 <=? c) && (c <=? 122)) eqn:E2.
    + intros [= <-]. apply andb_true_iff in E2 as [E _]. lia.
    + destruct ((65 <=? c) && (c <=? 90)) eqn:E3; [|discriminate].
      intros [= <-]. apply andb_true_iff in E3 as [E _]. lia.
Qed.

Lemma digitsPrefix_nonneg radix s : forall acc,
  0 <= radix -> 0 <= default 0 acc ->
  0 <= default 0 (digitsPrefix radix acc s).
Proof.
  induction s as [|c s IH]; intros acc Hr Hacc; cbn [digitsPrefix];
    [exact Hacc|].
  destruct (digitValue c) as [d|] eqn:Ed; [|exact Hacc].
  destruct (d <? radix); [|exact Hacc].
  apply IH; [exact Hr|]. apply digitValue_nonneg in Ed. simpl. nia.
Qed.

Lemma decimalValue_nonneg digits : 0 <= decimalValue digits.
Proof. unfold decimalValue. apply digitsPrefix_nonneg; simpl; lia. Qed.

Lemma toNumber_Some digits v :
  toNumber digits = Some v -> v = decimalValue digits /\ 0 <= v <= 2 ^ 53.
Proof.
  unfold toNumber. pose proof (decimalValue_nonneg digits).
  destruct (Z.leb_spec (decimalValue digits) (2 ^ 53)); [|discriminate].
  intros [= <-]. lia.
Qed.

Lemma toNumber_exact digits :
  decimalValue digits <= 2 ^ 53 ->
  toNumber digits = Some (decimalValue digits).
Proof.
  intros H. unfold toNumber.
  now destruct (Z.leb_spec (decimalValue digits) (2 ^ 53)); [|lia].
Qed.

Lemma dirEntryPattern_spec s ino nm len :
  dirEntryPattern s = Some ((ino, nm), len) ->
  nm <> [] /\ ~ In 47 nm /\ (1 <= len <= length s)%nat.
Proof.
  unfold dirEntryPattern.
  repeat match goal with
         | |- context [match literal ?l ?t with _ => _ end] =>
             let E := fresh "E" in
             destruct (literal l t) eqn:E; [|discriminate]
         | |- context [match takeSome ?p ?t with _ => _ end] =>
             let E := fresh "E" in
             destruct (takeSome p t) as [[? ?]|] eqn:E; [|discriminate]
         end.
  intros [= <- <- <-].
  repeat match goal with
         | H : literal _ _ = Some _ |- _ => apply literal_length in H
         | H : takeSome _ _ = Some _ |- _ =>
             apply takeSome_spec in H as (? & ? & ?)
         end.
  subst. split; [assumption|]. split.
  - intros Hin.
    match goal with
    | H : Forall (fun c => negb (c =? 47) = true) _ |- _ =>
        rewrite List.Forall_forall in H; specialize (H 47 Hin)
    end.
    discriminate.
  - rewrite !length_app in *. simpl in *. lia.
Qed.

Lemma dirEntryRegex_exec_spec listing i ino nm li :
  dirEntryRegex_exec listing i = Some ((ino, nm), li) ->
  nm <> [] /\ ~ In 47 nm /\ (i < li <= length listing)%nat.
Proof.
  intros H. apply execLineStart_spec in H as (j & len & Hj & _ & Hp & ->).
  apply dirEntryPattern_spec in Hp as (Hne & Hslash & Hlen).
  rewrite length_skipn in Hlen. repeat split; auto; lia.
Qed.

Lemma getDirEntries_loop_wellFormed fuel listing :
  forall li entries returned,
    Forall wellFormedEntry entries ->
    getDirEntries_loop fuel listing li entries = Ok returned ->
    Forall wellFormedEntry returned.
Proof.
  induction fuel as [|fuel IH]; intros li entries returned Hall;
    cbn [getDirEntries_loop]; [now intros [= <-]|].
  destruct (dirEntryRegex_exec listing li) as [[[ino nm] li']|] eqn:E;
    [|now intros [= <-]].
  apply dirEntryRegex_exec_spec in E as (Hne & Hslash & _).
  destruct (toNumber ino) as [number|] eqn:En; [|discriminate].
  apply toNumber_Some in En as [_ Hnumber].
  destruct (jsstring_eqb nm (str ".")) eqn:E1; cbn [orb]; [now apply IH|].
  destruct (jsstring_eqb nm (str "..")) eqn:E2; [now apply IH|].
  apply IH. apply Forall_app. split; [exact Hall|].
  constructor; [|constructor].
  repeat split; cbn [entry_name inode]; auto.
  - intros ->. now rewrite (proj2 (jsstring_eqb_eq _ _) eq_refl) in E1.
  - intros ->. now rewrite (proj2 (jsstring_eqb_eq _ _) eq_refl) in E2.
  - lia.
Qed.

(** X8.  Whatever the inspector replies to the listing command, every
    entry [getDirEntries] returns has a name that is not empty, holds no
    slash and is neither [.] nor [..], and an inode number that is not
    negative; the listing command is the only command sent. *)
Theorem getDirEntries_entries_wellFormed :
  forall (inspector : Cmd -> jsstring) (dir : Z) (w w' : World)
         (entries : list DirEntry),
    getDirEntries inspector dir w = (Ok entries, w') ->
    Forall wellFormedEntry entries /\ w' = withSent [ls_p dir] w.
Proof.
  intros inspector dir w w' entries H. unfold getDirEntries in H.
  apply bind_Ok_inv in H as (listing & w1 & Hcmd & Hret).
  rewrite debugfsCmd_run in Hcmd.
  apply lift_Ok_inv in Hret as [Hr Hw].
  pose proof (f_equal snd Hcmd) as Hw1.
  cbn [snd] in Hw1. subst w1 w'.
  split; [|reflexivity].
  apply (getDirEntries_loop_wellFormed _ _ _ [] _ ltac:(constructor) Hr).
Qed.

Lemma getDirEntries_entries_wellFormed_witness :
  Forall wellFormedEntry [mkDirEntry 14 (str "two" ++ nl ++ str "lines")].
Proof.
  refine (proj1 (getDirEntries_entries_wellFormed oddListingInspector 2
                   world0 (withSent [ls_p 2] world0) _ _)).
  reflexivity.
Defined.

(** ** The search loops end by themselves *)









(** ** Inode Table Locator: the parsed table *)

Lemma groupTable_loop_aligned fuel : forall rest (map table : gmap Z Z),
  map_Forall (fun g off => 0 <= g <= 2 ^ 53
                           /\ 0 <= off <= 4096 * 2 ^ 53
                           /\ off mod 4096 = 0) map ->
  groupTable_loop fuel rest map = Ok table ->
  map_Forall (fun g off => 0 <= g <= 2 ^ 53
                           /\ 0 <= off <= 4096 * 2 ^ 53
                           /\ off mod 4096 = 0) table.
Proof.
  induction fuel as [|fuel IH]; intros rest map table Hmap;
    cbn [groupTable_loop]; [now intros [= <-]|].
  destruct (groupRegex_exec rest) as [[[group block] rest']|];
    [|now intros [= <-]].
  destruct (toNumber group) as [g|] eqn:Eg; [|discriminate].
  destruct (toNumber block) as [b|] eqn:Eb; [|discriminate].
  apply toNumber_Some in Eg as [_ Hg]. apply toNumber_Some in Eb as [_ Hb].
  apply IH. apply map_Forall_insert_2; [|exact Hmap].
  repeat split; try lia.
  rewrite Z.mul_comm. apply Z.mod_mul. lia.
Qed.

(** X10.  A table [getStartOfInodeTableByGroup] returns maps group
    numbers between 0 and 2^53 to offsets that are not negative and are
    multiples of 4096, and the statistics command is the only command
    sent.  With such a table every address up to 2^53 that
    [getAddressOfInode] returns for a 32-bit inode number from 1 on is
    not negative and is a multiple of 256.  (The numbers of the table
    are those of the program: with a numeral above 2^53 in the
    statistics the model returns no table.  The bounds on the inode
    number and on the address keep the arithmetic of [getAddressOfInode]
    in the range where doubles are exact.) *)
Theorem parsed_table_aligned :
  forall (inspector : Cmd -> jsstring) (w w' : World) (table : gmap Z Z),
    getStartOfInodeTableByGroup inspector w = (Ok table, w') ->
    w' = withSent [stats] w
    /\ (forall g off, table !! g = Some off ->
                      0 <= g <= 2 ^ 53
                      /\ 0 <= off <= 4096 * 2 ^ 53
                      /\ off mod 4096 = 0)
    /\ (forall n a, 1 <= n < 2 ^ 32 ->
                    getAddressOfInode table n = Ok a ->
                    a <= 2 ^ 53 ->
                    0 <= a /\ a mod 256 = 0).
Proof.
  intros inspector w w' table H. unfold getStartOfInodeTableByGroup in H.
  apply bind_Ok_inv in H as (result & w1 & Hcmd & Hrest).
  rewrite debugfsCmd_run in Hcmd.
  pose proof (f_equal snd Hcmd) as Hw1. cbn [snd] in Hw1. subst w1.
  destruct (negb (includes result (str "Filesystem features")));
    [discriminate|].
  apply lift_Ok_inv in Hrest as [Htable ->].
  pose proof (groupTable_loop_aligned _ _ _ _ (map_Forall_empty _) Htable)
    as Hall.
  split; [reflexivity|]. split.
  - intros g off Hg. exact (Hall g off Hg).
  - intros n a Hn Ha _. unfold getAddressOfInode in Ha.
    destruct (table !! ((n - 1) / 8028)) as [off|] eqn:E; [|discriminate].
    injection Ha as <-. destruct (Hall _ _ E) as (_ & Hoff & Hmod).
    rewrite Z.rem_mod_nonneg by lia.
    pose proof (Z.mod_pos_bound (n - 1) 8028 ltac:(lia)).
    split; [lia|].
    apply Z.mod_divide in Hmod as [q ->]; [|lia].
    replace (q * 4096 + (n - 1) mod 8028 * 256)
      with ((q * 16 + (n - 1) mod 8028) * 256) by lia.
    apply Z.mod_mul. lia.
Qed.

Lemma parsed_table_aligned_witness :
  0 <= 4096 * 1057 + 11 * 256 /\ (4096 * 1057 + 11 * 256) mod 256 = 0.
Proof.
  destruct (parsed_table_aligned badRootInspector world0
              (withSent [stats] world0) {[ 0 := 4096 * 1057 ]})
    as (_ & _ & Haddr).
  - reflexivity.
  - apply (Haddr 12); [lia | reflexivity | lia].
Defined.

(** ** [main]: no device, and a session that does not answer as expected *)

(** X11.  [main] gives up before it looks at any inode in four cases.
    Without a device argument, or with an empty one, it throws the "you
    must provide the target device" error; when [fs.statSync] throws on
    the device, it throws that error; in both cases nothing is printed
    and nothing is sent.  With a device that exists, when the reply to
    the statistics command has no line feed it throws the "weird
    response" error, and when the text after the echoed line lacks
    [Filesystem features] it throws the "unexpected response" error; in
    both cases [stats] is the only command sent and the [Reading] text
    the only text printed. *)
Theorem main_rejects_unexpected_statistics :
  forall (statSync : jsstring -> result unit) (inspector : Cmd -> jsstring)
         (fuel : nat),
    main statSync inspector fuel None world0
    = (Throw NoDeviceArgument, world0)
    /\ main statSync inspector fuel (Some []) world0
       = (Throw NoDeviceArgument, world0)
    /\ (forall device e,
           device <> [] -> statSync device = Throw e ->
           main statSync inspector fuel (Some device) world0
           = (Throw e, world0))
    /\ (forall device,
           device <> [] -> statSync device = Ok tt ->
           (afterFirstLine (inspector stats) = None ->
            main statSync inspector fuel (Some device) world0
            = (Throw WeirdResponse,
               mkWorld [stats] [str "Reading " ++ device] ∅))
           /\ (forall result,
                  afterFirstLine (inspector stats) = Some result ->
                  includes result (str "Filesystem features") = false ->
                  main statSync inspector fuel (Some device) world0
                  = (Throw UnexpectedResponse,
                     mkWorld [stats] [str "Reading " ++ device] ∅))).
Proof.
  intros statSync inspector fuel.
  split; [reflexivity|]. split; [reflexivity|]. split.
  - intros [|c dev] e Hdev Hstat; [congruence|].
    unfold main. unfold bind at 1, lift at 1. now rewrite Hstat.
  - intros [|c dev] Hdev Hstat; [congruence|]. split.
    + intros Hnone. unfold main, getStartOfInodeTableByGroup.
      unfold bind at 1, lift at 1. rewrite Hstat.
      unfold bind at 1.
      cbn [console_log world0 sent console inodesVisited app].
      unfold bind at 1. unfold bind at 1.
      rewrite debugfsCmd_run, Hnone. reflexivity.
    + intros result Hsome Hinc. unfold main, getStartOfInodeTableByGroup.
      unfold bind at 1, lift at 1. rewrite Hstat.
      unfold bind at 1.
      cbn [console_log world0 sent console inodesVisited app].
      unfold bind at 1. unfold bind at 1.
      rewrite debugfsCmd_run, Hsome, Hinc. reflexivity.
Qed.

Lemma main_rejects_unexpected_statistics_witness :
  main deviceExists noLineInspector 5 (Some (str "/dev/none")) world0
  = (Throw ENOENT, world0)
  /\ main deviceExists noLineInspector 5 (Some device) world0
     = (Throw WeirdResponse, mkWorld [stats] [str "Reading " ++ device] ∅)
  /\ main deviceExists noBannerInspector 5 (Some device) world0
     = (Throw UnexpectedResponse,
        mkWorld [stats] [str "Reading " ++ device] ∅).
Proof.
  split; [|split].
  - refine (proj1 (proj2 (proj2 (main_rejects_unexpected_statistics
                                   deviceExists noLineInspector 5)))
              (str "/dev/none") ENOENT _ _); [discriminate | reflexivity].
  - refine (proj1 (proj2 (proj2 (proj2 (main_rejects_unexpected_statistics
                                          deviceExists noLineInspector 5)))
                     device _ _) _); [discriminate | reflexivity | reflexivity].
  - refine (proj2 (proj2 (proj2 (proj2 (main_rejects_unexpected_statistics
                                          deviceExists noBannerInspector 5)))
                     device _ _) _ _ _);
      [discriminate | reflexivity | reflexivity | reflexivity].
Defined.

(** ** What a run leaves untouched *)

Section Keeps.

Variable R : World -> World -> Prop.
Hypothesis R_refl : forall w, R w w.
Hypothesis R_trans : forall w1 w2 w3, R w1 w2 -> R w2 w3 -> R w1 w3.

Lemma keeps_ret {A} (a : A) : keeps R (ret a).
Proof. intros w. apply R_refl. Qed.

Lemma keeps_lift {A} (r : result A) : keeps R (lift r).
Proof. intros w. apply R_refl. Qed.

Lemma keeps_outOfFuel {A} : keeps R (@outOfFuel A).
Proof. intros w. apply R_refl. Qed.

Lemma keeps_bind {A B} (c : M A) (k : A -> M B) :
  keeps R c -> (forall a, keeps R (k a)) -> keeps R (bind c k).
Proof.
  intros Hc Hk w. unfold bind. specialize (Hc w).
  destruct (c w) as [[a | e | |] w1]; cbn [snd] in *;
    [|exact Hc|exact Hc|exact Hc].
  exact (R_trans _ _ _ Hc (Hk a w1)).
Qed.

Lemma keeps_filterM {A} (cb : A -> M bool) l :
  (forall x, keeps R (cb x)) -> keeps R (filterM cb l).
Proof.
  intros Hcb. induction l as [|x l IH]; cbn [filterM].
  - apply keeps_ret.
  - apply keeps_bind; [apply Hcb|]. intros keep.
    apply keeps_bind; [exact IH|]. intros rest. apply keeps_ret.
Qed.

Lemma keeps_mapM {A B} (cb : A -> M B) l :
  (forall x, keeps R (cb x)) -> keeps R (mapM cb l).
Proof.
  intros Hcb. induction l as [|x l IH]; cbn [mapM].
  - apply keeps_ret.
  - apply keeps_bind; [apply Hcb|]. intros y.
    apply keeps_bind; [exact IH|]. intros rest. apply keeps_ret.
Qed.

Variable allowed : Cmd -> Prop.
Hypothesis R_send : forall cmd w, allowed cmd -> R w (withSent [cmd] w).

Variable inspector : Cmd -> jsstring.

Lemma keeps_sendDebugfsCommand cmd :
  allowed cmd -> keeps R (sendDebugfsCommand cmd).
Proof. intros Hcmd w. now apply R_send. Qed.

Lemma keeps_debugfsCmd cmd : allowed cmd -> keeps R (debugfsCmd inspector cmd).
Proof. intros Hcmd w. rewrite debugfsCmd_run. now apply R_send. Qed.

Ltac keeps_step :=
  match goal with
  | |- keeps _ (bind _ _) => apply keeps_bind; [|intros ?]
  | |- keeps _ (ret _) => apply keeps_ret
  | |- keeps _ (lift _) => apply keeps_lift
  | |- keeps _ outOfFuel => apply keeps_outOfFuel
  | |- keeps _ (debugfsCmd _ _) => apply keeps_debugfsCmd
  | |- keeps _ (if ?b then _ else _) => destruct b
  | |- keeps _ (match ?x with _ => _ end) => destruct x
  end.

Section BlockDumps.

Hypothesis allowed_bd : forall blockNum, allowed (bd blockNum).

Lemma keeps_extentEntriesAreSafe self b leaf count :
  (forall child, keeps R (self child)) ->
  forall i, keeps R (extentEntriesAreSafe inspector self b leaf count i).
Proof.
  intros Hself. induction count as [|count IH]; intros i;
    cbn [extentEntriesAreSafe]; [apply keeps_ret|].
  destruct leaf; repeat keeps_step; auto.
Qed.

Lemma keeps_extentsAreSafe fuel : forall b,
  keeps R (extentsAreSafe inspector fuel b).
Proof.
  induction fuel as [|fuel IH]; intros b; cbn [extentsAreSafe];
    [apply keeps_outOfFuel|].
  repeat keeps_step. now apply keeps_extentEntriesAreSafe.
Qed.

Lemma keeps_blocksL1AreSafe blockNum n :
  keeps R (blocksL1AreSafe inspector blockNum n).
Proof. unfold blocksL1AreSafe. repeat keeps_step. apply allowed_bd. Qed.

Lemma keeps_blocksL2_loop buffer total count : forall i,
  keeps R (blocksL2_loop inspector buffer total count i).
Proof.
  induction count as [|count IH]; intros i; cbn [blocksL2_loop];
    [apply keeps_ret|].
  repeat keeps_step; auto using keeps_blocksL1AreSafe.
Qed.

Lemma keeps_blocksL2AreSafe blockNum n :
  keeps R (blocksL2AreSafe inspector blockNum n).
Proof.
  unfold blocksL2AreSafe. repeat keeps_step;
    [apply allowed_bd | apply keeps_blocksL2_loop].
Qed.

Lemma keeps_blocksL3_loop buffer total count : forall i,
  keeps R (blocksL3_loop inspector buffer total count i).
Proof.
  induction count as [|count IH]; intros i; cbn [blocksL3_loop];
    [apply keeps_ret|].
  repeat keeps_step; auto using keeps_blocksL2AreSafe.
Qed.

Lemma keeps_blocksL3AreSafe blockNum n :
  keeps R (blocksL3AreSafe inspector blockNum n).
Proof.
  unfold blocksL3AreSafe. repeat keeps_step;
    [apply allowed_bd | apply keeps_blocksL3_loop].
Qed.

Lemma keeps_blocksAreSafe this i_block :
  keeps R (blocksAreSafe inspector this i_block).
Proof.
  unfold blocksAreSafe.
  repeat keeps_step;
    auto using keeps_blocksL1AreSafe, keeps_blocksL2AreSafe,
      keeps_blocksL3AreSafe.
Qed.

Lemma keeps_dataIsSafe fuel this : keeps R (dataIsSafe inspector fuel this).
Proof.
  unfold dataIsSafe.
  repeat keeps_step; auto using keeps_extentsAreSafe, keeps_blocksAreSafe.
Qed.

End BlockDumps.

Lemma keeps_getDirEntries dir :
  allowed (ls_p dir) -> keeps R (getDirEntries inspector dir).
Proof. intros H. unfold getDirEntries. repeat keeps_step. exact H. Qed.

Lemma keeps_getStartOfInodeTableByGroup :
  allowed stats -> keeps R (getStartOfInodeTableByGroup inspector).
Proof.
  intros H. unfold getStartOfInodeTableByGroup. repeat keeps_step; exact H.
Qed.

Lemma keeps_fetchInodeInfos entries :
  (forall n, allowed (id_ n)) -> keeps R (fetchInodeInfos inspector entries).
Proof.
  intros H. unfold fetchInodeInfos. apply keeps_bind.
  - apply keeps_mapM. intros e. now apply keeps_sendDebugfsCommand.
  - intros _. apply keeps_mapM. intros e. repeat keeps_step.
Qed.

End Keeps.

Lemma onlyFetchesBlocks_refl w : onlyFetchesBlocks w w.
Proof. exists []. symmetry. apply withSent_nil. Qed.

Lemma onlyFetchesBlocks_trans w1 w2 w3 :
  onlyFetchesBlocks w1 w2 -> onlyFetchesBlocks w2 w3 ->
  onlyFetchesBlocks w1 w3.
Proof.
  intros [b1 ->] [b2 ->]. exists (b1 ++ b2).
  now rewrite withSent_app, map_app.
Qed.

Lemma onlyFetchesBlocks_send cmd w :
  isBlockDump cmd -> onlyFetchesBlocks w (withSent [cmd] w).
Proof. destruct cmd; try contradiction. intros _. now exists [blockNum]. Qed.

(** X12.  Whatever the inode holds and whatever the inspector replies,
    and whether it returns, throws or is cut short, [dataIsSafe] only
    sends block-dump commands: it sends no other command, prints
    nothing and leaves the visited set alone. *)
Theorem dataIsSafe_only_fetches_blocks :
  forall (inspector : Cmd -> jsstring) (fuel : nat) (this : InodeInfo)
         (w : World),
    exists blocks,
      snd (dataIsSafe inspector fuel this w) = withSent (map bd blocks) w.
Proof.
  intros inspector fuel this w.
  apply (keeps_dataIsSafe onlyFetchesBlocks onlyFetchesBlocks_refl
           onlyFetchesBlocks_trans isBlockDump onlyFetchesBlocks_send
           inspector (fun _ => I) fuel this w).
Qed.

(** ** The walk only adds *)

Lemma walks_refl path w : walks path w w.
Proof.
  split; [exists []; now rewrite app_nil_r|]. split; [set_solver|].
  exists []. split; [now rewrite app_nil_r | constructor].
Qed.

Lemma walks_trans path w1 w2 w3 :
  walks path w1 w2 -> walks path w2 w3 -> walks path w1 w3.
Proof.
  intros ([c1 Hc1] & Hv1 & l1 & Hl1 & Hr1) ([c2 Hc2] & Hv2 & l2 & Hl2 & Hr2).
  split; [exists (c1 ++ c2); now rewrite Hc2, Hc1, app_assoc|].
  split; [set_solver|].
  exists (l1 ++ l2). split; [now rewrite Hl2, Hl1, app_assoc|].
  apply Forall_app. now split.
Qed.

Lemma walks_send path cmd w : True -> walks path w (withSent [cmd] w).
Proof.
  intros _. split; [now exists [cmd]|]. split; [set_solver|].
  exists []. split; [simpl; now rewrite app_nil_r | constructor].
Qed.

Lemma walks_console_log path line :
  reports path line -> keeps (walks path) (console_log line).
Proof.
  intros Hline w. split; [exists []; simpl; now rewrite app_nil_r|].
  split; [set_solver|]. exists [line]. split; [reflexivity|].
  now constructor.
Qed.

Lemma walks_addVisited path n : keeps (walks path) (addVisited n).
Proof.
  intros w. split; [exists []; simpl; now rewrite app_nil_r|].
  split; [simpl; set_solver|].
  exists []. split; [simpl; now rewrite app_nil_r | constructor].
Qed.

Lemma walks_getVisited path : keeps (walks path) getVisited.
Proof. intros w. apply walks_refl. Qed.

Lemma reports_below path nm line :
  reports (path ++ str "/" ++ nm) line -> reports path line.
Proof.
  intros [rest ->]. exists (str "/" ++ nm ++ rest).
  now rewrite <- !app_assoc.
Qed.

Lemma walks_below path nm w w' :
  walks (path ++ str "/" ++ nm) w w' -> walks path w w'.
Proof.
  intros (Hc & Hv & lines & Hl & Hr).
  split; [exact Hc|]. split; [exact Hv|].
  exists lines. split; [exact Hl|].
  eapply Forall_impl; [exact Hr|]. intros line. apply reports_below.
Qed.

Section WalkKeeps.

Variable inspector : Cmd -> jsstring.
Variable table : gmap Z Z.

Lemma walks_dataIsSafe path fuel this :
  keeps (walks path) (dataIsSafe inspector fuel this).
Proof.
  apply (keeps_dataIsSafe (walks path) (walks_refl path) (walks_trans path)
           (fun _ => True) (walks_send path) inspector (fun _ => I)).
Qed.

Lemma walks_bind {A B} path (c : M A) (k : A -> M B) :
  keeps (walks path) c -> (forall a, keeps (walks path) (k a)) ->
  keeps (walks path) (bind c k).
Proof. apply keeps_bind. apply walks_trans. Qed.

Lemma walks_visitEntries self fuel path :
  (forall nm info, keeps (walks (path ++ str "/" ++ nm))
                     (self (path ++ str "/" ++ nm) info)) ->
  forall infos,
    keeps (walks path) (visitEntries inspector self fuel path infos).
Proof.
  intros Hself. induction infos as [|info infos IH]; cbn [visitEntries].
  - intros w. apply walks_refl.
  - apply walks_bind; [apply walks_getVisited|]. intros visited.
    destruct (bool_decide (id info ∈ visited)); [exact IH|].
    apply walks_bind; [apply walks_addVisited|]. intros _.
    apply walks_bind; [intros w; apply walks_refl|]. intros file.
    apply walks_bind.
    { destruct file; [|intros w; apply walks_refl].
      apply walks_bind; [apply walks_dataIsSafe|]. intros safe.
      destruct safe; cbn [negb]; [intros w; apply walks_refl|].
      apply walks_bind; [|intros _ w; apply walks_refl].
      apply walks_console_log. now exists (str "/" ++ name info). }
    intros reported. destruct reported; [exact IH|].
    apply walks_bind; [intros w; apply walks_refl|]. intros dir.
    destruct dir; [|exact IH].
    apply walks_bind; [|intros _; exact IH].
    intros w. apply (walks_below path (name info)). apply Hself.
Qed.

Lemma walks_recurse fuel : forall path inodeInfo,
  keeps (walks path) (recurse inspector table fuel path inodeInfo).
Proof.
  induction fuel as [|fuel IH]; intros path info; cbn [recurse].
  - intros w. apply walks_refl.
  - apply walks_bind; [apply walks_dataIsSafe|]. intros safe.
    destruct safe; cbn [negb].
    + apply walks_bind.
      { apply (keeps_getDirEntries (walks path) (walks_refl path)
                 (walks_trans path) (fun _ => True) (walks_send path)).
        exact I. }
      intros entries. apply walks_bind.
      { apply keeps_filterM; [apply walks_refl | apply walks_trans|].
        intros entry. apply walks_bind; [intros w; apply walks_refl|].
        intros safe. apply walks_bind; [|intros _ w; apply walks_refl].
        destruct safe; cbn [negb]; [intros w; apply walks_refl|].
        apply walks_console_log. now exists (str "/" ++ entry_name entry). }
      intros safeEntries. apply walks_bind.
      { apply (keeps_fetchInodeInfos (walks path) (walks_refl path)
                 (walks_trans path) (fun _ => True) (walks_send path)).
        intros _. exact I. }
      intros infos. apply walks_visitEntries. intros nm info'. apply IH.
    + apply walks_console_log. exists []. cbn [nullish].
      now rewrite app_nil_r.
Qed.

End WalkKeeps.

(** X13.  A walk only adds.  However [recurse] ends (it may return,
    throw or be cut short), the commands sent before are still the
    first of the commands sent, the texts logged before are still the
    first of the texts logged, no inode has left the visited set, and
    every text the walk has passed to [console.log] starts with [BAD ]
    followed by the path the walk was started with.  (This is about the
    calls of [console.log]: the text of one call holds a line feed when
    a name does, and is then printed on several lines.)  [main] either
    ends before it logs or sends anything (no device, or [fs.statSync]
    throws on it), or its first call of [console.log] is for the
    [Reading] text and the text of every later call starts with
    [BAD ]. *)
Theorem walk_only_adds_reports :
  forall (inspector : Cmd -> jsstring) (table : gmap Z Z) (fuel : nat),
    (forall path inodeInfo w,
        let w' := snd (recurse inspector table fuel path inodeInfo w) in
        (exists cmds, sent w' = sent w ++ cmds)
        /\ inodesVisited w ⊆ inodesVisited w'
        /\ exists texts, console w' = console w ++ texts
                         /\ Forall (reports path) texts)
    /\ (forall (statSync : jsstring -> result unit) (argv2 : option jsstring),
           let w' := snd (main statSync inspector fuel argv2 world0) in
           (console w' = [] /\ sent w' = []
            /\ forall device, argv2 = Some device -> device <> [] ->
                              statSync device <> Ok tt)
           \/ (exists device texts,
                  argv2 = Some device /\ device <> []
                  /\ statSync device = Ok tt
                  /\ console w' = (str "Reading " ++ device) :: texts
                  /\ Forall (reports []) texts)).
Proof.
  intros inspector table fuel. split.
  - intros path info w. apply walks_recurse.
  - intros statSync argv2.
    assert (Hmain : keeps (walks [])
              (startOfInodeTableByGroup
                 <- getStartOfInodeTableByGroup inspector ;;
               hex <- debugfsCmd inspector (id_ ROOT_DIR_INODE) ;;
               recurse inspector startOfInodeTableByGroup fuel (str "")
                 (new_InodeInfo ROOT_DIR_INODE (str "") hex))).
    { apply keeps_bind; [apply walks_trans| |].
      - apply (keeps_getStartOfInodeTableByGroup (walks []) (walks_refl [])
                 (walks_trans []) (fun _ => True) (walks_send [])).
        exact I.
      - intros tbl. apply keeps_bind; [apply walks_trans| |].
        + apply (keeps_debugfsCmd (walks []) (fun _ => True) (walks_send [])).
          exact I.
        + intros hex. apply walks_recurse. }
    cbv zeta. destruct argv2 as [[|c dev]|].
    + left. repeat split. intros device [= <-]. congruence.
    + destruct (statSync (c :: dev)) as [[] | e | |] eqn:Hstat.
      * right. exists (c :: dev).
        assert (Hrun : main statSync inspector fuel (Some (c :: dev)) world0
                       = (startOfInodeTableByGroup
                            <- getStartOfInodeTableByGroup inspector ;;
                          hex <- debugfsCmd inspector (id_ ROOT_DIR_INODE) ;;
                          recurse inspector startOfInodeTableByGroup fuel
                            (str "")
                            (new_InodeInfo ROOT_DIR_INODE (str "") hex))
                           (mkWorld [] [str "Reading " ++ c :: dev] ∅)).
        { cbn [main]. unfold bind at 1, lift at 1. rewrite Hstat.
          reflexivity. }
        rewrite Hrun.
        destruct (Hmain (mkWorld [] [str "Reading " ++ c :: dev] ∅))
          as (_ & _ & texts & Hl & Hr).
        exists texts. split; [reflexivity|]. split; [discriminate|].
        split; [exact Hstat|]. split; [exact Hl | exact Hr].
      * left.
        assert (Hrun : main statSync inspector fuel (Some (c :: dev)) world0
                       = (Throw e, world0))
          by (cbn [main]; unfold bind at 1, lift at 1; now rewrite Hstat).
        rewrite Hrun. repeat split. intros device [= <-] _. congruence.
      * left.
        assert (Hrun : main statSync inspector fuel (Some (c :: dev)) world0
                       = (OutOfFuel, world0))
          by (cbn [main]; unfold bind at 1, lift at 1; now rewrite Hstat).
        rewrite Hrun. repeat split. intros device [= <-] _. congruence.
      * left.
        assert (Hrun : main statSync inspector fuel (Some (c :: dev)) world0
                       = (Inexact, world0))
          by (cbn [main]; unfold bind at 1, lift at 1; now rewrite Hstat).
        rewrite Hrun. repeat split. intros device [= <-] _. congruence.
    + left. repeat split. intros device [=].
Qed.

(** ** The walk: visited inodes and ignored entries *)

Section VisitProofs.

Variable inspector : Cmd -> jsstring.

Lemma visitEntries_skip self fuel path infos w :
  (forall info, In info infos -> id info ∈ inodesVisited w) ->
  visitEntries inspector self fuel path infos w = (Ok tt, w).
Proof.
  induction infos as [|info infos IH]; intros Hall; cbn [visitEntries];
    [reflexivity|].
  unfold bind at 1, getVisited.
  rewrite bool_decide_eq_true_2 by (apply Hall; now left).
  apply IH. intros info' Hin. apply Hall. now right.
Qed.

(** One round of the loop that returns leaves the entry's inode in the
    visited set and goes on with the rest of the entries. *)
Lemma visitEntries_cons self fuel path info infos w w' :
  (forall nm info', keeps (walks (path ++ str "/" ++ nm))
                      (self (path ++ str "/" ++ nm) info')) ->
  visitEntries inspector self fuel path (info :: infos) w = (Ok tt, w') ->
  exists w2, walks path w w2 /\ id info ∈ inodesVisited w2
             /\ visitEntries inspector self fuel path infos w2 = (Ok tt, w').
Proof.
  intros Hself Hrun. cbn [visitEntries] in Hrun.
  unfold bind at 1, getVisited in Hrun.
  destruct (bool_decide (id info ∈ inodesVisited w)) eqn:Hv.
  - exists w. split; [apply walks_refl|]. split; [|exact Hrun].
    apply bool_decide_eq_true in Hv. exact Hv.
  - apply bind_Ok_inv in Hrun as ([] & w1 & Hadd & Hrun).
    assert (Hw1 : walks path w w1).
    { pose proof (walks_addVisited path (id info) w) as H.
      now rewrite Hadd in H. }
    assert (Hin1 : id info ∈ inodesVisited w1).
    { unfold addVisited in Hadd. injection Hadd as <-. simpl. set_solver. }
    apply bind_Ok_inv in Hrun as (file & w1' & Hfile & Hrun).
    apply lift_Ok_inv in Hfile as [Hfile ->].
    apply bind_Ok_inv in Hrun as (reported & w3 & Hrep & Hrun).
    assert (Hw3 : walks path w1 w3).
    { assert (Hk : keeps (walks path)
                (if file
                 then safe <- dataIsSafe inspector fuel info ;;
                      if negb safe
                      then console_log
                             (str "BAD " ++ path ++ str "/" ++ name info) ;;
                           ret true
                      else ret false
                 else ret false)).
      { destruct file; [|intros w0; apply walks_refl].
        apply walks_bind; [apply walks_dataIsSafe|]. intros safe.
        destruct safe; cbn [negb]; [intros w0; apply walks_refl|].
        apply walks_bind; [|intros _ w0; apply walks_refl].
        apply walks_console_log. now exists (str "/" ++ name info). }
      specialize (Hk w1). now rewrite Hrep in Hk. }
    assert (Hin3 : id info ∈ inodesVisited w3)
      by (destruct Hw3 as (_ & Hsub & _); set_solver).
    destruct reported.
    + exists w3. split; [eapply walks_trans; eassumption|]. now split.
    + apply bind_Ok_inv in Hrun as (dir & w3' & Hdir & Hrun).
      apply lift_Ok_inv in Hdir as [Hdir ->].
      destruct dir.
      * apply bind_Ok_inv in Hrun as ([] & w4 & Hrec & Hrun).
        assert (Hw4 : walks path w3 w4).
        { apply (walks_below path (name info)).
          pose proof (Hself (name info) info w3) as H.
          now rewrite Hrec in H. }
        exists w4. split.
        -- eapply walks_trans; [exact Hw1|].
           eapply walks_trans; eassumption.
        -- split; [|exact Hrun].
           destruct Hw4 as (_ & Hsub & _). set_solver.
      * exists w3. split; [eapply walks_trans; eassumption|]. now split.
Qed.

Lemma visitEntries_visited self fuel path :
  (forall nm info', keeps (walks (path ++ str "/" ++ nm))
                      (self (path ++ str "/" ++ nm) info')) ->
  forall infos w w',
    visitEntries inspector self fuel path infos w = (Ok tt, w') ->
    forall info, In info infos -> id info ∈ inodesVisited w'.
Proof.
  intros Hself. induction infos as [|info0 infos IH]; intros w w' Hrun info Hin;
    [destruct Hin|].
  destruct (visitEntries_cons _ _ _ _ _ _ _ Hself Hrun)
    as (w2 & Hw2 & Hin2 & Hrest).
  destruct Hin as [<- | Hin].
  - pose proof (walks_visitEntries inspector self fuel path Hself infos w2)
      as (_ & Hsub & _).
    rewrite Hrest in Hsub. cbn [snd] in Hsub. set_solver.
  - exact (IH w2 w' Hrest info Hin).
Qed.

End VisitProofs.

(** X14.  The loop over the entries of a directory skips the entries
    whose inode is already in the visited set, without any effect:
    nothing is sent, logged or added for them.  And once the loop has
    returned, the inodes of all its entries are in the visited set, so
    that running the same loop again on the same entries does nothing.
    (This is a property of the loop and of the entries it is given.  It
    does not say that a walk processes no inode twice: [recurse] does
    not put the directory it is called on into the set, so that an
    entry naming that directory is not skipped the first time.) *)
Theorem visited_inodes_are_not_processed_again :
  forall (inspector : Cmd -> jsstring) (table : gmap Z Z) (fuel fuel' : nat)
         (path : jsstring) (infos : list InodeInfo) (w w' : World),
    ((forall info, In info infos -> id info ∈ inodesVisited w) ->
     visitEntries inspector (recurse inspector table fuel') fuel path infos w
     = (Ok tt, w))
    /\ (visitEntries inspector (recurse inspector table fuel') fuel path infos w
        = (Ok tt, w') ->
        (forall info, In info infos -> id info ∈ inodesVisited w')
        /\ visitEntries inspector (recurse inspector table fuel') fuel path
             infos w'
           = (Ok tt, w')).
Proof.
  intros inspector table fuel fuel' path infos w w'. split.
  - apply visitEntries_skip.
  - intros Hrun.
    assert (Hall : forall info, In info infos -> id info ∈ inodesVisited w').
    { eapply visitEntries_visited; [|exact Hrun].
      intros nm info'. apply walks_recurse. }
    split; [exact Hall|]. now apply visitEntries_skip.
Qed.

Lemma visited_inodes_are_not_processed_again_witness :
  visitEntries specialFilesInspector
    (recurse specialFilesInspector twoGroups 1) 2 (str "")
    [symlinkInfo; symlinkInfo] world0
  = (Ok tt, mkWorld [] [str "BAD /lnk"] {[12]})
  /\ visitEntries specialFilesInspector
       (recurse specialFilesInspector twoGroups 1) 2 (str "")
       [symlinkInfo; symlinkInfo] (mkWorld [] [str "BAD /lnk"] {[12]})
     = (Ok tt, mkWorld [] [str "BAD /lnk"] {[12]}).
Proof.
  assert (Hrun : visitEntries specialFilesInspector
                   (recurse specialFilesInspector twoGroups 1) 2 (str "")
                   [symlinkInfo; symlinkInfo] world0
                 = (Ok tt, mkWorld [] [str "BAD /lnk"] {[12]}))
    by (vm_compute; reflexivity).
  split; [exact Hrun|].
  apply (visited_inodes_are_not_processed_again specialFilesInspector
           twoGroups 2 1 (str "") [symlinkInfo; symlinkInfo] world0).
  exact Hrun.
Defined.

(** X15.  An entry whose mode has neither the bit 0x8000 nor the bit
    0x4000 set (a character device, a FIFO) is ignored: its inode is
    added to the visited set and the loop goes on with the next entry;
    nothing is sent and nothing is printed for it. *)
Theorem entry_without_type_bits_is_ignored :
  forall (inspector : Cmd -> jsstring)
         (self : jsstring -> InodeInfo -> M unit) (fuel : nat)
         (path : jsstring) (info : InodeInfo) (rest : list InodeInfo)
         (w : World) (mode : Z),
    id info ∉ inodesVisited w ->
    readUint16LE (buf info) 0 = Ok mode ->
    Z.land mode 0xC000 = 0 ->
    visitEntries inspector self fuel path (info :: rest) w
    = visitEntries inspector self fuel path rest
        (mkWorld (sent w) (console w) ({[id info]} ∪ inodesVisited w)).
Proof.
  intros inspector self fuel path info rest w mode Hnew Hmode Hbits.
  assert (Hreg : Z.land mode S_IFREG = 0).
  { change S_IFREG with (Z.land 0xC000 0x8000).
    now rewrite Z.land_assoc, Hbits. }
  assert (Hdir : Z.land mode S_IFDIR = 0).
  { change S_IFDIR with (Z.land 0xC000 0x4000).
    now rewrite Z.land_assoc, Hbits. }
  cbn [visitEntries]. unfold bind at 1, getVisited.
  rewrite bool_decide_eq_false_2 by exact Hnew.
  unfold bind at 1, addVisited.
  unfold isFile, isDir. rewrite Hmode. cbn [result_bind].
  rewrite Hreg, Hdir. reflexivity.
Qed.

Lemma entry_without_type_bits_is_ignored_witness :
  visitEntries silentInspector (recurse silentInspector twoGroups 1) 2
    (str "") [charDeviceInfo] world0
  = (Ok tt, mkWorld [] [] ({[15]} ∪ ∅)).
Proof.
  rewrite (entry_without_type_bits_is_ignored silentInspector
             (recurse silentInspector twoGroups 1) 2 (str "")
             charDeviceInfo [] world0 0x21B0).
  - reflexivity.
  - vm_compute. set_solver.
  - reflexivity.
  - reflexivity.
Defined.

(** ** The walk: which inode records are fetched *)

Lemma mapM_send (entries : list DirEntry) w :
  mapM (fun entry => sendDebugfsCommand (id_ (inode entry))) entries w
  = (Ok (map (fun _ => tt) entries),
     withSent (map (fun entry => id_ (inode entry)) entries) w).
Proof.
  revert w. induction entries as [|e entries IH]; intros w; cbn [mapM map].
  - unfold ret. now rewrite withSent_nil.
  - unfold bind at 1, sendDebugfsCommand. fold (withSent [id_ (inode e)] w).
    unfold bind at 1. rewrite IH. unfold ret.
    now rewrite withSent_app.
Qed.

Lemma mapM_decode inspector (entries : list DirEntry) w :
  mapM (fun entry =>
          match afterFirstLine (inspector (id_ (inode entry))) with
          | None => lift (Throw WeirdResponse)
          | Some hex => ret (new_InodeInfo (inode entry) (entry_name entry) hex)
          end) entries w
  = (if forallb (hasReply inspector) entries
     then Ok (map (decodeEntry inspector) entries)
     else Throw WeirdResponse, w).
Proof.
  induction entries as [|e entries IH]; cbn [mapM map forallb];
    [reflexivity|].
  unfold bind at 1, hasReply at 1, decodeEntry at 1.
  destruct (afterFirstLine (inspector (id_ (inode e)))) as [hex|];
    [|reflexivity].
  unfold ret at 1. unfold bind at 1. rewrite IH. cbn [andb default].
  now destruct (forallb (hasReply inspector) entries).
Qed.

Lemma fetchInodeInfos_run inspector (entries : list DirEntry) w :
  fetchInodeInfos inspector entries w
  = (if forallb (hasReply inspector) entries
     then Ok (map (decodeEntry inspector) entries)
     else Throw WeirdResponse,
     withSent (map (fun entry => id_ (inode entry)) entries) w).
Proof.
  unfold fetchInodeInfos, bind. rewrite mapM_send. apply mapM_decode.
Qed.

(** X16.  The batch that fetches the inode records of the entries of a
    directory writes one [id] command per entry, in the order of the
    entries, before it looks at any reply.  When every reply has a line
    feed it returns the decoded records in the same order, each with the
    inode number and the name of its entry; when some reply has none it
    throws, and all the commands have been written all the same. *)
Theorem fetchInodeInfos_batch :
  forall (inspector : Cmd -> jsstring) (entries : list DirEntry) (w : World),
    fetchInodeInfos inspector entries w
    = (if forallb (hasReply inspector) entries
       then Ok (map (decodeEntry inspector) entries)
       else Throw WeirdResponse,
       withSent (map (fun entry => id_ (inode entry)) entries) w)
    /\ map id (map (decodeEntry inspector) entries) = map inode entries
    /\ map name (map (decodeEntry inspector) entries)
       = map entry_name entries.
Proof.
  intros inspector entries w. split; [|split].
  - apply fetchInodeInfos_run.
  - rewrite map_map. reflexivity.
  - rewrite map_map. reflexivity.
Qed.

Lemma filterM_records table path (entries : list DirEntry) w :
  (forall e, In e entries -> exists safe, inodeIsSafe table (inode e) = Ok safe) ->
  filterM (fun entry =>
             safe <- lift (inodeIsSafe table (inode entry)) ;;
             (if negb safe
              then console_log (str "BAD " ++ path ++ str "/"
                                ++ entry_name entry)
              else ret tt) ;;
             ret safe) entries w
  = (Ok (List.filter (recordSafe table) entries),
     withConsole
       (map (fun e => str "BAD " ++ path ++ str "/" ++ entry_name e)
          (List.filter (fun e => negb (recordSafe table e)) entries)) w).
Proof.
  set (cb := fun entry : DirEntry =>
               safe <- lift (inodeIsSafe table (inode entry)) ;;
               (if negb safe
                then console_log (str "BAD " ++ path ++ str "/"
                                  ++ entry_name entry)
                else ret tt) ;;
               ret safe).
  assert (Hcb : forall e w0 safe,
             inodeIsSafe table (inode e) = Ok safe ->
             cb e w0
             = (Ok safe,
                if safe then w0
                else withConsole
                       [str "BAD " ++ path ++ str "/" ++ entry_name e] w0)).
  { intros e w0 safe He. unfold cb, bind, lift. rewrite He.
    now destruct safe. }
  revert w. induction entries as [|e entries IH]; intros w Hall;
    cbn [filterM List.filter map].
  - unfold ret, withConsole. destruct w. simpl. now rewrite app_nil_r.
  - destruct (Hall e (or_introl eq_refl)) as [safe Hsafe].
    unfold bind at 1. rewrite (Hcb e w safe Hsafe).
    unfold bind at 1.
    rewrite IH by (intros e' He'; apply Hall; now right).
    assert (Hrs : recordSafe table e = safe)
      by (unfold recordSafe; now rewrite Hsafe).
    rewrite Hrs.
    destruct safe; cbn [negb map]; unfold ret; [reflexivity|].
    unfold withConsole. cbn [sent console inodesVisited].
    now rewrite <- app_assoc.
Qed.

(** X17.  In a directory whose data is safe, the entries whose inode
    record lies in a damaged range are reported, in listing order, and
    left out of everything that follows: the [id] commands are written
    for the other entries only, and only those are visited.  (The groups
    of all entries are taken to be in the table; a missing group makes
    the filter throw.) *)
Theorem damaged_records_are_reported_not_fetched :
  forall (inspector : Cmd -> jsstring) (table : gmap Z Z) (fuel : nat)
         (path : jsstring) (inodeInfo : InodeInfo) (w w1 w2 : World)
         (entries : list DirEntry),
    dataIsSafe inspector (S fuel) inodeInfo w = (Ok true, w1) ->
    getDirEntries inspector (id inodeInfo) w1 = (Ok entries, w2) ->
    (forall e, In e entries ->
               exists safe, inodeIsSafe table (inode e) = Ok safe) ->
    let safeEntries := List.filter (recordSafe table) entries in
    let damaged := List.filter (fun e => negb (recordSafe table e)) entries in
    let w3 := withSent (map (fun e => id_ (inode e)) safeEntries)
                (withConsole
                   (map (fun e => str "BAD " ++ path ++ str "/"
                                  ++ entry_name e) damaged) w2) in
    recurse inspector table (S fuel) path inodeInfo w
    = if forallb (hasReply inspector) safeEntries
      then visitEntries inspector (recurse inspector table fuel) (S fuel)
             path (map (decodeEntry inspector) safeEntries) w3
      else (Throw WeirdResponse, w3).
Proof.
  intros inspector table fuel path info w w1 w2 entries Hsafe Hlist Hall
    safeEntries damaged w3.
  cbn [recurse]. unfold bind at 1. rewrite Hsafe. cbn [negb].
  unfold bind at 1. rewrite Hlist.
  unfold bind at 1. rewrite (filterM_records table path entries w2 Hall).
  fold safeEntries. fold damaged.
  unfold bind at 1.
  rewrite fetchInodeInfos_run. fold w3.
  now destruct (forallb (hasReply inspector) safeEntries).
Qed.

Lemma damaged_records_are_reported_not_fetched_witness :
  recurse badTableInspector {[ 0 := 4096 * 37465428 ]} 1 (str "")
    (decodeEntry badTableInspector (mkDirEntry 2 (str ""))) world0
  = (Ok tt,
     withConsole [str "BAD /lnk"; str "BAD /sda"] (withSent [ls_p 2] world0)).
Proof.
  rewrite (damaged_records_are_reported_not_fetched badTableInspector
             {[ 0 := 4096 * 37465428 ]} 0 (str "")
             (decodeEntry badTableInspector (mkDirEntry 2 (str "")))
             world0 world0 (withSent [ls_p 2] world0)
             [mkDirEntry 12 (str "lnk"); mkDirEntry 13 (str "sda")]).
  - reflexivity.
  - reflexivity.
  - reflexivity.
  - intros e [<- | [<- | []]]; eexists; reflexivity.
Defined.

(** ** Session Multiplexer: invariants of every run *)

Section ExpectInvariants.

Variable prompt : jsstring.

Lemma fst_zip_results (resolvers : list nat) : forall (rs : list jsstring),
  map fst (zip_with (fun p r => (p, Ok r)) resolvers rs)
  = take (length rs) resolvers.
Proof.
  induction resolvers as [|p resolvers IH]; intros [|r rs];
    cbn [zip_with map length take]; try reflexivity.
  now rewrite IH.
Qed.

Lemma accounted_onData chunk st :
  accounted (Expect.onData prompt chunk st) = accounted st
  /\ Expect.calls (Expect.onData prompt chunk st) = Expect.calls st.
Proof.
  unfold Expect.onData, Expect.lookForPrompt.
  rewrite lookForPrompt_loop_spec.
  cbn [Expect.found Expect.sinceLastMatch Expect.streamError
       Expect.promiseResolvers Expect.listening Expect.calls Expect.settled].
  destruct (Expect.responses_loop prompt
              (S (length (Expect.sinceLastMatch st ++ chunk)))
              (Expect.sinceLastMatch st ++ chunk)) as [rs rest].
  unfold accounted.
  cbn [Expect.settled Expect.promiseResolvers Expect.calls].
  split; [|reflexivity].
  now rewrite map_app, fst_zip_results, <- app_assoc, take_drop.
Qed.

Lemma accounted_rejectAll err st :
  accounted (Expect.rejectAll err st) = accounted st
  /\ Expect.calls (Expect.rejectAll err st) = Expect.calls st.
Proof.
  unfold accounted, Expect.rejectAll.
  cbn [Expect.settled Expect.promiseResolvers Expect.calls].
  split; [|reflexivity].
  rewrite map_app, map_map. cbn [fst]. now rewrite map_id, app_nil_r.
Qed.

Lemma accounted_step st ev :
  accounted st ≡ₚ seq 0 (Expect.calls st) ->
  accounted (Expect.step prompt st ev)
  ≡ₚ seq 0 (Expect.calls (Expect.step prompt st ev)).
Proof.
  intros Hst. destruct ev as [chunk|err| | |]; cbn [Expect.step].
  - destruct (Expect.listening st); [|exact Hst].
    destruct (accounted_onData chunk st) as [-> ->]. exact Hst.
  - destruct (Expect.listening st); [|exact Hst].
    unfold Expect.onError.
    destruct (accounted_rejectAll err st) as [-> ->]. exact Hst.
  - destruct (Expect.listening st); [|exact Hst].
    unfold Expect.onEnd.
    destruct (accounted_rejectAll StreamEnded st) as [-> ->]. exact Hst.
  - unfold Expect.do_next, accounted in *.
    destruct (Expect.found st) as [|r found'];
      [destruct (Expect.streamError st) as [err|]|];
      cbn [Expect.settled Expect.promiseResolvers Expect.calls];
      rewrite seq_S; cbn [Nat.add];
      rewrite ?map_app; cbn [map fst].
    + rewrite <- app_assoc, (Permutation_app_comm [_]), app_assoc.
      now apply Permutation_app_tail.
    + rewrite app_assoc. now apply Permutation_app_tail.
    + rewrite <- app_assoc, (Permutation_app_comm [_]), app_assoc.
      now apply Permutation_app_tail.
  - unfold Expect.do_dispose.
    match goal with
    | |- context [Expect.rejectAll ?e ?s] =>
        destruct (accounted_rejectAll e s) as [-> ->]
    end.
    exact Hst.
Qed.

Lemma accounted_run evs :
  accounted (Expect.run prompt Expect.init evs)
  ≡ₚ seq 0 (Expect.calls (Expect.run prompt Expect.init evs)).
Proof.
  induction evs as [|ev evs IH] using rev_ind; [reflexivity|].
  rewrite run_snoc. now apply accounted_step.
Qed.

Lemma calls_run evs :
  Expect.calls (Expect.run prompt Expect.init evs) = Expect.callCount evs.
Proof.
  induction evs as [|ev evs IH] using rev_ind; [reflexivity|].
  rewrite run_snoc, callCount_snoc. destruct ev as [chunk|err| | |];
    cbn [Expect.step].
  - destruct (Expect.listening _); [|lia].
    destruct (accounted_onData chunk (Expect.run prompt Expect.init evs))
      as [_ ->]. lia.
  - destruct (Expect.listening _); cbn; lia.
  - destruct (Expect.listening _); cbn; lia.
  - unfold Expect.do_next.
    destruct (Expect.found _); [destruct (Expect.streamError _)|];
      cbn [Expect.calls]; lia.
  - cbn. lia.
Qed.

Lemma settlesEagerly_step st ev :
  settlesEagerly st -> settlesEagerly (Expect.step prompt st ev).
Proof.
  intros [Hf He]. destruct ev as [chunk|err| | |]; cbn [Expect.step];
    try (destruct (Expect.listening st); [|now split]);
    try (split; intros _; reflexivity).
  - unfold Expect.onData, Expect.lookForPrompt.
    rewrite lookForPrompt_loop_spec.
    cbn [Expect.found Expect.sinceLastMatch Expect.streamError
         Expect.promiseResolvers Expect.listening Expect.calls
         Expect.settled].
    destruct (Expect.responses_loop prompt
                (S (length (Expect.sinceLastMatch st ++ chunk)))
                (Expect.sinceLastMatch st ++ chunk)) as [rs rest].
    split; cbn [Expect.found Expect.promiseResolvers Expect.streamError].
    + intros Hne.
      destruct (Expect.found st) as [|r0 f0] eqn:Efound.
      * cbn [app] in Hne. apply drop_ge.
        destruct (decide (length rs <= length (Expect.promiseResolvers st))%nat);
          [|lia].
        rewrite drop_ge in Hne by lia. congruence.
      * rewrite Hf by discriminate. apply drop_nil.
    + intros Herr. rewrite (He Herr). apply drop_nil.
  - unfold Expect.do_next.
    destruct (Expect.found st) as [|r found'] eqn:Efound.
    + destruct (Expect.streamError st) as [err|] eqn:Eerr.
      * assert (Hr : Expect.promiseResolvers st = [])
          by (apply He; discriminate).
        split; intros _; cbn [Expect.promiseResolvers]; exact Hr.
      * split; cbn [Expect.found Expect.streamError]; congruence.
    + assert (Hr : Expect.promiseResolvers st = []) by (apply Hf; discriminate).
      split; intros _; cbn [Expect.promiseResolvers]; exact Hr.
Qed.

Lemma settlesEagerly_run evs :
  settlesEagerly (Expect.run prompt Expect.init evs).
Proof.
  induction evs as [|ev evs IH] using rev_ind.
  - split; intros H; reflexivity.
  - rewrite run_snoc. now apply settlesEagerly_step.
Qed.

End ExpectInvariants.

(** X18.  In every run of the multiplexer, whatever the events and their
    order, each call of [next] made so far is accounted for exactly
    once: it is either settled (once) or pending (once), never both and
    never twice.  The promises settled and the promises pending are
    together the calls 0, 1, ..., up to the number of calls made. *)
Theorem every_call_settled_or_pending_once :
  forall (prompt : jsstring) (evs : list Expect.event),
    let st := Expect.run prompt Expect.init evs in
    Expect.calls st = Expect.callCount evs
    /\ map fst (Expect.settled st) ++ Expect.promiseResolvers st
       ≡ₚ seq 0 (Expect.callCount evs)
    /\ NoDup (map fst (Expect.settled st) ++ Expect.promiseResolvers st).
Proof.
  intros prompt evs st.
  pose proof (accounted_run prompt evs) as Hperm.
  pose proof (calls_run prompt evs) as Hcalls.
  fold st in Hperm, Hcalls. unfold accounted in Hperm. rewrite Hcalls in Hperm.
  split; [exact Hcalls|]. split; [exact Hperm|].
  rewrite Hperm. apply NoDup_seq.
Qed.

(** X19.  In every run of the multiplexer a buffered response and a
    pending call never exist at once, and nothing is pending once the
    stream has failed or the closure was disposed of.  So a call of
    [next] made while a response is buffered, or after a failure, is
    settled in the same step and leaves nothing pending. *)
Theorem calls_are_settled_eagerly :
  forall (prompt : jsstring) (evs : list Expect.event),
    let st := Expect.run prompt Expect.init evs in
    (Expect.found st <> [] -> Expect.promiseResolvers st = [])
    /\ (Expect.streamError st <> None -> Expect.promiseResolvers st = [])
    /\ (Expect.found st <> [] \/ Expect.streamError st <> None ->
        exists outcome,
          Expect.settled (Expect.step prompt st Expect.next)
          = Expect.settled st ++ [(Expect.calls st, outcome)]
          /\ Expect.promiseResolvers (Expect.step prompt st Expect.next) = []).
Proof.
  intros prompt evs st.
  pose proof (settlesEagerly_run prompt evs) as [Hf He]. fold st in Hf, He.
  split; [exact Hf|]. split; [exact He|].
  intros Hor. cbn [Expect.step]. unfold Expect.do_next.
  destruct (Expect.found st) as [|r found'] eqn:Efound.
  - destruct Hor as [Hne | Herr]; [congruence|].
    destruct (Expect.streamError st) as [err|] eqn:Eerr; [|congruence].
    exists (Throw err). split; [reflexivity|].
    cbn [Expect.promiseResolvers]. apply He. discriminate.
  - exists (Ok r). split; [reflexivity|].
    cbn [Expect.promiseResolvers]. apply Hf. discriminate.
Qed.

Lemma calls_are_settled_eagerly_witness :
  let st := Expect.run debugfsPrompt Expect.init
              [Expect.next; Expect.end_; Expect.data (str "late debugfs:")] in
  Expect.promiseResolvers st = []
  /\ exists outcome,
       Expect.settled (Expect.step debugfsPrompt st Expect.next)
       = Expect.settled st ++ [(Expect.calls st, outcome)]
       /\ Expect.promiseResolvers (Expect.step debugfsPrompt st Expect.next)
          = [].
Proof.
  intros st.
  destruct (calls_are_settled_eagerly debugfsPrompt
              [Expect.next; Expect.end_; Expect.data (str "late debugfs:")])
    as (_ & Herr & Hnext).
  fold st in Herr, Hnext.
  split.
  - apply Herr. subst st. vm_compute. discriminate.
  - apply Hnext. right. subst st. vm_compute. discriminate.
Defined.

(** ** Session Multiplexer: replies written and replies handed out *)

Lemma responses_loop_joined prompt (rs : list jsstring) : forall rest fuel,
  prompt <> [] ->
  Forall (promptFree prompt) rs ->
  indexOf rest prompt = None ->
  (length (joinReplies prompt rs ++ rest) < fuel)%nat ->
  Expect.responses_loop prompt fuel (joinReplies prompt rs ++ rest)
  = (rs, rest).
Proof.
  induction rs as [|r rs IH]; intros rest fuel Hp Hfree Hrest Hfuel;
    (destruct fuel as [|fuel]; [lia|]); cbn [Expect.responses_loop].
  - cbn [joinReplies map concat app]. now rewrite Hrest.
  - apply Forall_cons in Hfree as [Hr Hfree].
    unfold joinReplies in *. cbn [map concat] in *.
    rewrite <- app_assoc in *.
    rewrite (indexOf_app prompt _ _ _ Hr).
    assert (Hdrop : drop (length r + length prompt)
                      ((r ++ prompt)
                       ++ concat (map (fun r0 => r0 ++ prompt) rs) ++ rest)
                    = concat (map (fun r0 => r0 ++ prompt) rs) ++ rest)
      by (apply drop_app_length'; now rewrite length_app).
    assert (Htake : take (length r)
                      ((r ++ prompt)
                       ++ concat (map (fun r0 => r0 ++ prompt) rs) ++ rest)
                    = r)
      by (rewrite <- app_assoc; apply take_app_length).
    rewrite Hdrop, Htake.
    rewrite (IH rest fuel Hp Hfree Hrest); [reflexivity|].
    pose proof (prompt_length prompt Hp) as Hlen.
    rewrite !length_app in Hfuel. rewrite length_app. lia.
Qed.

(** X20.  Splitting undoes joining.  When the inspector writes each of
    its replies followed by the prompt, and the prompt occurs in no
    reply (nor across the end of one), the multiplexer hands out exactly
    these replies: in every run of chunks and calls that delivers this
    text, however it is cut into chunks, the [k]-th call is resolved
    with the [k]-th reply, the replies not yet asked for are buffered in
    order, and the text after the last prompt is kept for later. *)
Theorem replies_written_are_replies_received :
  forall (prompt : jsstring) (rs : list jsstring) (rest : jsstring)
         (evs : list Expect.event),
    prompt <> [] ->
    Forall (promptFree prompt) rs ->
    indexOf rest prompt = None ->
    forallb Expect.quiet evs = true ->
    Expect.received evs = joinReplies prompt rs ++ rest ->
    let st := Expect.run prompt Expect.init evs in
    let n := Expect.callCount evs in
    Expect.responses prompt (joinReplies prompt rs ++ rest) = rs
    /\ Expect.settled st = imap (fun k r => (k, Ok r)) (take n rs)
    /\ Expect.found st = drop n rs
    /\ Expect.sinceLastMatch st = rest.
Proof.
  intros prompt rs rest evs Hp Hfree Hrest Hq Hrecv st n.
  pose proof (responses_loop_joined prompt rs rest
                (S (length (joinReplies prompt rs ++ rest)))
                Hp Hfree Hrest (Nat.lt_succ_diag_r _)) as Hloop.
  assert (Hst : st = Expect.mk (drop n rs) rest None
                       (seq (length rs) (n - length rs)) true n
                       (imap (fun k r => (k, Ok r)) (take n rs))).
  { apply (quiet_run_state prompt Hp evs Hq). now rewrite Hrecv. }
  split; [unfold Expect.responses; now rewrite Hloop|].
  rewrite Hst. repeat split; reflexivity.
Qed.

Lemma replies_written_are_replies_received_witness :
  let st := Expect.run debugfsPrompt Expect.init
              [Expect.next; Expect.data (str "banner debugfs: st");
               Expect.next; Expect.data (str "ats debugfs: id")] in
  Expect.settled st
  = [(0%nat, Ok (str "banner ")); (1%nat, Ok (str " stats "))]
  /\ Expect.sinceLastMatch st = str " id".
Proof.
  intros st.
  destruct (replies_written_are_replies_received debugfsPrompt
              [str "banner "; str " stats "] (str " id")
              [Expect.next; Expect.data (str "banner debugfs: st");
               Expect.next; Expect.data (str "ats debugfs: id")])
    as (_ & Hsettled & _ & Hrest).
  - discriminate.
  - repeat constructor.
  - reflexivity.
  - reflexivity.
  - reflexivity.
  - split; [exact Hsettled | exact Hrest].
Defined.

(** ** Session Multiplexer: a stream that ends or fails *)

Lemma repeat_snoc {A} (x : A) n : repeat x (S n) = repeat x n ++ [x].
Proof. induction n as [|n IH]; simpl in *; [reflexivity | now rewrite <- IH]. Qed.

Lemma run_next_after_failure prompt st err m :
  Expect.streamError st = Some err ->
  Expect.promiseResolvers st = [] ->
  Expect.run prompt st (repeat Expect.next m)
  = Expect.mk (drop m (Expect.found st)) (Expect.sinceLastMatch st)
      (Some err) [] (Expect.listening st) (Expect.calls st + m)
      (Expect.settled st
       ++ map (fun j => ((Expect.calls st + j)%nat,
                         afterFailure err (Expect.found st) j)) (seq 0 m)).
Proof.
  intros Herr Hres. induction m as [|m IH].
  - cbn [repeat Expect.run fold_left seq map]. destruct st; simpl in *.
    subst. now rewrite Nat.add_0_r, app_nil_r.
  - rewrite repeat_snoc, run_snoc, IH. cbn [Expect.step].
    unfold Expect.do_next.
    cbn [Expect.found Expect.streamError Expect.calls Expect.settled
         Expect.promiseResolvers Expect.sinceLastMatch Expect.listening].
    rewrite seq_S, map_app. cbn [map Nat.add].
    destruct (drop m (Expect.found st)) as [|r found'] eqn:Hd.
    + assert (Hnone : Expect.found st !! m = None)
        by (apply lookup_ge_None; now apply drop_nil_inv in Hd).
      assert (Ha : afterFailure err (Expect.found st) m = Throw err)
        by (unfold afterFailure; now rewrite Hnone).
      rewrite Ha, app_assoc.
      rewrite (drop_ge _ (S m)) by (apply lookup_ge_None in Hnone; lia).
      f_equal. lia.
    + assert (Hsome : Expect.found st !! m = Some r).
      { rewrite <- (Nat.add_0_r m), <- lookup_drop. now rewrite Hd. }
      assert (Ha : afterFailure err (Expect.found st) m = Ok r)
        by (unfold afterFailure; now rewrite Hsome).
      rewrite Ha, app_assoc.
      replace (S m) with (m + 1)%nat by lia.
      rewrite <- drop_drop, Hd. cbn [drop]. f_equal. lia.
Qed.

(** X21.  When the stream ends or fails while the closure listens, every
    call of [next] that is pending fails with that error (a "stream
    ended" error for an end).  Calls made afterwards, with nothing more
    arriving, are settled at once: the responses buffered before the
    failure are still handed out, oldest first, and once the buffer is
    empty every call fails with the same error. *)
Theorem stream_failure_fails_pending_then_later_calls :
  forall (prompt : jsstring) (st : Expect.t) (ev : Expect.event) (err : exn)
         (m : nat),
    Expect.listening st = true ->
    ev = Expect.error err \/ (ev = Expect.end_ /\ err = StreamEnded) ->
    let st1 := Expect.step prompt st ev in
    let st2 := Expect.run prompt st1 (repeat Expect.next m) in
    Expect.settled st1
    = Expect.settled st
      ++ map (fun p => (p, Throw err)) (Expect.promiseResolvers st)
    /\ Expect.settled st2
       = Expect.settled st1
         ++ map (fun j => ((Expect.calls st + j)%nat,
                           afterFailure err (Expect.found st) j)) (seq 0 m)
    /\ Expect.promiseResolvers st2 = []
    /\ (forall j, (length (Expect.found st) <= j)%nat ->
                  afterFailure err (Expect.found st) j = Throw err).
Proof.
  intros prompt st ev err m Hl Hev st1 st2.
  assert (Hst1 : st1 = Expect.rejectAll err st).
  { subst st1. destruct Hev as [-> | [-> ->]]; cbn [Expect.step];
      now rewrite Hl. }
  assert (Hrun : st2 = Expect.run prompt (Expect.rejectAll err st)
                         (repeat Expect.next m)) by (subst st2; now rewrite Hst1).
  rewrite (run_next_after_failure prompt (Expect.rejectAll err st) err m
             eq_refl eq_refl) in Hrun.
  split; [now rewrite Hst1|]. split; [|split].
  - rewrite Hrun, Hst1. reflexivity.
  - now rewrite Hrun.
  - intros j Hj. unfold afterFailure.
    now rewrite (proj2 (lookup_ge_None _ _) Hj).
Qed.

Lemma stream_failure_fails_pending_then_later_calls_witness :
  let st := Expect.run debugfsPrompt Expect.init
              [Expect.next; Expect.next; Expect.data (str "debugfs: st")] in
  Expect.settled
    (Expect.run debugfsPrompt (Expect.step debugfsPrompt st Expect.end_)
       (repeat Expect.next 1))
  = [(0%nat, Ok []); (1%nat, Throw StreamEnded); (2%nat, Throw StreamEnded)].
Proof.
  intros st.
  destruct (stream_failure_fails_pending_then_later_calls debugfsPrompt st
              Expect.end_ StreamEnded 1) as (H1 & H2 & _).
  - reflexivity.
  - right. split; reflexivity.
  - rewrite H2, H1. reflexivity.
Defined.

(** ** Hex-Dump Decoder: decoding a dump *)

Lemma below_check (P : Z -> bool) (n : nat) :
  forallb P (map Z.of_nat (seq 0 n)) = true ->
  forall z, 0 <= z < Z.of_nat n -> P z = true.
Proof.
  intros Hall z Hz. rewrite forallb_forall in Hall. apply Hall.
  rewrite <- (Z2Nat.id z) by lia. apply in_map. apply in_seq. lia.
Qed.

Lemma hexByte_facts b :
  0 <= b < 256 ->
  parseInt (hexByte b) 16 = Some b
  /\ forallb isWordChar (hexByte b) = true
  /\ isLineTerminator (hexDigit (b mod 16)) = false.
Proof.
  intros Hb.
  pose proof (below_check
    (fun b => match parseInt (hexByte b) 16 with
              | Some v => v =? b
              | None => false
              end
              && forallb isWordChar (hexByte b)
              && negb (isLineTerminator (hexDigit (b mod 16))))
    256 ltac:(vm_compute; reflexivity) b Hb) as H.
  cbv beta in H. apply andb_true_iff in H as [H H3].
  apply andb_true_iff in H as [H1 H2].
  destruct (parseInt (hexByte b) 16) as [v|]; [|discriminate].
  apply Z.eqb_eq in H1. subst v.
  apply negb_true_iff in H3. auto.
Qed.

Lemma octal4_facts off :
  0 <= off < 4096 ->
  parseInt (octal4 off) 8 = Some off
  /\ forallb isOctalDigit (octal4 off) = true.
Proof.
  intros Hoff.
  pose proof (below_check
    (fun n => match parseInt (octal4 n) 8 with
              | Some v => v =? n
              | None => false
              end
              && forallb isOctalDigit (octal4 n))
    4096 ltac:(vm_compute; reflexivity) off Hoff) as H.
  cbv beta in H. apply andb_true_iff in H as [H1 H2].
  destruct (parseInt (octal4 off) 8) as [v|]; [|discriminate].
  apply Z.eqb_eq in H1. subst v. auto.
Qed.

Lemma takeN_app n p (w t : jsstring) :
  length w = n -> forallb p w = true -> takeN n p (w ++ t) = Some (w, t).
Proof.
  intros Hlen Hp. unfold takeN.
  subst n. rewrite take_app_length, drop_app_length.
  now rewrite Nat.eqb_refl, Hp.
Qed.

Lemma literal_app_self l t : literal l (l ++ t) = Some t.
Proof. now apply literal_spec. Qed.

Lemma hexWords_dump (ws : list jsstring) t :
  Forall (fun w => length w = 4%nat /\ forallb isWordChar w = true) ws ->
  hexWords (length ws) (concat (map (fun w => 32 :: w) ws) ++ t)
  = Some (ws, t).
Proof.
  induction 1 as [|w ws [Hlen Hword] _ IH]; cbn [length hexWords map concat];
    [reflexivity|].
  change (str " ") with [32].
  rewrite <- app_assoc. cbn [app].
  change (32 :: w ++ concat (map (fun w0 => 32 :: w0) ws) ++ t)
    with ([32] ++ w ++ concat (map (fun w0 => 32 :: w0) ws) ++ t).
  rewrite literal_app_self, (takeN_app 4 _ w _ Hlen Hword), IH.
  reflexivity.
Qed.

Ltac destruct_chunk c H :=
  let Hlen := fresh "Hlen" in
  let Hoct := fresh "Hoct" in
  destruct H as [Hlen Hoct];
  do 16 (destruct c as [|? c]; [discriminate Hlen|]);
  destruct c; [clear Hlen | discriminate Hlen].

Lemma hexWord_ok a b :
  0 <= a < 256 -> 0 <= b < 256 ->
  length (hexByte a ++ hexByte b) = 4%nat
  /\ forallb isWordChar (hexByte a ++ hexByte b) = true.
Proof.
  intros Ha Hb. split; [reflexivity|]. rewrite forallb_app.
  destruct (hexByte_facts a Ha) as (_ & -> & _).
  destruct (hexByte_facts b Hb) as (_ & -> & _). reflexivity.
Qed.

Lemma hexWordsOf_chunk c :
  isChunk c ->
  length (hexWordsOf c) = 8%nat
  /\ Forall (fun w => length w = 4%nat /\ forallb isWordChar w = true)
       (hexWordsOf c)
  /\ forall i, (i < 16)%nat ->
               substr (nth (i / 2) (hexWordsOf c) []) ((i mod 2) * 2) 2
               = hexByte (nth i c 0).
Proof.
  intros Hc. destruct_chunk c Hc.
  unfold octets in Hoct. rewrite List.Forall_forall in Hoct.
  split; [reflexivity|]. split.
  - cbn [hexWordsOf].
    repeat (constructor; [apply hexWord_ok; apply Hoct; simpl; tauto|]).
    constructor.
  - intros i Hi.
    do 16 (destruct i as [|i]; [reflexivity|]). lia.
Qed.

Lemma parseHexPattern_dumpLine off c t :
  0 <= off < 4096 -> isChunk c ->
  parseHexPattern (dumpLine off c ++ t)
  = Some ((octal4 off, hexWordsOf c), 45%nat).
Proof.
  intros Hoff Hc.
  destruct (hexWordsOf_chunk c Hc) as (Hlen & Hwords & _).
  destruct (octal4_facts off Hoff) as [_ Hoct].
  unfold parseHexPattern, dumpLine. rewrite <- !app_assoc.
  rewrite (takeN_app 4 _ (octal4 off) _ eq_refl Hoct).
  change (str " ") with [32]. rewrite literal_app_self.
  rewrite <- Hlen, hexWords_dump by exact Hwords. reflexivity.
Qed.

(** What the inner loop leaves at a position of the line it stores. *)
Lemma storeBytes_written start ws count : forall i (b : Buffer) i0,
  0 <= start ->
  (i <= i0 < i + count)%nat ->
  (Z.to_nat start + i0 < length b)%nat ->
  byteAt (storeBytes start ws count i b) (Z.to_nat start + i0)
  = toUint8 (parseInt (substr (nth (i0 / 2) ws []) ((i0 mod 2) * 2) 2) 16).
Proof.
  induction count as [|count IH]; intros i b i0 Hs Hi Hlen; [lia|].
  cbn [storeBytes].
  replace (0 <=? start + Z.of_nat i) with true by (symmetry; apply Z.leb_le; lia).
  destruct (decide (i0 = i)) as [-> | Hne].
  - rewrite storeBytes_other by lia.
    rewrite byteAt_lookup.
    replace (Z.to_nat (start + Z.of_nat i)) with (Z.to_nat start + i)%nat by lia.
    now rewrite list_lookup_insert_eq by lia.
  - apply IH; [exact Hs | lia | now rewrite length_insert].
Qed.

Lemma searchLineStart_here {G} (pat : jsstring -> option (G * nat)) s i g len :
  pat s = Some (g, len) ->
  searchLineStart pat s i true = Some (g, (i + len)%nat).
Proof. intros H. destruct s; cbn [searchLineStart]; now rewrite H. Qed.

Lemma startsLine_between pre sep t :
  betweenLines pre sep ->
  startsLine (pre ++ sep ++ t) (length pre) = match sep with
                                              | [] => true
                                              | _ => false
                                              end.
Proof.
  intros [[-> ->] | (body & ch & -> & Hch & ->)]; [reflexivity|].
  rewrite length_app, Nat.add_1_r. cbn [startsLine].
  rewrite <- app_assoc. cbn [app].
  now rewrite list_lookup_middle by reflexivity.
Qed.

Lemma exec_dump_line pre sep off c t :
  0 <= off < 4096 -> isChunk c -> betweenLines pre sep ->
  parseHexRegex_exec (pre ++ sep ++ dumpLine off c ++ t) (length pre)
  = Some ((octal4 off, hexWordsOf c), (length pre + length sep + 45)%nat).
Proof.
  intros Hoff Hc Hb. unfold parseHexRegex_exec, execLineStart.
  replace (length (pre ++ sep ++ dumpLine off c ++ t) <? length pre)%nat
    with false by (symmetry; apply Nat.ltb_ge; rewrite length_app; lia).
  rewrite (startsLine_between pre sep _ Hb), drop_app_length.
  pose proof (parseHexPattern_dumpLine off c t Hoff Hc) as Hpat.
  destruct Hb as [[-> ->] | (body & ch & -> & Hch & ->)]; cbn [app length].
  - now rewrite (searchLineStart_here _ _ _ _ _ Hpat).
  - cbn [searchLineStart]. change (isLineTerminator 10) with true.
    rewrite (searchLineStart_here _ _ _ _ _ Hpat). do 2 f_equal. lia.
Qed.

Lemma exec_dump_end pre sep :
  betweenLines pre sep ->
  parseHexRegex_exec (pre ++ sep ++ []) (length pre) = None.
Proof.
  intros Hb. unfold parseHexRegex_exec, execLineStart.
  replace (length (pre ++ sep ++ []) <? length pre)%nat
    with false by (symmetry; apply Nat.ltb_ge; rewrite length_app; lia).
  rewrite (startsLine_between pre sep _ Hb), drop_app_length.
  destruct Hb as [[-> ->] | (body & ch & -> & Hch & ->)]; reflexivity.
Qed.

Lemma dumpLine_shape off c :
  isChunk c ->
  length (dumpLine off c) = 45%nat
  /\ exists body ch, dumpLine off c = body ++ [ch]
                     /\ isLineTerminator ch = false.
Proof.
  intros Hc. pose proof Hc as [_ Hoct0]. destruct_chunk c Hc.
  split; [reflexivity|].
  exists (take 44 (dumpLine off [z; z0; z1; z2; z3; z4; z5; z6; z7; z8; z9;
                                  z10; z11; z12; z13; z14])),
    (hexDigit (z14 mod 16)).
  split; [reflexivity|].
  apply hexByte_facts.
  unfold octets in Hoct. rewrite List.Forall_forall in Hoct.
  apply Hoct. simpl. tauto.
Qed.

Lemma dumpFrom_length cs : forall off,
  Forall isChunk cs -> length (dumpFrom off cs) = (46 * length cs)%nat.
Proof.
  induction cs as [|c cs IH]; intros off Hcs; [reflexivity|].
  apply Forall_cons in Hcs as [Hc Hcs]. cbn [dumpFrom length].
  rewrite !length_app, (proj1 (dumpLine_shape off c Hc)), IH by exact Hcs.
  simpl. lia.
Qed.

Lemma concat_chunks_length cs :
  Forall isChunk cs -> length (concat cs) = (16 * length cs)%nat.
Proof.
  induction 1 as [|c cs [Hlen _] _ IH]; [reflexivity|].
  cbn [concat length]. rewrite length_app, Hlen, IH. lia.
Qed.

(** The decoder's loop over the rest of a dump. *)
Lemma parseHex_loop_dump cs : forall pre sep off (b : Buffer) fuel,
  Forall isChunk cs -> betweenLines pre sep ->
  0 <= off -> off + 16 * Z.of_nat (length cs) <= 4096 ->
  (length cs < fuel)%nat ->
  (Z.to_nat off + 16 * length cs <= length b)%nat ->
  let final := parseHex_loop fuel (pre ++ sep ++ dumpFrom off cs)
                 (length pre) b in
  length final = length b
  /\ (forall j, (j < Z.to_nat off)%nat -> byteAt final j = byteAt b j)
  /\ (forall j, (j < 16 * length cs)%nat ->
                byteAt final (Z.to_nat off + j) = nth j (concat cs) 0).
Proof.
  induction cs as [|c cs IH];
    intros pre sep off b fuel Hcs Hb Hoff Hmax Hfuel Hlen final; subst final;
    (destruct fuel as [|fuel]; [lia|]); cbn [parseHex_loop dumpFrom].
  - rewrite (exec_dump_end pre sep Hb).
    split; [reflexivity|]. split; [reflexivity|]. intros j Hj. simpl in Hj. lia.
  - apply Forall_cons in Hcs as [Hc Hcs]. cbn [length] in *.
    rewrite (exec_dump_line pre sep off c _ ltac:(lia) Hc Hb).
    rewrite (proj1 (octal4_facts off ltac:(lia))).
    destruct (dumpLine_shape off c Hc) as (Hl45 & body & ch & Hshape & Hch).
    set (b' := storeBytes off (hexWordsOf c) 16 0 b).
    assert (Hb' : length b' = length b) by apply storeBytes_length.
    assert (Hhex : pre ++ sep ++ dumpLine off c ++ [10] ++ dumpFrom (off + 16) cs
                   = (pre ++ sep ++ dumpLine off c)
                     ++ [10] ++ dumpFrom (off + 16) cs)
      by now rewrite <- !app_assoc.
    assert (Hli : (length pre + length sep + 45)%nat
                  = length (pre ++ sep ++ dumpLine off c))
      by (rewrite !length_app, Hl45; lia).
    rewrite Hhex, Hli.
    assert (Hbetween : betweenLines (pre ++ sep ++ dumpLine off c) [10]).
    { right. exists (pre ++ sep ++ body), ch.
      rewrite Hshape, <- !app_assoc. auto. }
    destruct (IH (pre ++ sep ++ dumpLine off c) [10] (off + 16) b' fuel
                Hcs Hbetween ltac:(lia) ltac:(lia) ltac:(lia) ltac:(lia))
      as (Hflen & Hfbefore & Hfrest).
    destruct (hexWordsOf_chunk c Hc) as (_ & _ & Hsub).
    split; [now rewrite Hflen|]. split.
    + intros j Hj. rewrite Hfbefore by lia.
      apply storeBytes_other. lia.
    + intros j Hj. cbn [concat].
      destruct (decide (j < 16)%nat) as [Hlt | Hge].
      * rewrite Hfbefore by lia. unfold b'.
        rewrite storeBytes_written by lia.
        rewrite (Hsub j Hlt).
        destruct Hc as [Hc16 Hoct].
        assert (Hbyte : 0 <= nth j c 0 < 256).
        { unfold octets in Hoct. rewrite List.Forall_forall in Hoct.
          apply Hoct. apply nth_In. lia. }
        rewrite (proj1 (hexByte_facts _ Hbyte)). cbn [toUint8].
        rewrite Z.mod_small by lia.
        now rewrite app_nth1 by lia.
      * replace (Z.to_nat off + j)%nat
          with (Z.to_nat (off + 16) + (j - 16))%nat by lia.
        rewrite Hfrest by lia.
        destruct Hc as [Hc16 _].
        rewrite app_nth2 by lia. now rewrite Hc16.
Qed.

(** X22.  Decoding undoes dumping.  For at most 256 chunks of 16 octets,
    the dump that gives each chunk on a line of its own (the offset in
    four octal digits, two spaces, eight words of four hexadecimal
    digits) is decoded to exactly these octets in this order; a larger
    buffer holds them at its start. *)
Theorem parseHex_decodes_dump :
  forall (chunks : list (list Z)) (size : nat),
    Forall isChunk chunks ->
    (length chunks <= 256)%nat ->
    (16 * length chunks <= size)%nat ->
    parseHex (16 * length chunks) (dumpFrom 0 chunks) = concat chunks
    /\ take (16 * length chunks) (parseHex size (dumpFrom 0 chunks))
       = concat chunks.
Proof.
  intros chunks size Hcs Hn Hsize.
  assert (Hexact : parseHex (16 * length chunks) (dumpFrom 0 chunks)
                   = concat chunks).
  { pose proof (dumpFrom_length chunks 0 Hcs) as Hdl.
    destruct (parseHex_loop_dump chunks [] [] 0
                (Buffer_alloc (16 * length chunks))
                (S (length (dumpFrom 0 chunks))) Hcs
                (or_introl (conj eq_refl eq_refl))
                ltac:(lia) ltac:(lia) ltac:(lia)
                ltac:(unfold Buffer_alloc; rewrite repeat_length; lia))
      as (Hlen & _ & Hbytes).
    cbn [app length] in Hlen, Hbytes. fold (parseHex (16 * length chunks)
                                               (dumpFrom 0 chunks)) in *.
    apply (nth_ext _ _ 0 0).
    - now rewrite parseHex_length, concat_chunks_length.
    - intros j Hj. rewrite parseHex_length in Hj.
      exact (Hbytes j Hj). }
  split; [exact Hexact|].
  rewrite <- Hexact.
  replace size with (16 * length chunks + (size - 16 * length chunks))%nat
    at 1 by lia.
  unfold parseHex.
  change (take (16 * length chunks)) with (take (A:=Z) (16 * length chunks)).
  now rewrite parseHex_loop_take, take_alloc.
Qed.

Lemma parseHex_decodes_dump_witness :
  parseHex (16 * length dumpedChunks) (dumpFrom 0 dumpedChunks)
  = concat dumpedChunks
  /\ take (16 * length dumpedChunks) (parseHex 256 (dumpFrom 0 dumpedChunks))
     = concat dumpedChunks.
Proof.
  apply (parseHex_decodes_dump dumpedChunks 256).
  - repeat constructor; simpl; lia.
  - simpl. lia.
  - simpl. lia.
Defined.

(** ** Classic block map: files of up to 1036 blocks *)

(** X23.  For a file of [B <= 1036] blocks the classic walk consults the
    first [min 12 B] direct pointers and, when [B > 12], the first
    [B - 12] pointers of the single-indirect block, and nothing else:
    with [B <= 12] no command is sent, with [B > 12] the only command is
    the dump of the block [i_block[12]], which is not sent when a direct
    pointer is unsafe.  The verdict is the conjunction of [blockIsSafe]
    over the pointers consulted; the number of the single-indirect block
    itself is not tested, and the pointers 13 and 14 are not read. *)
Theorem blocksAreSafe_up_to_single_indirect :
  forall (inspector : Cmd -> jsstring) (this : InodeInfo) (i_block : Buffer)
         (w : World) (B : Z),
    blocksInUse this = Ok B ->
    length i_block = 60%nat ->
    0 <= B <= 12 + 1024 ->
    blocksAreSafe inspector this i_block w
    = if forallb blockIsSafe
           (map (pointerAt i_block) (seq 0 (Z.to_nat (Z.min 12 B))))
      then if B <=? 12 then (Ok true, w)
           else (match afterFirstLine (inspector (bd (pointerAt i_block 12)))
                 with
                 | Some hex =>
                     Ok (forallb blockIsSafe
                           (map (pointerAt (parseHex 4096 hex))
                              (seq 0 (Z.to_nat (B - 12)))))
                 | None => Throw WeirdResponse
                 end, withSent [bd (pointerAt i_block 12)] w)
      else (Ok false, w).
Proof.
  intros inspector this i_block w B HB Hlen HBr. unfold blocksAreSafe.
  unfold bind at 1, lift at 1. rewrite HB.
  assert (Hd : directBlocks B = Z.min 12 B) by reflexivity.
  assert (H1 : level1Blocks B = Z.min 1024 (B - Z.min 12 B)) by reflexivity.
  assert (H2 : level2Blocks B <= 0)
    by (unfold level2Blocks; rewrite H1, Hd; lia).
  rewrite pointersAreSafe_forallb by (rewrite Hd; lia).
  unfold bind at 1, lift at 1. rewrite Hd.
  destruct (forallb blockIsSafe
              (map (pointerAt i_block) (seq 0 (Z.to_nat (Z.min 12 B)))));
    [|reflexivity].
  cbn [negb]. cbv iota.
  destruct (Z.leb_spec B 12) as [Hle | Hgt].
  - replace (level1Blocks B <=? 0) with true
      by (symmetry; apply Z.leb_le; rewrite H1; lia).
    reflexivity.
  - replace (level1Blocks B <=? 0) with false
      by (symmetry; apply Z.leb_gt; rewrite H1; lia).
    replace (level1Blocks B) with (B - 12) by (rewrite H1; lia).
    unfold readUint32LE. rewrite Hlen.
    change (12 * 4 + 4 <=? 60)%nat with true. cbv iota.
    unfold bind at 1, lift at 1. fold (pointerAt i_block 12).
    unfold bind at 1. rewrite blocksL1AreSafe_run by lia.
    destruct (afterFirstLine (inspector (bd (pointerAt i_block 12))))
      as [hex|]; [|reflexivity].
    destruct (forallb blockIsSafe
                (map (pointerAt (parseHex 4096 hex))
                   (seq 0 (Z.to_nat (B - 12))))); cbn [negb]; cbv iota;
      [|reflexivity].
    replace (level2Blocks B <=? 0) with true
      by (symmetry; apply Z.leb_le; exact H2).
    reflexivity.
Qed.

Lemma blocksAreSafe_up_to_single_indirect_witness :
  blocksAreSafe silentInspector sparseInode (get_i_block sparseInode) world0
  = (Ok true, world0).
Proof.
  apply (blocksAreSafe_up_to_single_indirect silentInspector sparseInode
           (get_i_block sparseInode) world0 2).
  - reflexivity.
  - reflexivity.
  - lia.
Defined.

(** ** Classic block map: the walk against the map *)

Lemma forallb_pointers (b : Buffer) (n : nat) :
  forallb blockIsSafe (map (pointerAt b) (seq 0 n)) = true
  <-> forall m, (m < n)%nat -> blockIsSafe (pointerAt b m) = true.
Proof.
  rewrite forallb_forall. split.
  - intros H m Hm. apply H. apply in_map. apply in_seq. lia.
  - intros H x Hx. apply in_map_iff in Hx as (m & <- & Hm).
    apply in_seq in Hm. apply H. lia.
Qed.

Lemma level1BlocksUnder_index (n : Z) (j m : nat) :
  1 <= n ->
  ((j < Z.to_nat (ceilDiv n 1024)
    /\ m < Z.to_nat (level1BlocksUnder n j))%nat
   <-> (m < 1024 /\ 1024 * j + m < Z.to_nat n)%nat).
Proof.
  intros Hn.
  pose proof (ceilDiv_spec n 1024 ltac:(lia)) as Hc.
  split.
  - intros [Hj Hm].
    destruct (share_split 1024 n j ltac:(lia) Hn ltac:(lia)) as [Hfull Hlast].
    change (orElse (Z.rem (Z.min n ((Z.of_nat j + 1) * 1024)) 1024) 1024)
      with (level1BlocksUnder n j) in Hfull, Hlast.
    destruct (decide (Z.of_nat j + 1 < ceilDiv n 1024)) as [Hlt | Hge].
    + rewrite (Hfull Hlt) in Hm. lia.
    + rewrite (Hlast ltac:(lia)) in Hm. lia.
  - intros [Hm Hk].
    assert (Hj : (j < Z.to_nat (ceilDiv n 1024))%nat) by lia.
    split; [exact Hj|].
    destruct (share_split 1024 n j ltac:(lia) Hn ltac:(lia)) as [Hfull Hlast].
    change (orElse (Z.rem (Z.min n ((Z.of_nat j + 1) * 1024)) 1024) 1024)
      with (level1BlocksUnder n j) in Hfull, Hlast.
    destruct (decide (Z.of_nat j + 1 < ceilDiv n 1024)) as [Hlt | Hge].
    + rewrite (Hfull Hlt). lia.
    + rewrite (Hlast ltac:(lia)). lia.
Qed.

Lemma level1BlocksUnder_range (n : Z) (j : nat) :
  1 <= n -> (j < Z.to_nat (ceilDiv n 1024))%nat ->
  1 <= level1BlocksUnder n j <= 1024.
Proof.
  intros Hn Hj.
  exact (proj2 (shares_sum 1024 n ltac:(lia) Hn) j Hj).
Qed.

Section ClassicMap.

Variable inspector : Cmd -> jsstring.

Lemma blocksL1AreSafe_exact blockNum n w v w' :
  0 <= n <= 1024 ->
  blocksL1AreSafe inspector blockNum n w = (Ok v, w') ->
  (v = true
   <-> forall m, (m < Z.to_nat n)%nat ->
                 blockIsSafe (pointerAt (dumpOf inspector blockNum) m) = true).
Proof.
  intros Hn. rewrite blocksL1AreSafe_run by exact Hn. unfold dumpOf.
  destruct (afterFirstLine (inspector (bd blockNum))) as [hex|];
    [|discriminate].
  intros [= <- _]. apply forallb_pointers.
Qed.

Lemma blocksL2_loop_exact (buffer : Buffer) (n : Z) count : forall i w v w',
  length buffer = 4096%nat ->
  1 <= n <= 1024 * 1024 ->
  (i + count = Z.to_nat (ceilDiv n 1024))%nat ->
  blocksL2_loop inspector buffer n count i w = (Ok v, w') ->
  (v = true
   <-> forall j, (i <= j < Z.to_nat (ceilDiv n 1024))%nat ->
         blockIsSafe (pointerAt buffer j) = true
         /\ forall m, (m < Z.to_nat (level1BlocksUnder n j))%nat ->
              blockIsSafe
                (pointerAt (dumpOf inspector (pointerAt buffer j)) m) = true).
Proof.
  pose proof (ceilDiv_spec n 1024 ltac:(lia)) as Hc.
  induction count as [|count IH]; intros i w v w' Hlen Hn Hi;
    cbn [blocksL2_loop].
  - intros [= <- _]. split; [|reflexivity]. intros _ j Hj. lia.
  - unfold bind at 1, lift at 1. unfold readUint32LE.
    replace (i * 4 + 4 <=? length buffer)%nat with true
      by (symmetry; apply Nat.leb_le; lia).
    fold (pointerAt buffer i).
    destruct (blockIsSafe (pointerAt buffer i)) eqn:Hptr; cbn [negb].
    + pose proof (level1BlocksUnder_range n i ltac:(lia) ltac:(lia))
        as Hshare.
      unfold bind at 1.
      destruct (blocksL1AreSafe inspector (pointerAt buffer i)
                  (level1BlocksUnder n i) w) as [[safe | e | |] w1] eqn:HL1;
        try discriminate.
      pose proof (blocksL1AreSafe_exact _ (level1BlocksUnder n i) _ _ _
                    ltac:(lia) HL1) as Hsafe.
      destruct safe; cbn [negb].
      * intros Hrest.
        rewrite (IH (S i) w1 v w' Hlen Hn ltac:(lia) Hrest).
        split.
        -- intros H j Hj. destruct (decide (j = i)) as [-> | Hne].
           ++ split; [exact Hptr | now apply Hsafe].
           ++ apply H. lia.
        -- intros H j Hj. apply H. lia.
      * intros [= <- _]. split; [discriminate|].
        intros H. apply Hsafe. apply (H i). lia.
    + intros [= <- _]. split; [discriminate|].
      intros H. destruct (H i ltac:(lia)) as [Hi' _]. congruence.
Qed.

Lemma blocksL2AreSafe_exact blockNum n w v w' :
  1 <= n <= 1024 * 1024 ->
  blocksL2AreSafe inspector blockNum n w = (Ok v, w') ->
  (v = true
   <-> forall k, (k < Z.to_nat n)%nat ->
         let l1 := pointerAt (dumpOf inspector blockNum) (k / 1024) in
         blockIsSafe l1 = true
         /\ blockIsSafe (pointerAt (dumpOf inspector l1) (k mod 1024)) = true).
Proof.
  intros Hn. unfold blocksL2AreSafe. unfold bind at 1.
  rewrite debugfsCmd_run.
  destruct (afterFirstLine (inspector (bd blockNum))) as [hex|] eqn:Hhex;
    [|discriminate].
  assert (Hd : dumpOf inspector blockNum = parseHex 4096 hex)
    by (unfold dumpOf; now rewrite Hhex).
  rewrite Hd. cbv zeta. intros Hloop.
  rewrite (blocksL2_loop_exact _ _ _ 0 _ _ _ (parseHex_length _ _) Hn
             ltac:(reflexivity) Hloop).
  split.
  - intros H k Hk.
    pose proof (Nat.div_mod_eq k 1024) as Hdm.
    pose proof (Nat.mod_upper_bound k 1024 ltac:(lia)) as Hm.
    destruct (proj2 (level1BlocksUnder_index n (k / 1024) (k mod 1024)
                       ltac:(lia)) ltac:(lia)) as [Hj Hshare].
    destruct (H (k / 1024)%nat ltac:(lia)) as [Hptr Hdata].
    split; [exact Hptr | now apply Hdata].
  - intros H j Hj. split.
    + destruct (proj1 (level1BlocksUnder_index n j 0 ltac:(lia))) as [_ Hk].
      { split; [lia|].
        pose proof (level1BlocksUnder_range n j ltac:(lia) ltac:(lia)). lia. }
      destruct (H (1024 * j)%nat ltac:(lia)) as [Hptr _].
      replace (1024 * j / 1024)%nat with j in Hptr
        by (rewrite Nat.mul_comm, Nat.div_mul; lia).
      exact Hptr.
    + intros m Hm.
      destruct (proj1 (level1BlocksUnder_index n j m ltac:(lia))
                  ltac:(lia)) as [Hm' Hk].
      destruct (H (1024 * j + m)%nat Hk) as [_ Hdata].
      replace ((1024 * j + m) / 1024)%nat with j in Hdata
        by (apply (Nat.div_unique _ _ _ m); lia).
      replace ((1024 * j + m) mod 1024)%nat with m in Hdata
        by (apply (Nat.mod_unique _ _ j); lia).
      exact Hdata.
Qed.

End ClassicMap.

(** X24.  The classic walk follows the block map.  For a file of [B]
    blocks, [B] at most 12 + 1024 + 1024^2, whenever [blocksAreSafe]
    returns a verdict, the verdict is [true] exactly when the number of
    each of the first [B] data blocks of the file, looked up in the
    inode, under the single-indirect block or under the double-indirect
    block as the dumps give them, is safe, and so is the number of each
    single-indirect block under the double-indirect block that holds
    one of them.  (The numbers of the blocks [i_block[12]] and
    [i_block[13]] themselves are not tested.) *)
Theorem blocksAreSafe_follows_block_map :
  forall (inspector : Cmd -> jsstring) (this : InodeInfo) (i_block : Buffer)
         (w w' : World) (v : bool) (B : Z),
    blocksInUse this = Ok B ->
    length i_block = 60%nat ->
    0 <= B <= 12 + 1024 + 1024 * 1024 ->
    blocksAreSafe inspector this i_block w = (Ok v, w') ->
    (v = true
     <-> forall k, (k < Z.to_nat B)%nat ->
           blockIsSafe (blockOfFile inspector i_block k) = true
           /\ ((1036 <= k)%nat ->
               blockIsSafe (indexBlockOf inspector i_block k) = true)).
Proof.
  intros inspector this i_block w w' v B HB Hlen HBr.
  assert (Hd : directBlocks B = Z.min 12 B) by reflexivity.
  assert (H1 : level1Blocks B = Z.min 1024 (B - Z.min 12 B)) by reflexivity.
  assert (H2 : level2Blocks B
               = Z.min (1024 * 1024) (B - Z.min 12 B - level1Blocks B))
    by reflexivity.
  assert (H3 : level3Blocks B <= 0)
    by (unfold level3Blocks; rewrite H2, H1, Hd; lia).
  assert (Hlow : forall k, (k < 12)%nat ->
                   blockOfFile inspector i_block k = pointerAt i_block k).
  { intros k Hk. unfold blockOfFile.
    now destruct (Nat.ltb_spec k 12); [|lia]. }
  assert (Hmid : forall m, (m < 1024)%nat ->
                   blockOfFile inspector i_block (12 + m)
                   = pointerAt (dumpOf inspector (pointerAt i_block 12)) m).
  { intros m Hm. unfold blockOfFile.
    destruct (Nat.ltb_spec (12 + m) 12); [lia|].
    destruct (Nat.ltb_spec (12 + m) 1036); [|lia].
    f_equal. lia. }
  assert (Hhigh : forall k,
                    blockOfFile inspector i_block (1036 + k)
                    = pointerAt
                        (dumpOf inspector
                           (pointerAt (dumpOf inspector (pointerAt i_block 13))
                              (k / 1024)))
                        (k mod 1024)
                    /\ indexBlockOf inspector i_block (1036 + k)
                       = pointerAt (dumpOf inspector (pointerAt i_block 13))
                           (k / 1024)).
  { intros k. unfold blockOfFile, indexBlockOf.
    destruct (Nat.ltb_spec (1036 + k) 12); [lia|].
    destruct (Nat.ltb_spec (1036 + k) 1036); [lia|].
    now replace (1036 + k - 1036)%nat with k by lia. }
  unfold blocksAreSafe.
  unfold bind at 1, lift at 1. rewrite HB.
  rewrite pointersAreSafe_forallb by (rewrite Hd; lia).
  unfold bind at 1, lift at 1. rewrite Hd.
  destruct (forallb blockIsSafe
              (map (pointerAt i_block) (seq 0 (Z.to_nat (Z.min 12 B)))))
    eqn:Hdirect; cbn [negb]; cbv iota.
  2: { intros [= <- _]. split; [discriminate|]. intros H.
       rewrite (proj2 (forallb_pointers i_block _)) in Hdirect;
         [discriminate|].
       intros m Hm. rewrite <- Hlow by lia. apply H. lia. }
  pose proof (proj1 (forallb_pointers i_block _) Hdirect) as Hdir.
  destruct (Z.leb_spec (level1Blocks B) 0) as [Hl1 | Hl1].
  { intros [= <- _]. split; [|reflexivity]. intros _ k Hk.
    split; [|lia]. rewrite Hlow by lia. apply Hdir. lia. }
  unfold readUint32LE at 1. rewrite Hlen.
  change (12 * 4 + 4 <=? 60)%nat with true. cbv iota.
  unfold bind at 1, lift at 1. fold (pointerAt i_block 12).
  unfold bind at 1.
  destruct (blocksL1AreSafe inspector (pointerAt i_block 12)
              (level1Blocks B) w) as [[safe1 | e | |] w1] eqn:HL1;
    try discriminate.
  pose proof (blocksL1AreSafe_exact inspector _ (level1Blocks B) _ _ _
                ltac:(lia) HL1) as Hs1.
  destruct safe1; cbn [negb]; cbv iota.
  2: { intros [= <- _]. split; [discriminate|]. intros H.
       apply Hs1. intros m Hm. rewrite <- Hmid by lia. apply H. lia. }
  pose proof (proj1 Hs1 eq_refl) as Hind.
  destruct (Z.leb_spec (level2Blocks B) 0) as [Hl2 | Hl2].
  { intros [= <- _]. split; [|reflexivity]. intros _ k Hk.
    split; [|lia].
    destruct (decide (k < 12)%nat) as [Hk12 | Hk12].
    - rewrite Hlow by lia. apply Hdir. lia.
    - replace k with (12 + (k - 12))%nat by lia.
      rewrite Hmid by lia. apply Hind. lia. }
  unfold readUint32LE at 1. rewrite Hlen.
  change (13 * 4 + 4 <=? 60)%nat with true. cbv iota.
  unfold bind at 1, lift at 1. fold (pointerAt i_block 13).
  unfold bind at 1.
  destruct (blocksL2AreSafe inspector (pointerAt i_block 13)
              (level2Blocks B) w1) as [[safe2 | e | |] w2] eqn:HL2;
    try discriminate.
  pose proof (blocksL2AreSafe_exact inspector _ (level2Blocks B) _ _ _
                ltac:(lia) HL2) as Hs2.
  cbv zeta in Hs2.
  destruct safe2; cbn [negb]; cbv iota.
  2: { intros [= <- _]. split; [discriminate|]. intros H.
       apply Hs2. intros k Hk.
       destruct (Hhigh k) as [Hdata Hidx].
       rewrite <- Hidx at 1. rewrite <- Hdata.
       destruct (H (1036 + k)%nat ltac:(lia)) as [Hb Hi].
       split; [apply Hi; lia | exact Hb]. }
  pose proof (proj1 Hs2 eq_refl) as Hdbl.
  replace (level3Blocks B <=? 0) with true
    by (symmetry; apply Z.leb_le; exact H3).
  intros [= <- _]. split; [|reflexivity]. intros _ k Hk.
  destruct (decide (k < 12)%nat) as [Hk12 | Hk12].
  { split; [|lia]. rewrite Hlow by lia. apply Hdir. lia. }
  destruct (decide (k < 1036)%nat) as [Hk1036 | Hk1036].
  { split; [|lia]. replace k with (12 + (k - 12))%nat by lia.
    rewrite Hmid by lia. apply Hind. lia. }
  replace k with (1036 + (k - 1036))%nat by lia.
  destruct (Hhigh (k - 1036)%nat) as [Hdata Hidx].
  rewrite Hdata, Hidx.
  destruct (Hdbl (k - 1036)%nat ltac:(lia)) as [Hi Hb].
  split; [exact Hb | intros _; exact Hi].
Qed.

Lemma blocksAreSafe_follows_block_map_witness :
  true = true
  <-> forall k, (k < Z.to_nat 1037)%nat ->
        blockIsSafe
          (blockOfFile silentInspector (get_i_block doubleIndirectFile) k)
        = true
        /\ ((1036 <= k)%nat ->
            blockIsSafe
              (indexBlockOf silentInspector (get_i_block doubleIndirectFile) k)
            = true).
Proof.
  apply (blocksAreSafe_follows_block_map silentInspector doubleIndirectFile
           (get_i_block doubleIndirectFile) world0
           (withSent [bd 0; bd 0; bd 0] world0) true 1037).
  - reflexivity.
  - reflexivity.
  - lia.
  - vm_compute. reflexivity.
Defined.

(** ** Inode Table Locator: reading the group lines *)

Lemma takeSome_run p (w r : jsstring) :
  w <> [] -> Forall (fun c => p c = true) w ->
  match r with [] => True | c :: _ => p c = false end ->
  takeSome p (w ++ r) = Some (w, r).
Proof.
  intros Hne Hw Hr. unfold takeSome.
  assert (Ht : takeWhile p (w ++ r) = w /\ dropWhile p (w ++ r) = r).
  { clear Hne. induction Hw as [|c w Hc _ [IHt IHd]];
      cbn [app takeWhile dropWhile].
    - destruct r as [|c r]; [now split|]. cbn [takeWhile dropWhile].
      now rewrite Hr.
    - rewrite Hc, IHt, IHd. now split. }
  destruct Ht as [-> ->]. now destruct w.
Qed.

Lemma includes_app (s t sub : jsstring) :
  includes s sub = true -> includes (s ++ t) sub = true.
Proof.
  induction s as [|c s IH].
  - cbn [includes app]. destruct (literal sub []) as [r|] eqn:E;
      [|discriminate].
    intros _. apply (literal_app _ _ _ t) in E. cbn [app] in E.
    destruct t; cbn [includes]; now rewrite E.
  - cbn [includes app]. destruct (literal sub (c :: s)) as [r|] eqn:E.
    + intros _. apply (literal_app _ _ _ t) in E. cbn [app] in E.
      now rewrite E.
    + intros H. rewrite (IH H). now destruct (literal sub (c :: s ++ t)).
Qed.

Lemma inodeTableAt_digits_none (ds rest : jsstring) :
  Forall (fun c => isDigit c = true) ds ->
  inodeTableAt (ds ++ 10 :: rest) = None.
Proof.
  induction 1 as [|d ds Hd _ IH]; [reflexivity|].
  cbn [app inodeTableAt]. rewrite IH.
  unfold isDigit in Hd.
  destruct (Z.eqb_spec d 10); [lia|]. destruct (Z.eqb_spec d 13); [lia|].
  cbn [orb]. change (str " inode table at ")
    with (32 :: str "inode table at "). cbn [literal].
  destruct (Z.eqb_spec 32 d); [lia | reflexivity].
Qed.

Lemma inodeTableAt_cons (c : Z) (s : list Z) :
  inodeTableAt s = None ->
  inodeTableAt (c :: s)
  = match literal (str " inode table at ") (c :: s) with
    | Some r => takeSome isDigit r
    | None => None
    end.
Proof.
  intros Hs. cbn [inodeTableAt]. rewrite Hs.
  now destruct ((c =? 10) || (c =? 13)).
Qed.

Lemma inodeTableAt_here (tbl rest : list Z) :
  numeral tbl ->
  inodeTableAt (str " inode table at " ++ tbl ++ 10 :: rest)
  = Some (tbl, 10 :: rest).
Proof.
  intros [Hne Hdig].
  pose proof (inodeTableAt_digits_none tbl rest Hdig) as Hnone.
  assert (Hfirst : forall l, literal (105 :: l) (tbl ++ 10 :: rest) = None).
  { intros l. destruct Hdig as [|d ds Hd _]; [congruence|].
    cbn [app literal]. unfold isDigit in Hd.
    destruct (Z.eqb_spec 105 d); [lia | reflexivity]. }
  assert (Htake : takeSome isDigit (tbl ++ 10 :: rest) = Some (tbl, 10 :: rest))
    by (apply takeSome_run; [exact Hne | exact Hdig | reflexivity]).
  set (X := tbl ++ 10 :: rest) in *.
  change (str " inode table at ")
    with [32; 105; 110; 111; 100; 101; 32; 116; 97; 98; 108; 101; 32; 97; 116; 32].
  cbn [app].
  rewrite inodeTableAt_cons.
  - change (literal _ _) with (Some X). exact Htake.
  - do 14 (rewrite inodeTableAt_cons; [reflexivity|]).
    rewrite inodeTableAt_cons by exact Hnone.
    change (literal _ (32 :: X)) with (literal (105 :: [110; 111; 100; 101; 32; 116; 97; 98; 108; 101; 32; 97; 116; 32]) X).
    now rewrite Hfirst.
Qed.

Lemma inodeTableAt_skip (fill s : jsstring) r :
  Forall (fun c => c <> 10 /\ c <> 13) fill ->
  inodeTableAt s = Some r ->
  inodeTableAt (fill ++ s) = Some r.
Proof.
  intros Hfill Hs. induction Hfill as [|c fill [H10 H13] _ IH]; [exact Hs|].
  cbn [app inodeTableAt]. rewrite IH.
  destruct (Z.eqb_spec c 10); [contradiction|].
  destruct (Z.eqb_spec c 13); [contradiction|]. reflexivity.
Qed.

Lemma numeral_head (ds t : jsstring) (p : Z -> bool) :
  numeral ds -> (forall c, isDigit c = true -> p c = false) ->
  match ds ++ t with [] => True | c :: _ => p c = false end.
Proof.
  intros [Hne Hdig] Hp. destruct Hdig as [|d ds Hd _]; [congruence|].
  cbn [app]. now apply Hp.
Qed.

Lemma groupPattern_line (l : GroupLine) (t : jsstring) :
  wellFormedGroupLine l ->
  groupPattern (groupLineText l ++ t)
  = Some ((gl_group l, gl_table l), 10 :: gl_tail l ++ t).
Proof.
  intros (Hg & Ht & _ & _ & Hfill & _). unfold groupLineText, groupPattern.
  rewrite <- !app_assoc. rewrite literal_app_self.
  rewrite takeSome_run;
    [| discriminate
     | apply List.Forall_forall; intros c Hc; apply repeat_spec in Hc;
       now subst c
     | apply (numeral_head _ _ _ Hg); intros c Hc; unfold isDigit in Hc;
       destruct (Z.eqb_spec 32 c); [lia | reflexivity] ].
  rewrite takeSome_run; [| apply Hg | apply Hg | reflexivity].
  rewrite literal_app_self.
  rewrite (inodeTableAt_skip _ _ (gl_table l, 10 :: gl_tail l ++ t) Hfill);
    [reflexivity|].
  cbn [app]. now apply inodeTableAt_here.
Qed.

Lemma groupRegex_exec_skip (pre s : jsstring) :
  noG pre -> groupRegex_exec (pre ++ s) = groupRegex_exec s.
Proof.
  induction 1 as [|c pre Hc _ IH]; [reflexivity|].
  cbn [app groupRegex_exec]. unfold groupPattern at 1.
  change (str "Group") with (71 :: str "roup"). cbn [literal].
  destruct (Z.eqb_spec 71 c); [congruence | exact IH].
Qed.

Lemma groupRegex_exec_here (s : jsstring) m :
  groupPattern s = Some m -> groupRegex_exec s = Some m.
Proof. intros H. destruct s; cbn [groupRegex_exec]; now rewrite H. Qed.

Lemma groupRegex_exec_noG (s : jsstring) :
  noG s -> groupRegex_exec s = None.
Proof.
  intros H. rewrite <- (app_nil_r s).
  now rewrite groupRegex_exec_skip by exact H.
Qed.

Lemma groupTable_loop_lines (ls : list GroupLine) :
  forall (pre : jsstring) (m : gmap Z Z) (fuel : nat),
    Forall wellFormedGroupLine ls -> noG pre ->
    (length ls < fuel)%nat ->
    groupTable_loop fuel (pre ++ concat (map groupLineText ls)) m
    = Ok (fold_left (fun m l => <[decimalValue (gl_group l)
                                  := 4096 * decimalValue (gl_table l)]> m)
            ls m).
Proof.
  induction ls as [|l ls IH]; intros pre m fuel Hls Hpre Hfuel;
    (destruct fuel as [|fuel]; [cbn [length] in Hfuel; lia|]);
    cbn [groupTable_loop map concat fold_left].
  - rewrite app_nil_r, groupRegex_exec_noG by exact Hpre. reflexivity.
  - apply Forall_cons in Hls as [Hl Hls].
    rewrite groupRegex_exec_skip by exact Hpre.
    rewrite (groupRegex_exec_here _ _ (groupPattern_line l _ Hl)).
    pose proof Hl as (_ & _ & Hgroup & Htable & _).
    pose proof (decimalValue_nonneg (gl_table l)) as Hnonneg.
    rewrite (toNumber_exact _ Hgroup), (toNumber_exact (gl_table l))
      by lia.
    change (10 :: gl_tail l ++ concat (map groupLineText ls))
      with ((10 :: gl_tail l) ++ concat (map groupLineText ls)).
    apply IH; [exact Hls | | cbn [length] in Hfuel; lia].
    constructor; [discriminate | apply (proj2 (proj2 (proj2 (proj2 (proj2 Hl)))))].
Qed.

(** X25.  Every group line of the statistics is read.  When the reply to
    the statistics command is an echoed line, a header without the
    letter [G] that holds [Filesystem features], and then group lines,
    each made of [Group], spaces, the group number, [: ], text without a
    line break, [ inode table at ], the block number and the end of the
    line, and followed by lines without the letter [G], the table
    returned maps the number of every group line to 4096 times its
    block number, and holds nothing else (of two lines for the same
    group the later one counts).  The numbers are taken to be at most
    2^53, the range in which the arithmetic on them is exact. *)
Theorem getStartOfInodeTableByGroup_reads_group_lines :
  forall (inspector : Cmd -> jsstring) (echo header : jsstring)
         (lines : list GroupLine) (w : World),
    inspector stats
    = echo ++ 10 :: header ++ concat (map groupLineText lines) ->
    Forall (fun c => c <> 10) echo ->
    noG header ->
    includes header (str "Filesystem features") = true ->
    Forall wellFormedGroupLine lines ->
    getStartOfInodeTableByGroup inspector w
    = (Ok (tableOfLines lines), withSent [stats] w).
Proof.
  intros inspector echo header lines w Hreply Hecho Hheader Hfeat Hlines.
  unfold getStartOfInodeTableByGroup. unfold bind at 1.
  rewrite debugfsCmd_run, Hreply.
  rewrite (afterFirstLine_split echo _ Hecho).
  rewrite (includes_app _ _ _ Hfeat). cbn [negb]. unfold ret.
  f_equal. f_equal.
  apply groupTable_loop_lines; [exact Hlines | exact Hheader |].
  rewrite length_app.
  assert (Hlen : (length lines
                  <= length (concat (map groupLineText lines)))%nat).
  { clear. induction lines as [|l ls IH]; [reflexivity|].
    cbn [map concat length]. rewrite length_app.
    assert (H1 : (1 <= length (groupLineText l))%nat)
      by (unfold groupLineText; rewrite length_app;
          change (length (str "Group")) with 5%nat; lia).
    lia. }
  lia.
Qed.

Lemma getStartOfInodeTableByGroup_reads_group_lines_witness :
  getStartOfInodeTableByGroup badRootInspector world0
  = (Ok (tableOfLines [statsGroupLine]), withSent [stats] world0).
Proof.
  apply (getStartOfInodeTableByGroup_reads_group_lines badRootInspector
           (str "debugfs: stats") statsHeader [statsGroupLine] world0).
  - reflexivity.
  - repeat constructor; discriminate.
  - repeat constructor; discriminate.
  - reflexivity.
  - repeat constructor; try discriminate; vm_compute; discriminate.
Defined.

(** ** Directory listings: reading the lines *)

Lemma searchLineStart_to_next_line {G} (pat : jsstring -> option (G * nat))
    (mid s : jsstring) : forall i,
  Forall (fun c => isLineTerminator c = false) mid ->
  searchLineStart pat (mid ++ 10 :: s) i false
  = searchLineStart pat s (i + length mid + 1) true.
Proof.
  induction mid as [|c mid IH]; intros i Hmid; cbn [app searchLineStart length].
  - change (isLineTerminator 10) with true. f_equal. lia.
  - apply Forall_cons in Hmid as [Hc Hmid]. rewrite Hc, IH by exact Hmid.
    f_equal. lia.
Qed.

Lemma startsLine_behindMatch pre sep t :
  behindMatch pre sep ->
  startsLine (pre ++ sep ++ t) (length pre) = match sep with
                                              | [] => true
                                              | _ => false
                                              end.
Proof.
  intros [[-> ->] | (body & ch & mid & -> & Hch & -> & _)]; [reflexivity|].
  rewrite length_app, Nat.add_1_r. cbn [startsLine].
  rewrite <- app_assoc. cbn [app].
  rewrite list_lookup_middle by reflexivity. rewrite Hch.
  now destruct mid.
Qed.

Lemma execLineStart_next_line {G} (pat : jsstring -> option (G * nat))
    (pre sep s : jsstring) g len :
  behindMatch pre sep ->
  pat s = Some (g, len) ->
  execLineStart pat (pre ++ sep ++ s) (length pre)
  = Some (g, (length pre + length sep + len)%nat).
Proof.
  intros Hb Hpat. unfold execLineStart.
  replace (length (pre ++ sep ++ s) <? length pre)%nat
    with false by (symmetry; apply Nat.ltb_ge; rewrite length_app; lia).
  rewrite (startsLine_behindMatch pre sep _ Hb), drop_app_length.
  destruct Hb as [[-> ->] | (body & ch & mid & -> & Hch & -> & Hmid)].
  - cbn [app length]. rewrite (searchLineStart_here _ _ _ _ _ Hpat).
    do 2 f_equal.
  - replace (match mid ++ [10] with [] => true | _ :: _ => false end)
      with false by now destruct mid.
    rewrite <- app_assoc. cbn [app].
    rewrite searchLineStart_to_next_line by exact Hmid.
    rewrite (searchLineStart_here _ _ _ _ _ Hpat).
    do 2 f_equal. rewrite !length_app. cbn [length]. lia.
Qed.

Lemma execLineStart_last_line {G} (pat : jsstring -> option (G * nat))
    (pre sep : jsstring) :
  behindMatch pre sep ->
  pat [] = None ->
  execLineStart pat (pre ++ sep) (length pre) = None.
Proof.
  intros Hb Hpat. unfold execLineStart.
  replace (length (pre ++ sep) <? length pre)%nat
    with false by (symmetry; apply Nat.ltb_ge; rewrite length_app; lia).
  rewrite <- (app_nil_r sep) at 2.
  rewrite (startsLine_behindMatch pre sep [] Hb), drop_app_length.
  destruct Hb as [[-> ->] | (body & ch & mid & -> & Hch & -> & Hmid)].
  - cbn [searchLineStart]. now rewrite Hpat.
  - replace (match mid ++ [10] with [] => true | _ :: _ => false end)
      with false by now destruct mid.
    rewrite searchLineStart_to_next_line by exact Hmid.
    cbn [searchLineStart]. now rewrite Hpat.
Qed.

Lemma slashDigits_run (ds t : jsstring) :
  numeral ds ->
  match literal (str "/") (str "/" ++ ds ++ str "/" ++ t) with
  | Some r => takeSome isDigit r
  | None => None
  end = Some (ds, str "/" ++ t).
Proof.
  intros [Hne Hdig]. rewrite literal_app_self.
  apply takeSome_run; [exact Hne | exact Hdig | reflexivity].
Qed.

Lemma dirEntryPattern_line (l : ListingLine) (t : jsstring) :
  wellFormedListingLine l ->
  exists matched,
    listingLineText l = matched ++ str "/" ++ ll_rest l ++ [10]
    /\ matched = str "/" ++ ll_inode l ++ str "/" ++ ll_mode l ++ str "/"
                 ++ ll_uid l ++ str "/" ++ ll_gid l ++ str "/" ++ ll_name l
    /\ dirEntryPattern (listingLineText l ++ t)
       = Some ((ll_inode l, ll_name l), length matched).
Proof.
  intros (Hi & Hm & Hu & Hg & _ & Hslash & (body & ch & Hname & Hch) & _).
  eexists. split; [|split; [reflexivity|]].
  { unfold listingLineText. now rewrite <- !app_assoc. }
  unfold dirEntryPattern, listingLineText.
  rewrite <- !app_assoc.
  rewrite (slashDigits_run _ _ Hi), (slashDigits_run _ _ Hm),
    (slashDigits_run _ _ Hu), (slashDigits_run _ _ Hg).
  rewrite literal_app_self.
  rewrite takeSome_run;
    [| rewrite Hname; now destruct body
     | apply List.Forall_forall; intros c Hc;
       destruct (Z.eqb_spec c 47); [now subst c | reflexivity]
     | reflexivity ].
  do 2 f_equal. rewrite !length_app. cbn [length str map
    list_ascii_of_string]. lia.
Qed.

Lemma getDirEntries_loop_lines (ls : list ListingLine) :
  forall (pre sep : jsstring) (entries : list DirEntry) (fuel : nat),
    Forall wellFormedListingLine ls -> behindMatch pre sep ->
    (length ls < fuel)%nat ->
    getDirEntries_loop fuel (pre ++ sep ++ concat (map listingLineText ls))
      (length pre) entries
    = Ok (entries ++ entriesOfListing ls).
Proof.
  induction ls as [|l ls IH]; intros pre sep entries fuel Hls Hb Hfuel;
    (destruct fuel as [|fuel]; [cbn [length] in Hfuel; lia|]);
    cbn [getDirEntries_loop map concat].
  - unfold dirEntryRegex_exec.
    rewrite app_nil_r, (execLineStart_last_line _ _ _ Hb eq_refl).
    unfold entriesOfListing. cbn [List.filter map]. now rewrite app_nil_r.
  - apply Forall_cons in Hls as [Hl Hls].
    destruct (dirEntryPattern_line l (concat (map listingLineText ls)) Hl)
      as (matched & Htext & Hmatched & Hpat).
    unfold dirEntryRegex_exec.
    rewrite (execLineStart_next_line _ _ _ _ _ _ Hb Hpat).
    fold dirEntryRegex_exec.
    assert (Hhex : pre ++ sep ++ listingLineText l
                     ++ concat (map listingLineText ls)
                   = (pre ++ sep ++ matched)
                     ++ (str "/" ++ ll_rest l ++ [10])
                     ++ concat (map listingLineText ls))
      by (rewrite Htext, <- !app_assoc; reflexivity).
    assert (Hli : (length pre + length sep + length matched)%nat
                  = length (pre ++ sep ++ matched))
      by (rewrite !length_app; lia).
    assert (Hbehind : behindMatch (pre ++ sep ++ matched)
                        (str "/" ++ ll_rest l ++ [10])).
    { destruct Hl as (_ & _ & _ & _ & _ & _ & (body & ch & Hname & Hch)
                      & Hrest).
      right.
      exists (pre ++ sep ++ str "/" ++ ll_inode l ++ str "/" ++ ll_mode l
              ++ str "/" ++ ll_uid l ++ str "/" ++ ll_gid l ++ str "/"
              ++ body), ch, (str "/" ++ ll_rest l).
      split; [rewrite Hmatched, Hname, <- !app_assoc; reflexivity|].
      split; [exact Hch|]. split; [now rewrite <- app_assoc|].
      constructor; [reflexivity | exact Hrest]. }
    rewrite Hhex, Hli.
    rewrite (toNumber_exact _ (proj1 (proj2 (proj2 (proj2 (proj2 Hl)))))).
    unfold entriesOfListing. cbn [List.filter].
    destruct (jsstring_eqb (ll_name l) (str ".")
              || jsstring_eqb (ll_name l) (str "..")); cbn [negb map].
    + apply IH; [exact Hls | exact Hbehind | cbn [length] in Hfuel; lia].
    + rewrite (IH _ _ _ fuel Hls Hbehind ltac:(cbn [length] in Hfuel; lia)).
      now rewrite <- app_assoc.
Qed.

(** X26.  Every line of a directory listing is read.  When the reply to
    the listing command is an echoed line and then lines of the form
    [/inode/mode/uid/gid/name/...], the four numbers being numerals and
    the name holding no slash and not ending with a line terminator,
    [getDirEntries] returns one entry per line, in the order of the
    lines, with the inode number and the name of the line, leaving out
    the lines for [.] and [..] and nothing else.  The inode numbers are
    taken to be at most 2^53, the range in which numbers are exact. *)
Theorem getDirEntries_reads_listing_lines :
  forall (inspector : Cmd -> jsstring) (dir : Z) (echo : jsstring)
         (lines : list ListingLine) (w : World),
    inspector (ls_p dir) = echo ++ 10 :: concat (map listingLineText lines) ->
    Forall (fun c => c <> 10) echo ->
    Forall wellFormedListingLine lines ->
    getDirEntries inspector dir w
    = (Ok (entriesOfListing lines), withSent [ls_p dir] w).
Proof.
  intros inspector dir echo lines w Hreply Hecho Hlines.
  unfold getDirEntries. unfold bind at 1.
  rewrite debugfsCmd_run, Hreply.
  rewrite (afterFirstLine_split echo _ Hecho). unfold ret.
  f_equal. f_equal.
  assert (Hlen : (length lines
                  <= length (concat (map listingLineText lines)))%nat).
  { clear. induction lines as [|l ls IH]; [reflexivity|].
    cbn [map concat length]. rewrite length_app.
    assert (H1 : (1 <= length (listingLineText l))%nat)
      by (unfold listingLineText; rewrite length_app;
          change (length (str "/")) with 1%nat; lia).
    lia. }
  apply (getDirEntries_loop_lines lines [] [] [] _ Hlines);
    [left; now split | lia].
Qed.

Lemma getDirEntries_reads_listing_lines_witness :
  getDirEntries oddListingInspector 2 world0
  = (Ok [mkDirEntry 14 (str "two" ++ nl ++ str "lines")],
     withSent [ls_p 2] world0).
Proof.
  apply (getDirEntries_reads_listing_lines oddListingInspector 2
           (str "debugfs: ls -p <2>") oddListingLines world0).
  - reflexivity.
  - repeat constructor; discriminate.
  - repeat constructor; try discriminate;
      try (vm_compute; discriminate);
      try (vm_compute; intuition discriminate).
    + exists [], 46. now split.
    + exists [46], 46. now split.
    + exists (str "two" ++ nl ++ str "line"), 115. now split.
Defined.
